(** * NMR reporter: a shallow embedding of the template engine

    The development follows the Python modules [block.py], [cues.py],
    [formatter.py] and [spectrum.py].  Python strings are lists of
    characters, a [Block] is a list of [Char] objects with two flags, and
    every function that can raise returns in the [res] monad. *)

From Stdlib Require Import ZArith Ascii String.
From stdpp Require Import base list strings gmap.

Local Open Scope Z_scope.
Local Open Scope nat_scope.

(** ** Exceptions and results *)

(** The Python exceptions that the modelled code can raise.  [FormatError]
    and [InputError] are the two classes of [exceptions.py]; the others are
    built in. *)
Inductive exn : Type :=
  | IndexError
  | ValueError
  | KeyError
  | UnboundLocalError
  | FormatError
  | InputError.

Global Instance exn_eq_dec : EqDecision exn.
Proof. solve_decision. Defined.

(** A call returns a value, raises, or (for the loops whose exit is not
    structural) exhausts the fuel it was given. *)
Inductive res (A : Type) : Type :=
  | Ok (a : A)
  | Raise (e : exn)
  | OutOfFuel.
Global Arguments Ok {A} a.
Global Arguments Raise {A} e.
Global Arguments OutOfFuel {A}.

Definition res_bind {A B} (m : res A) (f : A → res B) : res B :=
  match m with
  | Ok a => f a
  | Raise e => Raise e
  | OutOfFuel => OutOfFuel
  end.

Global Instance res_ret : MRet res := λ A a, Ok a.
Global Instance res_mbind : MBind res := λ A B f m, res_bind m f.

Global Instance res_fmap : FMap res := λ A B f m, res_bind m (λ a, Ok (f a)).

Definition of_option {A} (e : exn) (o : option A) : res A :=
  match o with Some a => Ok a | None => Raise e end.

(** The call ends, with a value or with an exception. *)
Definition terminates {A} (m : res A) : Prop := m ≠ OutOfFuel.

(** ** Python strings *)

Definition pystr : Type := list ascii.

Definition lit (s : string) : pystr := list_ascii_of_string s.

(** [s.startswith(sub)] *)
Fixpoint starts_with (sub s : pystr) : bool :=
  match sub, s with
  | [], _ => true
  | a :: sub', b :: s' => bool_decide (a = b) && starts_with sub' s'
  | _ :: _, [] => false
  end.

(** The scan of [str.count]: occurrences are counted from the left and do
    not overlap; [skip] characters of the last occurrence are still to be
    stepped over. *)
Fixpoint count_from (sub : pystr) (skip : nat) (s : pystr) : nat :=
  match s with
  | [] => 0
  | _ :: s' =>
      match skip with
      | S k => count_from sub k s'
      | O => if starts_with sub s
             then S (count_from sub (length sub - 1) s')
             else count_from sub 0 s'
      end
  end.

(** [s.count(sub)]; the empty string occurs [len(s) + 1] times. *)
Definition str_count (s sub : pystr) : nat :=
  match sub with
  | [] => S (length s)
  | _ => count_from sub 0 s
  end.

Fixpoint find_at (sub t : pystr) (pos : nat) : option nat :=
  if starts_with sub t then Some pos
  else match t with
       | [] => None
       | _ :: t' => find_at sub t' (S pos)
       end.

(** [s.find(sub, start, end)] with [None] for -1. *)
Definition str_find (s sub : pystr) (start end_ : nat) : option nat :=
  let s' := take end_ s in
  if decide (start ≤ length s') then find_at sub (drop start s') start
  else None.

(** [s.index(sub, start, end)] *)
Definition str_index (s sub : pystr) (start end_ : nat) : res nat :=
  of_option ValueError (str_find s sub start end_).

(** [sub in s] on strings *)
Definition str_in (sub s : pystr) : bool :=
  bool_decide (is_Some (str_find s sub 0 (length s))).

Fixpoint split_from (sep : pystr) (skip : nat) (cur : pystr) (s : pystr)
  : list pystr :=
  match s with
  | [] => [reverse cur]
  | c :: s' =>
      match skip with
      | S k => split_from sep k cur s'
      | O => if starts_with sep s
             then reverse cur :: split_from sep (length sep - 1) [] s'
             else split_from sep 0 (c :: cur) s'
      end
  end.

(** [s.split(sep)]; an empty separator is a [ValueError]. *)
Definition str_split (s sep : pystr) : res (list pystr) :=
  match sep with
  | [] => Raise ValueError
  | _ => Ok (split_from sep 0 [] s)
  end.

(** [c.lower()] on one character; only the letters A to Z have a lower
    case among the characters modelled here. *)
Definition lower (c : ascii) : ascii :=
  let n := nat_of_ascii c in
  if decide (65 ≤ n ∧ n ≤ 90) then ascii_of_nat (n + 32) else c.

(** ** Sequences with Python indexing *)

(** [l[i]] for a possibly negative [i]. *)
Definition py_nth {A} (l : list A) (i : Z) : res A :=
  if decide (0 ≤ i)%Z then of_option IndexError (l !! Z.to_nat i)
  else if decide (- Z.of_nat (length l) ≤ i)%Z
       then of_option IndexError (l !! (length l - Z.to_nat (- i)))
       else Raise IndexError.

(** [l[a:b]] for non-negative bounds. *)
Definition slice {A} (l : list A) (a b : nat) : list A :=
  take (b - a) (drop a l).

(** First index of an element equal to [x] ([list.index]). *)
Fixpoint list_index {A} (eqb : A → A → bool) (x : A) (l : list A)
  : option nat :=
  match l with
  | [] => None
  | y :: l' => if eqb y x then Some 0 else S <$> list_index eqb x l'
  end.

(** [x in l] on lists *)
Definition list_in {A} (eqb : A → A → bool) (x : A) (l : list A) : bool :=
  existsb (λ y, eqb y x) l.

(** [l.remove(x)]: drops the first element equal to [x]. *)
Fixpoint list_remove {A} (eqb : A → A → bool) (x : A) (l : list A)
  : option (list A) :=
  match l with
  | [] => None
  | y :: l' => if eqb y x then Some l' else (y ::.) <$> list_remove eqb x l'
  end.

(** [l1 == l2] on lists, element by element. *)
Fixpoint list_eqb {A} (eqb : A → A → bool) (l1 l2 : list A) : bool :=
  match l1, l2 with
  | [], [] => true
  | x :: l1', y :: l2' => eqb x y && list_eqb eqb l1' l2'
  | _, _ => false
  end.

(** ** [block.py]: [Char] *)

(** One styled character.  [oid] is the identity of the Python object:
    [Char.__eq__] on two [Char]s is [other is self]. *)
Record Char : Type := mkChar {
  str : ascii;
  italic : option bool;
  bold : option bool;
  underline : option bool;
  subscript : option bool;
  superscript : option bool;
  oid : nat
}.

Definition bits (c : Char) : list (option bool) :=
  [italic c; bold c; underline c; subscript c; superscript c].

(** [Char(char)] with no run: every style attribute is [None]. *)
Definition Char_init (char : ascii) (id : nat) : Char :=
  mkChar char None None None None None id.

(** [Char.__eq__] against a [Char] and against a string. *)
Definition Char_is (a b : Char) : bool := bool_decide (oid a = oid b).
Definition Char_eq_str (c : Char) (s : ascii) : bool := bool_decide (s = str c).

(** ** [block.py]: [Block] *)

(** [variable] is [None] only for the place holder that
    [Section.splice_blocks] writes. *)
Record Block : Type := mkBlock {
  chars : list Char;
  optional : bool;
  variable : option bool
}.

(** Truth value of the [variable] attribute. *)
Definition is_variable (b : Block) : bool :=
  match variable b with Some true => true | _ => false end.

(** [Block(list_of_chars)], [Block()] and [Block(block, optional)]. *)
Definition Block_of_chars (cs : list Char) : Block := mkBlock cs false (Some false).
Definition Block_empty : Block := Block_of_chars [].

(** Fresh [Char] objects for the characters of a string; [next] is the
    first unused object identity. *)
Fixpoint new_chars (next : nat) (s : pystr) : list Char :=
  match s with
  | [] => []
  | c :: s' => Char_init c next :: new_chars (S next) s'
  end.

(** [Block(text, optional, variable=...)] for a string [text]. *)
Definition Block_of_str (next : nat) (s : pystr) (opt : bool)
    (var : option bool) : Block :=
  mkBlock (new_chars next s) opt var.

(** [Block.__call__] *)
Definition Block_text (b : Block) : pystr := str <$> chars b.

(** [Block.__len__] and the truth value of a [Block]. *)
Definition Block_len (b : Block) : nat := length (chars b).
Definition Block_nonempty (b : Block) : bool :=
  match chars b with [] => false | _ => true end.

(** [Block.count] for a string and for a [Block]. *)
Definition Block_count_str (b : Block) (value : pystr) : nat :=
  str_count (Block_text b) value.
Definition Block_count (b value : Block) : nat :=
  str_count (Block_text b) (Block_text value).

(** [Block.__contains__] *)
Definition Block_contains_str (b : Block) (item : pystr) : bool :=
  bool_decide (0 < Block_count_str b item).
Definition Block_contains (b item : Block) : bool :=
  bool_decide (0 < str_count (Block_text b) (Block_text item)).

(** [Block.index(value, start)]: [end] is never passed by the callers and
    defaults to the length. *)
Definition Block_index_str (b : Block) (value : pystr) (start : nat) : res nat :=
  str_index (Block_text b) value start (length (chars b)).
Definition Block_index (b value : Block) (start : nat) : res nat :=
  str_index (Block_text b) (Block_text value) start (length (chars b)).

(** [Block.__getitem__] with a slice: the flags are not kept. *)
Definition Block_slice (b : Block) (a e : nat) : Block :=
  Block_of_chars (slice (chars b) a e).
Definition Block_from (b : Block) (a : nat) : Block :=
  Block_of_chars (drop a (chars b)).
Definition Block_upto (b : Block) (e : nat) : Block :=
  Block_of_chars (take e (chars b)).
Definition Block_copy (b : Block) : Block := Block_of_chars (chars b).
Definition Block_reversed (b : Block) : Block :=
  Block_of_chars (reverse (chars b)).

(** [Block.__getitem__] with an integer. *)
Definition Block_get (b : Block) (i : Z) : res Char := py_nth (chars b) i.

(** [Block.__add__] with a [Block] and with a string. *)
Definition Block_add (a b : Block) : Block :=
  Block_of_chars (chars a ++ chars b).
Definition Block_add_str (next : nat) (a : Block) (s : pystr) : Block :=
  Block_of_chars (chars a ++ chars (Block_of_str next s false (Some false))).

(** [Block.__radd__] with a string on the left: the result is
    [Block(other)] extended in place. *)
Definition Block_radd_str (next : nat) (s : pystr) (b : Block) : Block :=
  let result := Block_of_str next s false (Some false) in
  mkBlock (chars result ++ chars b) (optional result) (variable result).

(** [Block.__eq__] *)
Definition Block_eq (a b : Block) : bool :=
  list_eqb Char_is (chars b) (chars a)
  && bool_decide (variable b = variable a)
  && bool_decide (optional b = optional a).

(** [Block.pop]: the popped character is returned as a [Block]; the
    shortened receiver is returned next to it. *)
Definition Block_pop (b : Block) : res (Block * Block) :=
  match reverse (chars b) with
  | [] => Raise IndexError
  | c :: rest => Ok (Block_of_chars [c],
                     mkBlock (reverse rest) (optional b) (variable b))
  end.

(** [Block.lstrip]: deletes one leading space. *)
Definition Block_lstrip (b : Block) : Block :=
  match chars b with
  | c :: rest => if bool_decide (" "%char = str c)
                 then mkBlock rest (optional b) (variable b) else b
  | [] => b
  end.

(** The [while] loop of [Block.split]: [cs] is [self.chars[i:]]. *)
Fixpoint Block_split_loop (cs : list Char) (split_list : list pystr)
    (j k : nat) (_chars : list Char) (texts : list Block)
  : res (list Block) :=
  match cs with
  | [] => Ok texts
  | c :: cs' =>
      frag ← of_option IndexError (split_list !! j);
      ch ← of_option IndexError (frag !! k);
      let '(_chars1, k1) :=
        if bool_decide (str c = ch) then (_chars ++ [c], S k) else (_chars, k) in
      if bool_decide (k1 = length frag)
      then Block_split_loop cs' split_list (S j) 0 []
             (texts ++ [Block_of_chars _chars1])
      else Block_split_loop cs' split_list j k1 _chars1 texts
  end.

(** [Block.split] *)
Definition Block_split (b delimiter : Block) : res (list Block) :=
  split_list ← str_split (Block_text b) (Block_text delimiter);
  Block_split_loop (chars b) split_list 0 0 [] [].

(** ** [cues.py] *)

Definition digits : list ascii := lit "0123456789".

(** The accepted characters of every variable code; [None] is a code
    without a cue. *)
Definition CUES : gmap pystr (option (list ascii)) :=
  list_to_map
    [ (lit "%n", None);
      (lit "%s", None);
      (lit "%f", Some (digits ++ lit "."));
      (lit "%c", None);
      (lit "%i", Some digits);
      (lit "%m", Some (lit "sdtqpxhbrm*"));
      (lit "%j", Some (digits ++ lit ". ,"));
      (lit "%a", None) ].

(** ** [formatter.py]: [Section] *)

Record Section : Type := mkSection {
  section : list Block;
  section_str : list pystr;
  constants : list Block;
  constants_str : list pystr;
  variables : list Block;
  variables_str : list pystr;
  obligatories : list Block;
  obligatories_str : list pystr;
  optionals : list Block;
  optionals_str : list pystr;
  contains : option (gset pystr)
}.

Definition nonempty_texts (bs : list Block) : list pystr :=
  filter (λ s, s ≠ []) (Block_text <$> bs).

(** [Section.__init__] *)
Definition Section_init (sec : list Block) (cont : option (gset pystr))
  : Section :=
  let cs := filter (λ x, is_variable x = false) sec in
  let vs := filter (λ x, is_variable x = true) sec in
  let obs := filter (λ x, optional x = false) sec in
  let ops := filter (λ x, optional x = true) sec in
  mkSection sec (Block_text <$> sec)
    cs (nonempty_texts cs) vs (nonempty_texts vs)
    obs (nonempty_texts obs) ops (nonempty_texts ops) cont.

(** [Block('', variable=None)] *)
Definition placeholder : Block := mkBlock [] false None.

(** The first loop of [Section.splice_blocks]; [i] is the index of the
    enumeration and [todo] the number of elements still to visit.  The
    list is updated in place, so the neighbour read at [i - 1] is the
    current one. *)
Fixpoint splice_loop (todo i : nat) (sec : list Block) : list Block :=
  match todo with
  | 0 => sec
  | S todo' =>
      let sec' :=
        match i with
        | 0 => sec
        | S p =>
            match sec !! i, sec !! p with
            | Some block, Some prev =>
                if bool_decide (variable block = variable prev)
                then <[i := placeholder]> (<[p := Block_add prev block]> sec)
                else sec
            | _, _ => sec
            end
        end in
      splice_loop todo' (S i) sec'
  end.

(** The second loop: every element of the copy that equals the place
    holder is removed from the list. *)
Fixpoint remove_placeholders (copy sec : list Block) : res (list Block) :=
  match copy with
  | [] => Ok sec
  | item :: copy' =>
      if Block_eq item placeholder
      then sec' ← of_option ValueError (list_remove Block_eq item sec);
           remove_placeholders copy' sec'
      else remove_placeholders copy' sec
  end.

(** [Section.splice_blocks] *)
Definition splice_blocks (s : Section) : res Section :=
  let sec := splice_loop (length (section s)) 0 (section s) in
  sec' ← remove_placeholders sec sec;
  Ok (Section_init sec' (contains s)).

(** ** [formatter.py]: [Hypotheses] *)

Definition piece : Type := list Block.
Definition piece_eq (p q : piece) : bool := list_eqb Block_eq p q.

(** The segmentation loop of [Hypotheses.__init__]. *)
Fixpoint segment (sig : list Block) (_pieces : list piece) (_piece : piece)
  : list piece :=
  match sig with
  | [] => match _piece with [] => _pieces | _ => _pieces ++ [_piece] end
  | block :: sig' =>
      if bool_decide (Block_text block = [])
      then segment sig' (_pieces ++ [_piece]) []
      else segment sig' _pieces (_piece ++ [block])
  end.

(** [l[1::2]] *)
Fixpoint odd_entries {A} (l : list A) : list A :=
  match l with
  | _ :: x :: l' => x :: odd_entries l'
  | _ => []
  end.

(** [l[i] = x] *)
Definition py_set {A} (l : list A) (i : nat) (x : A) : res (list A) :=
  if decide (i < length l) then Ok (<[i := x]> l) else Raise IndexError.

Section find_combinations.
Context {A : Type} (eqb : A → A → bool).

(** The pieces whose index is in [leftout] are removed from a copy of
    [a_list]; [items] is [a_list[i:]]. *)
Fixpoint knock_out (leftout : list Z) (i : nat) (items temp_list : list A)
  : res (list A) :=
  match items with
  | [] => Ok temp_list
  | item :: items' =>
      if bool_decide (Z.of_nat i ∈ leftout)
      then temp ← of_option ValueError (list_remove eqb item temp_list);
           knock_out leftout (S i) items' temp
      else knock_out leftout (S i) items' temp_list
  end.

(** The search of the [for] loop over [leftout]: the first index, other
    than 0, whose predecessor value is not left out. *)
Fixpoint find_gap (leftout : list Z) (i : nat) (items : list Z)
  : option nat :=
  match items with
  | [] => None
  | item :: items' =>
      if bool_decide ((item - 1)%Z ∉ leftout) && negb (bool_decide (i = 0))
      then Some i
      else find_gap leftout (S i) items'
  end.

(** [for index in reversed(range(i)): leftout[index] = leftout[index + 1] - 1] *)
Fixpoint reset_below (i : nat) (leftout : list Z) : res (list Z) :=
  match i with
  | 0 => Ok leftout
  | S index =>
      v ← of_option IndexError (leftout !! S index);
      leftout' ← py_set leftout index (v - 1)%Z;
      reset_below index leftout'
  end.

(** One turn of the [while True] loop after the combination has been
    stored: the next [leftout], or [None] when [finished] stays true. *)
Definition next_leftout (leftout : list Z) : res (option (list Z)) :=
  l0 ← of_option IndexError (leftout !! 0);
  if bool_decide (0 < l0)%Z
  then leftout' ← py_set leftout 0 (l0 - 1)%Z; Ok (Some leftout')
  else match find_gap leftout 0 leftout with
       | Some i =>
           li ← of_option IndexError (leftout !! i);
           leftout1 ← py_set leftout i (li - 1)%Z;
           leftout2 ← reset_below i leftout1;
           Ok (Some leftout2)
       | None => Ok None
       end.

Fixpoint find_combinations_loop (fuel : nat) (a_list : list A)
    (leftout : list Z) (combinations : list (list A))
  : res (list (list A)) :=
  match fuel with
  | 0 => OutOfFuel
  | S fuel' =>
      temp_list ← knock_out leftout 0 a_list a_list;
      let combinations' := combinations ++ [temp_list] in
      next ← next_leftout leftout;
      match next with
      | Some leftout' =>
          find_combinations_loop fuel' a_list leftout' combinations'
      | None => Ok combinations'
      end
  end.

(** [find_combinations(a_list, n)] *)
Definition find_combinations (fuel : nat) (a_list : list A) (n : nat)
  : res (list (list A)) :=
  let leftout := Z.of_nat <$> seq n (length a_list - n) in
  match leftout with
  | [] => Ok [a_list]
  | _ => find_combinations_loop fuel a_list leftout []
  end.
End find_combinations.

(** The hypothesis of one combination, before it becomes a [Section]:
    [ps] is the list being iterated, [_pieces] the whole list. *)
Fixpoint assemble (_pieces ps : list piece) (combination : list piece)
    (_hypothesis : list Block) : res (list Block) :=
  match ps with
  | [] => Ok _hypothesis
  | p :: ps' =>
      ix ← of_option ValueError (list_index piece_eq p _pieces);
      if bool_decide (ix `mod` 2 = 0)
      then assemble _pieces ps' combination (_hypothesis ++ p)
      else if list_in piece_eq p combination
           then assemble _pieces ps' combination (_hypothesis ++ p)
           else assemble _pieces ps' combination _hypothesis
  end.

Definition contains_of (_hypothesis : list Block) : gset pystr :=
  foldl (λ acc block, if is_variable block then {[ Block_text block ]} ∪ acc
                      else acc) ∅ _hypothesis.

Definition build_hypothesis (_pieces : list piece) (combination : list piece)
  : res Section :=
  _hypothesis ← assemble _pieces _pieces combination [];
  splice_blocks (Section_init _hypothesis (Some (contains_of _hypothesis))).

Fixpoint mapM {A B} (f : A → res B) (l : list A) : res (list B) :=
  match l with
  | [] => Ok []
  | x :: l' => y ← f x; ys ← mapM f l'; Ok (y :: ys)
  end.

(** [Hypotheses.build_hypotheses(n)]: the group that is appended to
    [self.hypotheses]. *)
Definition build_hypotheses (fuel : nat) (_pieces : list piece) (n : nat)
  : res (list Section) :=
  combinations ← find_combinations piece_eq fuel (odd_entries _pieces) n;
  mapM (build_hypothesis _pieces) combinations.

(** [Hypotheses.__init__] *)
Definition Hypotheses_init (fuel : nat) (signal : Section)
  : res (list (list Section)) :=
  let _pieces := segment (section signal) [] [] in
  groups ← mapM (build_hypotheses fuel _pieces)
                (seq 0 (length (odd_entries _pieces) + 1));
  Ok (reverse groups).

(** ** [formatter.py]: [Formatter] *)

Record Formatter : Type := mkFormatter {
  head : Section;
  signals : Section;
  hypotheses : list (list Section);
  delimiter : Block;
  end_ : Block
}.

(** [if _text(): list_of_parsed.append(Block(_text, _optional))] *)
Definition flush (_text : list Char) (_optional : bool)
    (list_of_parsed : list Block) : list Block :=
  match _text with
  | [] => list_of_parsed
  | _ => list_of_parsed ++ [mkBlock _text _optional (Some false)]
  end.

(** The [while unparsed] loop of [Formatter._parse].  [raw] is
    [self._raw_nmr_format]; [next] is the first unused object identity,
    advanced by the two characters of every key [Block]. *)
Fixpoint parse_loop (raw : Block) (unparsed _text : list Char)
    (_optional : bool) (list_of_parsed : list Block) (next : nat)
  : res (list Block * nat) :=
  match unparsed with
  | [] => Ok (flush _text _optional list_of_parsed, next)
  | c :: rest =>
      if negb (Char_eq_str c "%") && negb (Char_eq_str c "*")
      then parse_loop raw rest (_text ++ [c]) _optional list_of_parsed next
      else
        let parsed := flush _text _optional list_of_parsed in
        if Char_eq_str c "%"
        then match rest with
             | [] => Raise IndexError
             | c1 :: rest' =>
                 let _key := ["%"%char; lower (str c1)] in
                 if bool_decide (1 < Block_count_str raw _key)
                 then Raise FormatError
                 else if match last parsed with
                         | Some b => str_in (lit "%") (Block_text b)
                         | None => false
                         end
                 then Raise FormatError
                 else if bool_decide (CUES !! _key = None)
                 then Raise FormatError
                 else parse_loop raw rest' [] _optional
                        (parsed ++ [Block_of_str next _key _optional (Some true)])
                        (next + 2)
             end
        else
          let _optional' := negb _optional in
          parse_loop raw rest [] _optional'
            (parsed ++ [mkBlock [] _optional' (Some false)]) next
  end.

(** [Formatter._parse] *)
Definition Formatter_parse (raw unparsed : Block) (next : nat)
  : res (list Block * nat) :=
  parse_loop raw (chars unparsed) [] false [] next.

(** [Formatter.__init__]; [fuel] bounds the [while True] loop of
    [find_combinations]. *)
Definition Formatter_init (fuel next : nat) (raw_nmr_format : Block)
  : res Formatter :=
  let raw := raw_nmr_format in
  if bool_decide (Block_count_str raw (lit "/") ≠ 3) then Raise FormatError
  else if bool_decide (Block_count_str raw (lit "*") `mod` 2 ≠ 0)
  then Raise FormatError
  else
    _repeat_i ← Block_index_str raw (lit "/") 0;
    _repeat_i2 ← Block_index_str raw (lit "/") (_repeat_i + 1);
    r ← Block_index_str (Block_reversed raw) (lit "/") 0;
    let _repeat_i3 := (Z.of_nat (Block_len raw) - 1 - Z.of_nat r)%Z in
    before ← Block_get raw (Z.of_nat _repeat_i - 1);
    if negb (Char_eq_str before " ") then Raise FormatError
    else
      let _head := Block_upto raw _repeat_i in
      let _signals := Block_slice raw (_repeat_i + 1) _repeat_i2 in
      let delim := Block_slice raw (_repeat_i2 + 1) (Z.to_nat _repeat_i3) in
      e ← (if bool_decide (_repeat_i3 ≠ Z.of_nat (Block_len raw) - 1)%Z
           then c ← Block_get raw (-1); Ok (Block_of_chars [c])
           else Ok Block_empty);
      '(h, next1) ← Formatter_parse raw _head next;
      '(s, next2) ← Formatter_parse raw _signals next1;
      let sig := Section_init s None in
      hyps ← Hypotheses_init fuel sig;
      Ok (mkFormatter (Section_init h None) sig hyps delim e).

(** A paragraph read from the document: fresh [Char]s numbered from
    [base], without styling. *)
Definition paragraph (base : nat) (s : string) : Block :=
  Block_of_str base (lit s) false (Some false).

Definition texts_of (s : Section) : list string :=
  (λ b, string_of_list_ascii (Block_text b)) <$> section s.

(** ** [signal.py] *)

Record Signal : Type := mkSignal {
  hypothesis : Section;
  chemshift : option Block;
  integral : option Block;
  multiplicity : option Block;
  j_values : option Block;
  assignment : option Block
}.

(** [signal_variables[variables_str.index(key)] if key in variables_str
    else default] *)
Definition field_of (signal_variables : list Block) (h : Section)
    (key : pystr) (default : option Block) : res (option Block) :=
  match list_index (λ a b, bool_decide (a = b)) key (variables_str h) with
  | Some i => v ← of_option IndexError (signal_variables !! i); Ok (Some v)
  | None => Ok default
  end.

(** [Signal.__init__] *)
Definition Signal_init (signal_variables : list Block) (h : Section)
  : res Signal :=
  c ← field_of signal_variables h (lit "%c") None;
  i ← field_of signal_variables h (lit "%i") None;
  m ← field_of signal_variables h (lit "%m") None;
  j ← field_of signal_variables h (lit "%j") None;
  a ← field_of signal_variables h (lit "%a") (Some Block_empty);
  Ok (mkSignal h c i m j a).

(** ** [spectrum.py]: [Spectrum.match_hypothesis] *)

(** The loop over [hypothesis.constants_str]: the counts, or [None] when
    a constant is absent ([next_]). *)
Fixpoint scan_constants (blocks : list pystr) (_temp : Block)
    (counts : list nat) : res (option (list nat)) :=
  match blocks with
  | [] => Ok (Some counts)
  | block :: blocks' =>
      let count := Block_count_str _temp block in
      if bool_decide (count = 0) then Ok None
      else i ← Block_index_str _temp block 0;
           scan_constants blocks' (Block_from _temp i) (counts ++ [count])
  end.

(** [for count in counts: score += count - 1; scores.append(score)] *)
Fixpoint add_scores (counts : list nat) (score : Z) (scores : list Z)
  : list Z :=
  match counts with
  | [] => scores
  | count :: counts' =>
      let score' := (score + (Z.of_nat count - 1))%Z in
      add_scores counts' score' (scores ++ [score'])
  end.

(** The loop over one [hypothesis_set]: a hypothesis returned at once, or
    the list of scores. *)
Fixpoint scan_group (signal : Block) (hs : list Section) (scores : list Z)
  : res (Section + list Z) :=
  match hs with
  | [] => Ok (inr scores)
  | h :: hs' =>
      match constants h with
      | [] => Ok (inl h)
      | _ =>
          r ← scan_constants (constants_str h) (Block_copy signal) [];
          match r with
          | None => scan_group signal hs' (scores ++ [(-1)%Z])
          | Some counts =>
              if bool_decide ((list_to_set counts : gset nat) = {[ 1 ]})
              then Ok (inl h)
              else scan_group signal hs' (add_scores counts 0 scores)
          end
      end
  end.

(** [min(l)] of a non-empty list *)
Definition list_min (l : list Z) : option Z :=
  match l with
  | [] => None
  | x :: l' => Some (foldl Z.min x l')
  end.

(** The choice that closes the scan of a group: [None] stands for
    [continue]. *)
Definition choose (hypothesis_set : list Section) (scores : list Z)
  : res (option Section) :=
  let _scores := filter (λ s, (0 ≤ s)%Z) scores in
  match list_min _scores with
  | None => Ok None
  | Some m =>
      ix ← of_option ValueError
             (list_index (λ a b, bool_decide (a = b)) m scores);
      h ← of_option IndexError (hypothesis_set !! ix);
      Ok (Some h)
  end.

(** [Spectrum.match_hypothesis]; [groups] is [self.formatter.hypotheses()]. *)
Fixpoint match_hypothesis (groups : list (list Section)) (signal : Block)
  : res Section :=
  match groups with
  | [] => Raise InputError
  | hypothesis_set :: groups' =>
      r ← scan_group signal hypothesis_set [];
      match r with
      | inl h => Ok h
      | inr scores =>
          c ← choose hypothesis_set scores;
          match c with
          | Some h => Ok h
          | None => match_hypothesis groups' signal
          end
      end
  end.

(** ** [spectrum.py]: [Spectrum.parse_signal] *)

(** The [while working_slice] loop for a code that has a cue. *)
Fixpoint scan_field (cue : list ascii) (block : pystr)
    (working_slice appendix : list Char) : res (list Char) :=
  match working_slice with
  | [] => Ok appendix
  | c :: working_slice' =>
      if bool_decide (str c ∈ cue)
      then scan_field cue block working_slice' (appendix ++ [c])
      else if Block_contains_str
                (Block_upto (Block_of_chars working_slice) (length block)) block
      then Ok appendix
      else Raise InputError
  end.

(** The field taken from a non-empty [working_slice]. *)
Definition extract_field (cue : option (list ascii)) (block : pystr)
    (working_slice : Block) : res Block :=
  match cue with
  | None => Ok working_slice
  | Some cs =>
      a ← scan_field cs block (chars working_slice) [];
      Ok (Block_of_chars a)
  end.

(** [signal[:true_block_i]] after [lstrip], for the constant [block]
    followed by the constants [later]. *)
Definition working_slice_of (signal : Block) (block : pystr)
    (later : list pystr) : res Block :=
  temp_block_i ← Block_index_str signal block 0;
  sliced_list ← match later with
                | next_block :: _ =>
                    e ← Block_index_str signal next_block
                          (temp_block_i + length block);
                    Ok (Block_upto signal e)
                | [] => Ok (Block_copy signal)
                end;
  let sliced_list := Block_reversed sliced_list in
  block_i ← Block_index_str sliced_list (reverse block) 0;
  let true_block_i := Block_len sliced_list - block_i - length block in
  Ok (Block_lstrip (Block_upto signal true_block_i)).

(** The body of the [for] loop over [hypothesis.constants_str].
    [appendix] is [None] while the local variable is unbound. *)
Fixpoint parse_signal_loop (h : Section) (blocks : list pystr)
    (signal : Block) (_signal_variables : list Block)
    (appendix : option Block) : res (list Block) :=
  match blocks with
  | [] => Ok _signal_variables
  | block :: later =>
      working_slice ← working_slice_of signal block later;
      '(vars, appendix') ←
        (if Block_nonempty working_slice
         then v ← of_option IndexError
                    (variables h !! length _signal_variables);
              cue ← of_option KeyError (CUES !! Block_text v);
              a ← extract_field cue block working_slice;
              Ok (_signal_variables ++ [a], Some a)
         else Ok (_signal_variables, appendix));
      a ← of_option UnboundLocalError appendix';
      parse_signal_loop h later
        (Block_from signal (Block_len a + length block)) vars appendix'
  end.

(** [Spectrum.parse_signal] *)
Definition parse_signal (signal : Block) (h : Section) : res Signal :=
  if negb (bool_decide (length (variables h) = 0))
     && bool_decide (constants h = [])
  then Signal_init [signal] h
  else vars ← parse_signal_loop h (constants_str h) signal [] None;
       Signal_init vars h.

(** ** [spectrum.py]: splitting the text into signals *)

(** The delimiter that [Spectrum.parse_signals] splits on: the last
    [Block] of the signal template is put before the user's delimiter when
    it is neither variable nor optional. *)
Definition effective_delimiter (next : nat) (f : Formatter) : res Block :=
  lastb ← py_nth (section (signals f)) (-1);
  if negb (is_variable lastb) && negb (optional lastb)
  then Ok (Block_radd_str next (Block_text lastb) (delimiter f))
  else Ok (delimiter f).

(** The body of the loop over the split signals on the simple path; the
    characters of the constant that is attached are new objects, numbered
    from [next]. *)
Definition fix_signal (next : nat) (f : Formatter) (signal : Block)
  : res (Block * nat) :=
  lastc ← Block_get signal (-1);
  signal1 ← (if str_in [str lastc] (Block_text (end_ f))
             then '(_, s) ← Block_pop signal; Ok s
             else Ok signal);
  if negb (bool_decide (constants (signals f) = []))
     && negb (bool_decide (section (signals f) = []))
  then
    c ← py_nth (constants (signals f)) (-1);
    s ← py_nth (section (signals f)) (-1);
    reattach ←
      (if negb (optional c) && Block_eq c s
       then cstr ← py_nth (constants_str (signals f)) (-1);
            lastc1 ← Block_get signal1 (-1);
            Ok (if bool_decide (cstr ≠ [str lastc1]) then cstr else [])
       else Ok []);
    Ok (Block_add_str next signal1 reattach, next + length reattach)
  else Ok (signal1, next).

Fixpoint fix_signals (next : nat) (f : Formatter) (_signals : list Block)
  : res (list Block) :=
  match _signals with
  | [] => Ok []
  | signal :: rest =>
      '(s, next') ← fix_signal next f signal;
      ss ← fix_signals next' f rest;
      Ok (s :: ss)
  end.

(** The left anchor: [cands] is [constants[i:]]. *)
Fixpoint l_loop (text l_anchor : Block) (cands : list Block) : Block :=
  if Block_contains text l_anchor then l_anchor
  else match cands with
       | [] => l_anchor
       | c :: cands' => l_loop text c cands'
       end.

(** The right anchor: [cands] is [constants[i], constants[i - 1], ...,
    constants[-len]]. *)
Fixpoint r_loop (text : Block) (cs : list Block) (l_anchor r_anchor : Block)
    (cands : list Block) : res Block :=
  if Block_contains text r_anchor then Ok r_anchor
  else match cands with
       | [] => Ok r_anchor
       | c :: cands' =>
           ir ← of_option ValueError (list_index Block_eq r_anchor cs);
           il ← of_option ValueError (list_index Block_eq l_anchor cs);
           if bool_decide (il ≤ ir) then r_loop text cs l_anchor c cands'
           else Ok r_anchor
       end.

(** One turn of the inner [while]: the slice that is appended to
    [_signals] and the new [self.text]. *)
Definition complex_step (l_anchor r_anchor delim text : Block)
  : res (Block * Block) :=
  _l_anch_index ← (if negb (Block_eq l_anchor delim)
                   then Block_index text l_anchor 0
                   else Block_index text r_anchor 0);
  _r_anch_index ← (if negb (Block_eq r_anchor delim)
                   then Block_index text r_anchor 0
                   else Block_index text l_anchor 0);
  d ← Block_index text delim 0;
  _l_index ← (if bool_decide (d < _l_anch_index)
              then a ← Block_index (Block_reversed text) l_anchor 0;
                   b ← Block_index (Block_reversed text) delim a;
                   Ok (Block_len text - b)
              else Ok 0);
  _r_index ← (if Block_contains
                   (Block_from text (_r_anch_index + Block_len r_anchor)) delim
              then Block_index text delim (_r_anch_index + Block_len r_anchor)
              else Ok (Block_len text));
  let piece := Block_slice text _l_index _r_index in
  Ok (piece, Block_from text (Block_len piece + Block_len delim)).

(** The inner [while] of [complex_parse_into_signals]: the text, the
    signals and the [finished] flag when it is left. *)
Fixpoint complex_inner (fuel : nat) (l_anchor r_anchor delim text : Block)
    (_signals : list Block) : res (Block * list Block * bool) :=
  match fuel with
  | 0 => OutOfFuel
  | S fuel' =>
      if Block_contains text l_anchor && Block_contains text r_anchor
         && Block_contains text delim
      then
        '(piece, text') ← complex_step l_anchor r_anchor delim text;
        let _signals' := _signals ++ [piece] in
        if Block_eq text' (Block_copy text) then Ok (text', _signals', true)
        else complex_inner fuel' l_anchor r_anchor delim text' _signals'
      else Ok (text, _signals, false)
  end.

(** The outer [while not finished and self.text]. *)
Fixpoint complex_outer (fuel : nat) (f : Formatter) (delim text : Block)
    (_signals : list Block) : res (list Block) :=
  match fuel with
  | 0 => OutOfFuel
  | S fuel' =>
      if Block_nonempty text then
        let cs := constants (signals f) in
        l0 ← py_nth cs 0;
        r0 ← py_nth cs (-1);
        let l_anchor := l_loop text l0 (drop 1 cs) in
        r_anchor ← r_loop text cs l_anchor r0
                     (reverse (take (length cs - 1) cs));
        if (negb (Block_contains text l_anchor)
            && negb (Block_contains text r_anchor))
           || (Block_eq l_anchor delim && Block_eq r_anchor delim)
           || negb (str_in (Block_text delim) (Block_text text))
        then parts ← Block_split text delim; Ok (_signals ++ parts)
        else
          st ← complex_inner fuel l_anchor r_anchor delim text _signals;
          let '(text', _signals', finished) := st in
          if finished : bool then Ok _signals'
          else complex_outer fuel' f delim text' _signals'
      else Ok _signals
  end.

(** [Spectrum.complex_parse_into_signals] *)
Definition complex_parse_into_signals (fuel : nat) (f : Formatter)
    (delim text : Block) : res (list Block) :=
  complex_outer fuel f delim text [].

(** The first half of [Spectrum.parse_signals]: the list [_signals]. *)
Definition split_into_signals (fuel next : nat) (f : Formatter) (text : Block)
  : res (list Block) :=
  delim ← effective_delimiter next f;
  g ← py_nth (hypotheses f) 0;
  h ← py_nth g 0;
  if negb (str_in (Block_text delim) (concat (section_str h)))
  then _signals ← Block_split text delim;
       fix_signals (next + Block_len delim) f _signals
  else complex_parse_into_signals fuel f delim text.

(** [Spectrum.parse_signals]: every signal is matched and parsed. *)
Definition parse_signals (fuel next : nat) (f : Formatter) (text : Block)
  : res (list Signal) :=
  _signals ← split_into_signals fuel next f text;
  mapM (λ signal, h ← match_hypothesis (hypotheses f) signal;
                  parse_signal signal h) _signals.


(** ** [spectrum.py]: [Spectrum.parse_head] *)

(** The loop over [self.formatter.head.constants]: the text that is left
    and the list [self._spectrum_data]. *)
Fixpoint parse_head_loop (cs : list Block) (text : Block)
    (_spectrum_data : list Block) : res (Block * list Block) :=
  match cs with
  | [] => Ok (text, _spectrum_data)
  | block :: cs' =>
      if negb (Block_contains text block) then Raise InputError
      else
        _i ← Block_index text block 0;
        let _variable := Block_upto text _i in
        let data := if Block_nonempty _variable
                    then _spectrum_data ++ [Block_copy _variable]
                    else _spectrum_data in
        parse_head_loop cs'
          (Block_from text (_i + length (Block_text block))) data
  end.

(** [Spectrum.parse_head] *)
Definition parse_head (f : Formatter) (text : Block)
    (_spectrum_data : list Block) : res (Block * list Block) :=
  parse_head_loop (constants (head f)) text _spectrum_data.

(** ** [writer.py]: [print_runs] *)

(** A run of the paragraph that is written: its text, and the [bits] of
    the character that [style_run] styled it from. *)
Record Run : Type := mkRun {
  run_text : pystr;
  run_bits : list (option bool)
}.

(** The loop of [print_runs].  [prev] is [block[i - 1]], [None] when
    [i = 0]; [run] is the local variable of that name, the run that was
    added last, and [paragraph] holds the runs before it. *)
Fixpoint print_runs_loop (cs : list Char) (prev : option Char)
    (paragraph : list Run) (run : option Run) : list Run * option Run :=
  match cs with
  | [] => (paragraph, run)
  | char :: cs' =>
      let fresh := (paragraph ++ option_list run,
                    Some (mkRun [str char] (bits char))) in
      let '(paragraph', run') :=
        match prev with
        | None => fresh
        | Some p =>
            if bool_decide (bits char ≠ bits p) then fresh
            else (paragraph,
                  (λ r, mkRun (run_text r ++ [str char]) (run_bits r))
                    <$> run)
        end in
      print_runs_loop cs' (Some char) paragraph' run'
  end.

(** [print_runs(paragraph, block)]: the runs of the paragraph after the
    call. *)
Definition print_runs (paragraph : list Run) (block : Block) : list Run :=
  let '(paragraph', run) := print_runs_loop (chars block) None paragraph None in
  paragraph' ++ option_list run.

(** * Vocabulary of the statements *)

(** ** Views used to state results on concrete inputs *)

Definition show (b : Block) : string := string_of_list_ascii (Block_text b).

(** The text and the [variable] flag of every [Block] of a section. *)
Definition flags_of (s : Section) : list (string * option bool) :=
  (λ b, (show b, variable b)) <$> section s.

Definition scores_of (r : Section + list Z) : option (list Z) :=
  match r with inl _ => None | inr scores => Some scores end.

(** The sum over the constants of (occurrences - 1), as the matcher counts
    them on the progressively clipped signal; [None] when a constant is
    absent. *)
Definition total_penalty (signal : Block) (h : Section) : res (option Z) :=
  r ← scan_constants (constants_str h) (Block_copy signal) [];
  match r with
  | Some counts =>
      Ok (Some (foldr Z.add 0%Z ((λ c : nat, Z.of_nat c - 1)%Z <$> counts)))
  | None => Ok None
  end.

(** The compiled template of a paragraph whose characters are numbered
    from 0, or an empty formatter when it does not compile. *)
Definition formatter_of (template : string) : Formatter :=
  match Formatter_init 8 100 (paragraph 0 template) with
  | Ok f => f
  | _ => mkFormatter (Section_init [] None) (Section_init [] None) []
           Block_empty Block_empty
  end.

Definition hypotheses_of (template : string) : list (list Section) :=
  hypotheses (formatter_of template).

(** ** Combinations *)

(** The binomial coefficient, by Pascal's rule. *)
Fixpoint binom (n k : nat) : nat :=
  match k, n with
  | 0, _ => 1
  | S _, 0 => 0
  | S k', S n' => binom n' k' + binom n' k
  end.

(** [lo <= l_0 < l_1 < ...] *)
Fixpoint increasing (lo : Z) (l : list Z) : Prop :=
  match l with
  | [] => True
  | c :: l' => (lo ≤ c)%Z ∧ increasing (c + 1) l'
  end.

(** A set of [m] indices below [k], as a strictly increasing list. *)
Definition index_set (k m : nat) (l : list Z) : Prop :=
  increasing 0 l ∧ Forall (λ c, (c < Z.of_nat k)%Z) l ∧ length l = m.

(** The position of an index set in the colexicographic order, in which
    two sets compare as their largest differing elements do: the sum of
    [binom l_j (j + 1)] over the positions [j]. *)
Fixpoint rank_from (j : nat) (l : list Z) : nat :=
  match l with
  | [] => 0
  | c :: l' => binom (Z.to_nat c) (S j) + rank_from (S j) l'
  end.
Definition colex_rank (l : list Z) : nat := rank_from 0 l.

(** The index sets [l] and [l'] agree above some position, and there [l]
    holds the larger index: of the two, [l] leaves out the later piece. *)
Definition drops_later (l l' : list Z) : Prop :=
  ∃ x x' c c' rest,
    l = x ++ c :: rest ∧ l' = x' ++ c' :: rest
    ∧ length x = length x' ∧ (c' < c)%Z.

(** Every index set of the list drops later pieces than the next one. *)
Definition steps_down (ls : list (list Z)) : Prop :=
  ∀ i l l', ls !! i = Some l → ls !! S i = Some l' → drops_later l l'.

(** [a, a + 1, ..., a + n - 1] *)
Definition zrange (a : Z) (n : nat) : list Z :=
  (λ j : nat, (a + Z.of_nat j)%Z) <$> seq 0 n.
Global Arguments zrange : simpl never.

(** ** Object identity of the template's blocks *)

(** No non-empty [Block] of the list equals an earlier one: the blocks
    that [Formatter._parse] builds are made of different [Char] objects. *)
Fixpoint distinct_blocks (cs : list Block) : bool :=
  match cs with
  | [] => true
  | b :: cs' =>
      forallb (λ b', negb (Block_eq b b') || negb (Block_nonempty b')) cs'
      && distinct_blocks cs'
  end.

(** The identities of the characters of a list of blocks, in order. *)
Definition oids_of (bs : list Block) : list nat :=
  concat ((λ b, oid <$> chars b) <$> bs).

(** The identities [l] are pairwise different and all below [next], the
    first unused one. *)
Definition fresh_below (next : nat) (l : list nat) : Prop :=
  NoDup l ∧ Forall (λ o, o < next) l.

(** The number of indices among [i, i + 1, ..., i + n - 1] that are left
    out. *)
Fixpoint hits (leftout : list Z) (i n : nat) : nat :=
  match n with
  | 0 => 0
  | S n' => (if bool_decide (Z.of_nat i ∈ leftout) then 1 else 0)
            + hits leftout (S i) n'
  end.

(** ** Vocabulary of the proofs *)

(** The number of elements of [l] that equal [x]. *)
Definition occurrences {A} (eqb : A → A → bool) (x : A) (l : list A) : nat :=
  length (filter (λ y, eqb y x = true) l).

(** [Block.__eq__] compares the identities of the characters and the two
    flags. *)
Definition Block_key (b : Block) : list nat * option bool * bool :=
  (oid <$> chars b, variable b, optional b).

(** The combinations [combos] come from the index sets [ls], each of [m]
    indices that are left out of [a_list]. *)
Definition enumerates {A} (eqb : A → A → bool) (a_list : list A) (m : nat)
    (ls : list (list Z)) (combos : list (list A)) : Prop :=
  Forall2 (λ l c, index_set (length a_list) m l
                  ∧ knock_out eqb l 0 a_list a_list = Ok c
                  ∧ length c + m = length a_list) ls combos.

(** The group that [build_hypotheses] makes of the combinations of [n]
    optional pieces. *)
Definition group_of (_pieces : list piece) (n : nat) (hs : list Section)
  : Prop :=
  let optional_pieces := odd_entries _pieces in
  let k := length optional_pieces in
  ∃ ls combos,
    length hs = binom k n
    ∧ Forall2 (λ c h, length c = n ∧ build_hypothesis _pieces c = Ok h)
        combos hs
    ∧ Forall2 (λ l c, index_set k (k - n) l
                      ∧ knock_out piece_eq l 0 optional_pieces optional_pieces
                        = Ok c) ls combos
    ∧ colex_rank <$> ls = reverse (seq 0 (binom k n))
    ∧ steps_down ls
    ∧ ls !! 0 = Some (zrange (Z.of_nat n) (k - n)).

(** The number of the elements equal to [z] that [knock_out] removes:
    those at an index that is left out. *)
Fixpoint dropped {A} (eqb : A → A → bool) (z : A) (leftout : list Z)
    (i : nat) (items : list A) : nat :=
  match items with
  | [] => 0
  | item :: items' =>
      (if bool_decide (Z.of_nat i ∈ leftout) && eqb item z then 1 else 0)
      + dropped eqb z leftout (S i) items'
  end.

(** [z] stands at the index [j] of [l] and nowhere else. *)
Definition only_at {A} (eqb : A → A → bool) (z : A) (j : nat) (l : list A)
  : Prop :=
  l !! j = Some z ∧ ∀ j' z', l !! j' = Some z' → eqb z' z = true → j' = j.

(** ** The pieces of a hypothesis *)

(** The pieces that stay when the optional pieces whose numbers are in
    [leftout] are dropped.  The pieces alternate, an obligatory piece
    first; [is_optional] tells what the first piece of [ps] is and [j] is
    the number of the next optional piece. *)
Fixpoint kept_pieces (leftout : list Z) (is_optional : bool) (j : nat)
    (ps : list piece) : list piece :=
  match ps with
  | [] => []
  | p :: ps' =>
      if is_optional
      then (if bool_decide (Z.of_nat j ∈ leftout) then [] else [p])
           ++ kept_pieces leftout false (S j) ps'
      else p :: kept_pieces leftout true j ps'
  end.

(** The hypothesis [h] is made of the pieces that stay when the optional
    pieces in [leftout] are dropped: it is the splice of their blocks, it
    holds their characters in their order, and one piece is missing for
    every index of [leftout]. *)
Definition holds_pieces (_pieces : list piece) (leftout : list Z)
    (h : Section) : Prop :=
  let kept := kept_pieces leftout false 0 _pieces in
  splice_blocks (Section_init (concat kept) (Some (contains_of (concat kept))))
  = Ok h
  ∧ concat (chars <$> section h) = concat (chars <$> concat kept)
  ∧ length kept + length leftout = length _pieces.

(** The group of the hypotheses with [n] of the [k] optional pieces: the
    sets of the pieces that are left out, one for every hypothesis, start
    with the last [k - n] pieces and go down the colexicographic order. *)
Definition group_holds (_pieces : list piece) (n : nat) (hs : list Section)
  : Prop :=
  let k := length (odd_entries _pieces) in
  ∃ ls,
    length hs = binom k n
    ∧ Forall2 (λ l h, index_set k (k - n) l ∧ holds_pieces _pieces l h) ls hs
    ∧ colex_rank <$> ls = reverse (seq 0 (binom k n))
    ∧ steps_down ls
    ∧ ls !! 0 = Some (zrange (Z.of_nat n) (k - n)).

(** ** The matcher and the splitter *)

(** A group is rejected when its scan returns no hypothesis and leaves no
    score that is not negative. *)
Definition rejected (signal : Block) (g : list Section) : Prop :=
  ∃ scores, scan_group signal g [] = Ok (inr scores)
            ∧ choose g scores = Ok None.

(** The condition of the inner loop of the complex split. *)
Definition anchors_present (l r d text : Block) : bool :=
  Block_contains text l && Block_contains text r && Block_contains text d.

(** ** Templates used as examples *)

(** The signal template "x%c*a%i**b%m**c%j*" has three optional pieces. *)
Definition three_options : Section :=
  Eval vm_compute in signals (formatter_of "H /x%c*a%i**b%m**c%j*/; /.").

(** The groups of the signal template "%c* (%i)*": the full hypothesis,
    then the hypothesis that is the variable alone. *)
Definition shift_groups : list (list Section) :=
  Eval vm_compute in hypotheses_of "H /%c* (%i)*/; /.".

(** The hypotheses of the signal template "%i)". *)
Definition integral_groups : list (list Section) :=
  Eval vm_compute in hypotheses_of "H /%i)/, /.".

(** The hypotheses of the signal template "%i": the variable alone. *)
Definition lone_integral_groups : list (list Section) :=
  Eval vm_compute in hypotheses_of "H /%i/, /.".

(** The template "%c, %i" with the delimiter ", ". *)
Definition pairs_formatter : Formatter :=
  Eval vm_compute in formatter_of "H /%c, %i/, /.".

(** The template "a%c" with an empty delimiter. *)
Definition tail_formatter : Formatter :=
  Eval vm_compute in formatter_of "H /a%c//".

(** ** Tactics *)

(** Steps of the monad on results that are already known. *)
Ltac res_simpl :=
  cbn [mbind res_mbind res_bind mret res_ret fmap res_fmap of_option].

(** * Vocabulary of the further properties *)

(** Steps of the monad on results in a hypothesis. *)
Ltac res_simpl_in H :=
  cbn [mbind res_mbind res_bind mret res_ret fmap res_fmap of_option] in H.

(** [sep.join(l)] *)
Definition str_join (sep : pystr) (l : list pystr) : pystr :=
  match l with
  | [] => []
  | frag :: l' => frag ++ concat ((sep ++.) <$> l')
  end.

(** The text that a region of the template compiles to: the toggles "*"
    go, and the letter of every code is lowered. *)
Fixpoint compiled_text (s : pystr) : pystr :=
  match s with
  | [] => []
  | c :: s' =>
      if bool_decide (c = "*"%char) then compiled_text s'
      else if bool_decide (c = "%"%char)
      then match s' with
           | c1 :: s'' => "%"%char :: lower c1 :: compiled_text s''
           | [] => ["%"%char]
           end
      else c :: compiled_text s'
  end.

(** A compiled [Block] is a code that [CUES] knows, or a constant without
    the characters "%" and "*". *)
Definition compiled_block (b : Block) : Prop :=
  if is_variable b
  then ((∃ c, Block_text b = ["%"%char; c]) ∧ is_Some (CUES !! Block_text b))
  else (("%"%char ∉ Block_text b) ∧ ("*"%char ∉ Block_text b)).

(** [a] stands immediately before [b] in the list. *)
Definition neighbours (bs : list Block) (a b : Block) : Prop :=
  ∃ pre post, bs = pre ++ a :: b :: post.

(** The number of toggles, the empty blocks that "*" compiles to. *)
Definition toggles (bs : list Block) : nat :=
  length (filter (λ b, Block_nonempty b = false) bs).

(** The fullest hypothesis of the template "%c* (%i)*". *)
Definition shift_full : Section :=
  Eval vm_compute in
    match shift_groups with
    | [h] :: _ => h
    | _ => Section_init [] None
    end.

(** The first constant of the hypothesis does not occur in the signal. *)
Definition first_constant_absent (signal : Block) (h : Section) : Prop :=
  constants h ≠ []
  ∧ ∃ c rest, constants_str h = c :: rest ∧ Block_count_str signal c = 0.

(** The codes that [Signal.__init__] looks up. *)
Definition signal_codes : list pystr :=
  [lit "%c"; lit "%i"; lit "%m"; lit "%j"; lit "%a"].

(** The five fields of a [Signal]. *)
Definition fields (s : Signal) : list (option Block) :=
  [chemshift s; integral s; multiplicity s; j_values s; assignment s].

(** The hypothesis of the template "(%i)". *)
Definition bracket_hypothesis : Section :=
  Eval vm_compute in
    match hypotheses_of "H /(%i)/, /." with
    | [h] :: _ => h
    | _ => Section_init [] None
    end.

(** The template "%n NMR (%s): " of a head. *)
Definition head_formatter : Formatter :=
  Eval vm_compute in formatter_of "%n NMR (%s): /%c/, /.".

(** The characters of a run, each with the styling of the run. *)
Definition styled (r : Run) : list (ascii * list (option bool)) :=
  (λ ch, (ch, run_bits r)) <$> run_text r.

(** The template "%c (%i) %a" with the delimiter "; ". *)
Definition assigned_formatter : Formatter :=
  Eval vm_compute in formatter_of "H /%c (%i) %a/; /.".

(** * Properties *)

(** ** The result monad *)

Lemma bind_Ok {A B} (m : res A) (f : A → res B) a :
  m = Ok a → m ≫= f = f a.
Proof. by intros ->. Qed.

Lemma bind_Raise {A B} (m : res A) (f : A → res B) e :
  m = Raise e → m ≫= f = Raise e.
Proof. by intros ->. Qed.

Lemma bind_inv_Ok {A B} (m : res A) (f : A → res B) b :
  m ≫= f = Ok b → ∃ a, m = Ok a ∧ f a = Ok b.
Proof. destruct m; [eauto | done | done]. Qed.

(** ** Strings *)

Lemma starts_with_spec sub s :
  starts_with sub s = true ↔ ∃ k, s = sub ++ k.
Proof.
  revert s; induction sub as [|a sub IH]; intros s; simpl.
  - split; [eauto | done].
  - destruct s as [|b s].
    + split; [done | by intros [k ?]].
    + rewrite andb_true_iff, bool_decide_eq_true, IH. split.
      * intros [-> [k ->]]. by exists k.
      * intros [k [= -> ->]]. eauto.
Qed.

Lemma starts_with_length sub s :
  starts_with sub s = true → length sub ≤ length s.
Proof.
  rewrite starts_with_spec. intros [k ->]. rewrite length_app. lia.
Qed.

Lemma starts_with_refl s : starts_with s s = true.
Proof. apply starts_with_spec. exists []. by rewrite app_nil_r. Qed.

Lemma count_from_short sub skip s :
  length s < length sub → count_from sub skip s = 0.
Proof.
  revert skip; induction s as [|c s IH]; intros skip Hlen; [done|].
  simpl in *. destruct skip as [|k].
  - destruct (starts_with sub (c :: s)) eqn:E.
    + apply starts_with_length in E. simpl in E. lia.
    + apply IH. lia.
  - apply IH. lia.
Qed.

(** A string no longer than [sub] contains [sub] only when it is [sub]. *)
Lemma str_count_short s sub :
  length s ≤ length sub → (0 < str_count s sub ↔ s = sub).
Proof.
  intros Hlen. destruct sub as [|a sub].
  - destruct s; simpl in *; [|lia]. split; [done | lia].
  - unfold str_count. destruct s as [|c s].
    + simpl. split; [lia | done].
    + cbn [count_from].
      destruct (starts_with (a :: sub) (c :: s)) eqn:E.
      * split; [|lia]. intros _.
        apply starts_with_spec in E as [k E].
        assert (k = []) as ->.
        { apply (f_equal length) in E. rewrite length_app in E.
          destruct k; [done | simpl in *; lia]. }
        by rewrite app_nil_r in E.
      * rewrite count_from_short by (simpl in *; lia).
        split; [lia|]. intros [= -> ->]. by rewrite starts_with_refl in E.
Qed.

Lemma find_at_is_Some sub t pos :
  is_Some (find_at sub t pos) ↔ ∃ u v, t = u ++ v ∧ starts_with sub v = true.
Proof.
  revert pos; induction t as [|c t IH]; intros pos; simpl.
  - destruct (starts_with sub []) eqn:E.
    + split; [|eauto]. intros _. by exists [], [].
    + split; [by intros [? ?]|]. intros (u & v & Ht & Hv).
      symmetry in Ht. apply app_eq_nil in Ht as [-> ->]. congruence.
  - destruct (starts_with sub (c :: t)) eqn:E.
    + split; [|eauto]. intros _. by exists [], (c :: t).
    + rewrite IH. split.
      * intros (u & v & -> & Hv). by exists (c :: u), v.
      * intros (u & v & Ht & Hv). destruct u as [|c' u]; simpl in Ht.
        { subst v. congruence. }
        injection Ht as -> ->. eauto.
Qed.

Lemma count_from_pos sub s :
  sub ≠ [] →
  0 < count_from sub 0 s ↔ ∃ u v, s = u ++ v ∧ starts_with sub v = true.
Proof.
  intros Hsub. induction s as [|c s IH]; simpl.
  - split; [lia|]. intros (u & v & Ht & Hv).
    symmetry in Ht. apply app_eq_nil in Ht as [-> ->].
    destruct sub; [done | simpl in Hv; done].
  - destruct (starts_with sub (c :: s)) eqn:E.
    + split; [|lia]. intros _. by exists [], (c :: s).
    + rewrite IH. split.
      * intros (u & v & -> & Hv). by exists (c :: u), v.
      * intros (u & v & Ht & Hv). destruct u as [|c' u]; simpl in Ht.
        { subst v. congruence. }
        injection Ht as -> ->. eauto.
Qed.

(** [sub in s] on strings and [Block.__contains__] agree. *)
Lemma str_in_count sub s : str_in sub s = bool_decide (0 < str_count s sub).
Proof.
  unfold str_in, str_find.
  rewrite firstn_all. rewrite decide_True by lia. rewrite drop_0.
  apply bool_decide_ext. rewrite find_at_is_Some.
  destruct sub as [|a sub].
  - simpl. split; [lia|]. intros _. by exists [], s.
  - unfold str_count. by rewrite count_from_pos.
Qed.

Lemma str_count_empty s : 0 < str_count s [].
Proof. simpl. lia. Qed.

(** ** Lists with a Python equality *)

Section list_eqb.
Context {A K : Type} (eqb : A → A → bool) (key : A → K).
Context (Hkey : ∀ x y, eqb x y = true ↔ key x = key y).

Lemma list_eqb_key (l1 l2 : list A) :
  list_eqb eqb l1 l2 = true ↔ key <$> l1 = key <$> l2.
Proof.
  revert l2; induction l1 as [|x l1 IH]; intros [|y l2]; simpl; try done.
  rewrite andb_true_iff, Hkey, IH. split.
  - intros [Hx Hl]. by f_equal.
  - intros [= Hx Hl]. done.
Qed.

Lemma list_index_is_Some x l :
  (∃ y, y ∈ l ∧ eqb y x = true) → is_Some (list_index eqb x l).
Proof.
  induction l as [|z l IH]; intros (y & Hy & Hxy).
  - by apply elem_of_nil in Hy.
  - simpl. destruct (eqb z x) eqn:E; [eauto|].
    apply elem_of_cons in Hy as [->|Hy]; [congruence|].
    destruct IH as [i ->]; eauto.
Qed.

Lemma list_remove_occurrences x l :
  0 < occurrences eqb x l →
  ∃ l', list_remove eqb x l = Some l'
        ∧ length l = S (length l')
        ∧ ∀ z, occurrences eqb z l'
               = occurrences eqb z l - (if eqb x z then 1 else 0).
Proof.
  unfold occurrences. induction l as [|y l IH]; simpl; [lia|].
  intros Hpos. destruct (eqb y x) eqn:E.
  - exists l. split_and!; [done..|]. intros z.
    rewrite filter_cons.
    assert (eqb y z = eqb x z) as ->.
    { apply Hkey in E. apply eq_true_iff_eq. rewrite !Hkey. by rewrite E. }
    destruct (eqb x z); simpl; lia.
  - rewrite filter_cons, decide_False in Hpos by congruence.
    destruct (IH Hpos) as (l' & -> & Hlen & Hocc).
    exists (y :: l'). split_and!; [done | simpl; lia |]. intros z.
    rewrite !filter_cons. destruct (decide (eqb y z = true)) as [Hz|Hz].
    + simpl. rewrite Hocc.
      assert (eqb x z = false) as ->; [|lia].
      apply not_true_is_false. rewrite Hkey. apply Hkey in Hz.
      intros Hx. rewrite <- Hx in Hz. apply Hkey in Hz. congruence.
    + apply Hocc.
Qed.
End list_eqb.

(** ** Equality of blocks *)

Lemma Char_is_key (a b : Char) : Char_is a b = true ↔ oid a = oid b.
Proof. unfold Char_is. apply bool_decide_eq_true. Qed.

Lemma Block_eq_key (a b : Block) :
  Block_eq a b = true ↔ Block_key a = Block_key b.
Proof.
  unfold Block_eq, Block_key.
  rewrite !andb_true_iff, !bool_decide_eq_true.
  rewrite (list_eqb_key Char_is oid Char_is_key). split.
  - intros [[-> ->] ->]. done.
  - intros [= -> -> ->]. done.
Qed.

Lemma Block_eq_refl (a : Block) : Block_eq a a = true.
Proof. by apply Block_eq_key. Qed.

Lemma piece_eq_key (p q : piece) :
  piece_eq p q = true ↔ Block_key <$> p = Block_key <$> q.
Proof. apply (list_eqb_key Block_eq Block_key Block_eq_key). Qed.

Lemma Block_contains_empty (text b : Block) :
  Block_nonempty b = false → Block_contains text b = true.
Proof.
  unfold Block_nonempty, Block_contains, Block_text.
  destruct (chars b); [|done]. intros _.
  apply bool_decide_eq_true. apply str_count_empty.
Qed.


(** ** Binomial coefficients and the colexicographic rank *)

Lemma binom_0_r n : binom n 0 = 1.
Proof. by destruct n. Qed.

Lemma binom_pascal n k : binom (S n) (S k) = binom n k + binom n (S k).
Proof. done. Qed.

Lemma binom_small n k : n < k → binom n k = 0.
Proof.
  revert k. induction n as [|n IH]; intros [|k] H; try lia; [done|].
  rewrite binom_pascal, !IH by lia. done.
Qed.

Lemma binom_diag n : binom n n = 1.
Proof.
  induction n as [|n IH]; [done|].
  rewrite binom_pascal, IH, binom_small by lia. done.
Qed.

Lemma binom_sym_add n m : binom (n + m) n = binom (n + m) m.
Proof.
  remember (n + m) as s eqn:Hs. revert n m Hs.
  induction s as [|s IH]; intros n m Hs.
  - assert (n = 0 ∧ m = 0) as [-> ->] by lia. done.
  - destruct n as [|n]. { simpl in Hs. subst m. by rewrite binom_diag. }
    destruct m as [|m].
    { rewrite binom_0_r. replace (S s) with (S n) by lia. apply binom_diag. }
    rewrite !binom_pascal.
    rewrite (IH n (S m)) by lia.
    replace (binom s (S n)) with (binom s m); [lia|].
    symmetry. apply (IH (S n) m). lia.
Qed.

Lemma binom_sym k n : n ≤ k → binom k (k - n) = binom k n.
Proof.
  intros H. replace k with ((k - n) + n) at 1 3 by lia.
  apply binom_sym_add.
Qed.

Lemma rank_from_app j l1 l2 :
  rank_from j (l1 ++ l2) = rank_from j l1 + rank_from (j + length l1) l2.
Proof.
  revert j. induction l1 as [|c l1 IH]; intros j; simpl.
  - f_equal. lia.
  - rewrite IH. replace (S j + length l1) with (j + S (length l1)) by lia. lia.
Qed.

Lemma zrange_length a n : length (zrange a n) = n.
Proof. unfold zrange. by rewrite length_fmap, length_seq. Qed.

Lemma zrange_S a n : zrange a (S n) = zrange a n ++ [(a + Z.of_nat n)%Z].
Proof. unfold zrange. by rewrite seq_S, fmap_app. Qed.

Lemma zrange_cons a n : zrange a (S n) = a :: zrange (a + 1) n.
Proof.
  unfold zrange. simpl. rewrite Z.add_0_r. f_equal.
  rewrite <- fmap_S_seq, <- list_fmap_compose.
  apply list_fmap_ext. intros _ j _. simpl. lia.
Qed.

Lemma zrange_of_seq n m : Z.of_nat <$> seq n m = zrange (Z.of_nat n) m.
Proof.
  unfold zrange. revert n. induction m as [|m IH]; intros n; [done|].
  simpl. rewrite Z.add_0_r. f_equal. rewrite IH.
  rewrite <- fmap_S_seq, <- list_fmap_compose.
  apply list_fmap_ext. intros _ j _. simpl. lia.
Qed.

(** The run [d, d + 1, ..., d + n - 1] is the last of the sets of [n]
    indices below [d + n]. *)
Lemma rank_zrange d n :
  colex_rank (zrange (Z.of_nat d) n) + 1 = binom (d + n) n.
Proof.
  unfold colex_rank. induction n as [|n IH].
  - by rewrite binom_0_r.
  - rewrite zrange_S, rank_from_app, zrange_length. simpl.
    replace (Z.to_nat (Z.of_nat d + Z.of_nat n)) with (d + n) by lia.
    replace (d + S n) with (S (d + n)) by lia.
    rewrite binom_pascal. lia.
Qed.

Lemma rank_zrange_0 n : colex_rank (zrange 0 n) = 0.
Proof.
  pose proof (rank_zrange 0 n) as H.
  change (Z.of_nat 0) with 0%Z in H. change (0 + n) with n in H.
  rewrite binom_diag in H. lia.
Qed.

(** The step of the enumeration lowers the rank by one. *)
Lemma rank_step i c rest :
  (Z.of_nat i < c)%Z →
  colex_rank (zrange 0 i ++ c :: rest)
  = S (colex_rank (zrange (c - 1 - Z.of_nat i) (S i) ++ rest)).
Proof.
  intros Hc. unfold colex_rank.
  rewrite !rank_from_app, !zrange_length. cbn [rank_from Nat.add].
  fold (colex_rank (zrange 0 i)). rewrite rank_zrange_0.
  pose proof (rank_zrange (Z.to_nat (c - 1 - Z.of_nat i)) (S i)) as H.
  unfold colex_rank in H.
  replace (Z.of_nat (Z.to_nat (c - 1 - Z.of_nat i)))
    with (c - 1 - Z.of_nat i)%Z in H by lia.
  replace (Z.to_nat (c - 1 - Z.of_nat i) + S i) with (Z.to_nat c) in H by lia.
  lia.
Qed.

Lemma zrange_0 a : zrange a 0 = [].
Proof. done. Qed.

Lemma elem_of_zrange a n x :
  x ∈ zrange a n ↔ (a ≤ x < a + Z.of_nat n)%Z.
Proof.
  unfold zrange. rewrite list_elem_of_fmap. split.
  - intros (j & -> & Hj). apply elem_of_seq in Hj. lia.
  - intros Hx. exists (Z.to_nat (x - a)). split; [lia|].
    apply elem_of_seq. lia.
Qed.

(** ** Index sets *)

Local Opaque zrange.

Lemma increasing_weaken a a' l : (a' ≤ a)%Z → increasing a l → increasing a' l.
Proof. destruct l; simpl; [done|]. intros ? [? ?]. split; [lia | done]. Qed.

Lemma increasing_lower_bound a l x : increasing a l → x ∈ l → (a ≤ x)%Z.
Proof.
  revert a. induction l as [|c l IH]; intros a Hl Hx.
  - by apply elem_of_nil in Hx.
  - destruct Hl as [Hc Hl]. apply elem_of_cons in Hx as [->|Hx]; [done|].
    specialize (IH _ Hl Hx). lia.
Qed.

Lemma increasing_zrange_app a b n rest :
  (a ≤ b)%Z → increasing (b + Z.of_nat n) rest →
  increasing a (zrange b n ++ rest).
Proof.
  revert a b. induction n as [|n IH]; intros a b Hab Hrest.
  - rewrite zrange_0. simpl. eapply increasing_weaken; [|done]. lia.
  - rewrite zrange_cons. simpl. split; [done|].
    apply IH; [lia|].
    by replace (b + 1 + Z.of_nat n)%Z with (b + Z.of_nat (S n))%Z by lia.
Qed.

(** An increasing list is a run from its lower bound, or a run followed
    by a gap. *)
Lemma increasing_decompose a l :
  increasing a l →
  (∃ i c rest, l = zrange a i ++ c :: rest ∧ (a + Z.of_nat i < c)%Z
               ∧ increasing (c + 1) rest)
  ∨ l = zrange a (length l).
Proof.
  revert a. induction l as [|c l IH]; intros a; simpl;
    [right; by rewrite zrange_0|].
  intros [Hc Hl]. destruct (decide (a = c)) as [->|Hne].
  - destruct (IH _ Hl) as [(i & c' & rest & -> & Hi & Hrest)|Heq].
    + left. exists (S i), c', rest. rewrite zrange_cons. split_and!; [done|lia|done].
    + right. rewrite zrange_cons. by rewrite <- Heq.
  - left. exists 0, c, l. rewrite zrange_0. split_and!; [done|lia|done].
Qed.

(** ** One turn of [find_combinations] *)

Lemma reset_below_run i pre v rest :
  length pre = i →
  reset_below i (pre ++ v :: rest)
  = Ok (zrange (v - Z.of_nat i) i ++ v :: rest).
Proof.
  revert pre v rest. induction i as [|i IH]; intros pre v rest Hlen.
  - destruct pre; [|done]. by rewrite zrange_0.
  - destruct pre as [|x pre' _] using rev_ind; [done|].
    rewrite length_app in Hlen. simpl in Hlen.
    assert (length pre' = i) as Hpre by lia.
    cbn [reset_below].
    rewrite lookup_app_r by (rewrite length_app; simpl; lia).
    rewrite length_app. simpl.
    replace (S i - (length pre' + 1)) with 0 by lia. simpl. res_simpl.
    unfold py_set. rewrite decide_True by (rewrite !length_app; simpl; lia).
    res_simpl. rewrite <- app_assoc. simpl.
    rewrite insert_app_r_alt by lia.
    replace (i - length pre') with 0 by lia. simpl.
    rewrite (IH pre' (v - 1)%Z (v :: rest) Hpre).
    rewrite zrange_S, <- app_assoc. simpl.
    do 2 f_equal; [f_equal; lia|]. f_equal. lia.
Qed.

Lemma find_gap_run L j n c rest :
  (∀ x, x ∈ zrange 0 (j + n) → x ∈ L) →
  (c - 1)%Z ∉ L → 0 < j + n →
  find_gap L j (zrange (Z.of_nat j) n ++ c :: rest) = Some (j + n).
Proof.
  intros HL Hc. revert j HL. induction n as [|n IH]; intros j HL Hpos.
  - rewrite zrange_0. simpl. rewrite bool_decide_eq_true_2 by done.
    rewrite bool_decide_eq_false_2 by lia. simpl. f_equal. lia.
  - rewrite zrange_cons. cbn [app find_gap].
    replace (Z.of_nat j + 1)%Z with (Z.of_nat (S j)) by lia.
    replace (j + S n) with (S j + n) in * by lia.
    destruct (decide (j = 0)) as [->|Hj].
    + rewrite (bool_decide_eq_true_2 (0 = 0)) by done.
      rewrite andb_false_r. apply IH; [done | lia].
    + rewrite (bool_decide_eq_false_2 (_ ∉ L)); [apply IH; [done | lia]|].
      intros Hn. apply Hn, HL, elem_of_zrange. lia.
Qed.

Lemma find_gap_none L j n :
  (∀ x, x ∈ zrange 0 (j + n) → x ∈ L) →
  find_gap L j (zrange (Z.of_nat j) n) = None.
Proof.
  revert j. induction n as [|n IH]; intros j HL; [by rewrite zrange_0|].
  rewrite zrange_cons. cbn [find_gap].
  replace (Z.of_nat j + 1)%Z with (Z.of_nat (S j)) by lia.
  replace (j + S n) with (S j + n) in * by lia.
  destruct (decide (j = 0)) as [->|Hj].
  - rewrite (bool_decide_eq_true_2 (0 = 0)) by done.
    rewrite andb_false_r. by apply IH.
  - rewrite (bool_decide_eq_false_2 (_ ∉ L)); [by apply IH|].
    intros Hn. apply Hn, HL, elem_of_zrange. lia.
Qed.

(** The step on a set with a gap: the first index [c] above the initial
    run is lowered and the run is moved right below it. *)
Lemma next_leftout_gap i c rest :
  (Z.of_nat i < c)%Z → increasing (c + 1) rest →
  next_leftout (zrange 0 i ++ c :: rest)
  = Ok (Some (zrange (c - 1 - Z.of_nat i) (S i) ++ rest)).
Proof.
  intros Hc Hrest. unfold next_leftout.
  destruct i as [|i].
  - rewrite zrange_0, zrange_cons, zrange_0. simpl. res_simpl.
    rewrite bool_decide_eq_true_2 by lia.
    unfold py_set. simpl. do 3 f_equal. lia.
  - set (L := zrange 0 (S i) ++ c :: rest).
    assert (L !! 0 = Some 0%Z) as H0 by (unfold L; by rewrite zrange_cons).
    assert (L !! S i = Some c) as Hi.
    { unfold L. apply list_lookup_middle. by rewrite zrange_length. }
    assert (find_gap L 0 L = Some (S i)) as Hgap.
    { unfold L at 2. apply (find_gap_run L 0 (S i) c rest); [| |lia].
      - intros x Hx. apply elem_of_app. by left.
      - unfold L. apply not_elem_of_app. split.
        + rewrite elem_of_zrange. lia.
        + apply not_elem_of_cons. split; [lia|]. intros Hx.
          apply (increasing_lower_bound _ _ _ Hrest) in Hx. lia. }
    rewrite H0. res_simpl. rewrite bool_decide_eq_false_2 by lia.
    rewrite Hgap, Hi. res_simpl.
    unfold py_set. rewrite decide_True
      by (unfold L; rewrite length_app, zrange_length; simpl; lia).
    res_simpl. unfold L.
    rewrite insert_app_r_alt by (rewrite zrange_length; lia).
    rewrite zrange_length. replace (S i - S i) with 0 by lia.
    cbn [insert list_insert].
    rewrite reset_below_run by apply zrange_length.
    res_simpl. do 2 f_equal.
    rewrite (zrange_S _ (S i)), <- app_assoc. cbn [app].
    do 2 f_equal. lia.
Qed.

(** The step on the first set: the loop is finished. *)
Lemma next_leftout_first m :
  0 < m → next_leftout (zrange 0 m) = Ok None.
Proof.
  intros Hm. unfold next_leftout.
  destruct m as [|m]; [lia|].
  assert (zrange 0 (S m) !! 0 = Some 0%Z) as -> by by rewrite zrange_cons.
  res_simpl. rewrite bool_decide_eq_false_2 by lia.
  by rewrite (find_gap_none _ 0 (S m)).
Qed.

Lemma hits_ext l l' i n :
  (∀ j, i ≤ j < i + n → (Z.of_nat j ∈ l ↔ Z.of_nat j ∈ l')) →
  hits l i n = hits l' i n.
Proof.
  revert i. induction n as [|n IH]; intros i H; [done|]. simpl.
  rewrite (bool_decide_ext (Z.of_nat i ∈ l) (Z.of_nat i ∈ l')
             (H i ltac:(lia))).
  f_equal. apply IH. intros j Hj. apply H. lia.
Qed.

(** Every index of an index set is met once by the enumeration of the
    pieces. *)
Lemma hits_index_set l a n :
  increasing (Z.of_nat a) l →
  Forall (λ c, (c < Z.of_nat (a + n))%Z) l →
  hits l a n = length l.
Proof.
  revert a l. induction n as [|n IH]; intros a l Hinc Hlt.
  - destruct l as [|c l]; [done|]. destruct Hinc as [Hc _].
    apply Forall_cons in Hlt as [Hc' _]. lia.
  - simpl. destruct l as [|c l].
    + rewrite bool_decide_eq_false_2 by apply not_elem_of_nil.
      by rewrite (IH (S a) []).
    + destruct Hinc as [Hc Hinc]. apply Forall_cons in Hlt as [Hc' Hlt].
      destruct (decide (c = Z.of_nat a)) as [->|Hne].
      * rewrite bool_decide_eq_true_2 by left. simpl. f_equal.
        rewrite (hits_ext _ l).
        { apply IH.
          - by replace (Z.of_nat (S a)) with (Z.of_nat a + 1)%Z by lia.
          - eapply Forall_impl; [done|]. simpl. intros; lia. }
        intros j Hj. rewrite elem_of_cons. split; [|by right].
        intros [?|?]; [lia | done].
      * rewrite bool_decide_eq_false_2.
        2:{ intros Hin.
            apply (increasing_lower_bound (Z.of_nat a + 1) (c :: l)) in Hin;
              [lia|]. split; [lia | done]. }
        simpl. apply (IH (S a) (c :: l)).
        -- split; [lia | done].
        -- apply Forall_cons. split; [lia|].
           eapply Forall_impl; [done|]. simpl. intros; lia.
Qed.

(** ** The enumeration of the combinations *)

Section enumeration.
Context {A K : Type} (eqb : A → A → bool) (key : A → K).
Context (Hkey : ∀ x y, eqb x y = true ↔ key x = key y).

Lemma eqb_refl x : eqb x x = true.
Proof. by apply Hkey. Qed.

Lemma occurrences_cons x y l :
  occurrences eqb x (y :: l)
  = (if eqb y x then 1 else 0) + occurrences eqb x l.
Proof.
  unfold occurrences. rewrite filter_cons.
  destruct (eqb y x); simpl; by rewrite ?decide_True, ?decide_False.
Qed.

Lemma knock_out_nil i items temp :
  knock_out eqb [] i items temp = Ok temp.
Proof.
  revert i. induction items as [|item items IH]; intros i; [done|].
  cbn [knock_out].
  rewrite bool_decide_eq_false_2 by apply not_elem_of_nil. apply IH.
Qed.

(** [temp_list.remove(item)] never fails, and one piece goes for every
    index that is left out. *)
Lemma knock_out_ok leftout i items temp :
  (∀ x, occurrences eqb x items ≤ occurrences eqb x temp) →
  ∃ c, knock_out eqb leftout i items temp = Ok c
       ∧ length c + hits leftout i (length items) = length temp.
Proof.
  revert i temp. induction items as [|item items IH]; intros i temp Hocc.
  - exists temp. split; [done | simpl; lia].
  - cbn [knock_out length hits]. case_bool_decide.
    + destruct (list_remove_occurrences eqb key Hkey item temp)
        as (temp' & -> & Hlen & Hocc').
      { specialize (Hocc item). rewrite occurrences_cons, eqb_refl in Hocc.
        lia. }
      res_simpl. destruct (IH (S i) temp') as (c & -> & Hc).
      { intros x. rewrite Hocc'. specialize (Hocc x).
        rewrite occurrences_cons in Hocc. lia. }
      exists c. split; [done | lia].
    + destruct (IH (S i) temp) as (c & -> & Hc).
      { intros x. specialize (Hocc x).
        rewrite occurrences_cons in Hocc. lia. }
      exists c. split; [done | lia].
Qed.

Lemma knock_out_index_set a_list m l :
  index_set (length a_list) m l →
  ∃ c, knock_out eqb l 0 a_list a_list = Ok c
       ∧ length c + m = length a_list.
Proof.
  intros (Hinc & Hlt & Hlen).
  destruct (knock_out_ok l 0 a_list a_list) as (c & Hc & Hl); [done|].
  exists c. split; [done|].
  rewrite hits_index_set in Hl by done. lia.
Qed.

Lemma reverse_seq_S n : reverse (seq 0 (S n)) = n :: reverse (seq 0 n).
Proof. by rewrite seq_S, reverse_snoc. Qed.

Lemma find_combinations_loop_spec a_list fuel leftout acc :
  let m := length leftout in
  index_set (length a_list) m leftout → 0 < m →
  colex_rank leftout < fuel →
  ∃ ls combos,
    find_combinations_loop eqb fuel a_list leftout acc = Ok (acc ++ combos)
    ∧ enumerates eqb a_list m ls combos
    ∧ colex_rank <$> ls = reverse (seq 0 (S (colex_rank leftout)))
    ∧ steps_down ls
    ∧ ls !! 0 = Some leftout.
Proof.
  intros m. subst m. revert leftout acc.
  induction fuel as [|fuel IH]; intros leftout acc Hset Hm Hfuel; [lia|].
  cbn [find_combinations_loop].
  destruct (knock_out_index_set a_list _ leftout Hset) as (c & Hc & Hlen).
  rewrite Hc. res_simpl.
  pose proof Hset as (Hinc & Hlt & _).
  destruct (increasing_decompose 0 leftout Hinc)
    as [(i & g & rest & Hl & Hg & Hrest)|Hrun].
  - assert (next_leftout (zrange 0 i ++ g :: rest)
            = Ok (Some (zrange (g - 1 - Z.of_nat i) (S i) ++ rest))) as Hn
      by (apply next_leftout_gap; [lia | done]).
    set (leftout' := zrange (g - 1 - Z.of_nat i) (S i) ++ rest) in *.
    assert (length leftout' = length leftout) as Hlen'.
    { subst leftout' leftout. rewrite !length_app, !zrange_length. simpl. lia. }
    assert (colex_rank leftout = S (colex_rank leftout')) as Hrank.
    { subst leftout. apply rank_step. lia. }
    assert (index_set (length a_list) (length leftout') leftout') as Hset'.
    { split_and!; [| |done].
      - apply increasing_zrange_app; [lia|].
        eapply increasing_weaken; [|done]. lia.
      - subst leftout. apply Forall_app in Hlt as [_ Hlt].
        apply Forall_cons in Hlt as [Hg' Hlt].
        apply Forall_app. split; [|done].
        apply Forall_forall. intros x Hx%elem_of_zrange. lia. }
    rewrite <- Hl in Hn. rewrite Hn. res_simpl.
    destruct (IH leftout' (acc ++ [c]) Hset')
      as (ls & combos & -> & He & Hr & Hd & Hh); [lia | lia |].
    exists (leftout :: ls), (c :: combos). split_and!.
    + by rewrite <- app_assoc.
    + apply Forall2_cons. split; [done|]. by rewrite <- Hlen'.
    + rewrite fmap_cons, Hr, Hrank. by rewrite (reverse_seq_S (S _)).
    + intros [|j] l l' Hj Hj'; simpl in Hj, Hj'; [|by apply (Hd j)].
      injection Hj as <-. rewrite Hh in Hj'. injection Hj' as <-.
      exists (zrange 0 i), (zrange (g - 1 - Z.of_nat i) i), g, (g - 1)%Z, rest.
      split_and!; [done | | by rewrite !zrange_length | lia].
      subst leftout'. rewrite zrange_S, <- app_assoc. simpl.
      do 3 f_equal. lia.
    + done.
  - assert (next_leftout leftout = Ok None) as ->
      by (rewrite Hrun; by apply next_leftout_first).
    res_simpl.
    assert (colex_rank leftout = 0) as Hrank
      by (rewrite Hrun; apply rank_zrange_0).
    exists [leftout], [c]. split; [done|]. split; [|split; [|split; [|done]]].
    + apply Forall2_cons. split; [done | by apply Forall2_nil].
    + rewrite fmap_cons, Hrank. done.
    + by intros [|j] l l' Hj Hj'.
Qed.

Lemma find_combinations_spec a_list n fuel :
  let k := length a_list in
  n ≤ k → binom k n ≤ fuel →
  ∃ ls combos,
    find_combinations eqb fuel a_list n = Ok combos
    ∧ enumerates eqb a_list (k - n) ls combos
    ∧ colex_rank <$> ls = reverse (seq 0 (binom k n))
    ∧ steps_down ls
    ∧ ls !! 0 = Some (zrange (Z.of_nat n) (k - n)).
Proof.
  intros k Hn Hfuel. unfold find_combinations. fold k.
  rewrite zrange_of_seq.
  destruct (decide (n = k)) as [->|Hne].
  - replace (k - k) with 0 by lia. rewrite zrange_0.
    exists [[]], [a_list]. split; [done|]. split; [|split; [|split; [|done]]].
    + apply Forall2_cons. split; [|by apply Forall2_nil].
      split; [by split_and! |]. split; [apply knock_out_nil | lia].
    + by rewrite binom_diag.
    + by intros [|j] l l' Hj Hj'.
  - set (leftout := zrange (Z.of_nat n) (k - n)).
    assert (length leftout = k - n) as Hlen by apply zrange_length.
    assert (index_set k (length leftout) leftout) as Hset.
    { split_and!; [| |done].
      - rewrite <- (app_nil_r leftout).
        apply increasing_zrange_app; [lia | done].
      - apply Forall_forall. intros x Hx%elem_of_zrange. lia. }
    assert (S (colex_rank leftout) = binom k n) as Hrank.
    { pose proof (rank_zrange n (k - n)) as H. fold leftout in H.
      replace (n + (k - n)) with k in H by lia.
      rewrite binom_sym in H by lia. lia. }
    destruct (find_combinations_loop_spec a_list fuel leftout [] Hset)
      as (ls & combos & Hloop & He & Hr & Hd & Hh); [lia | lia |].
    exists ls, combos. rewrite <- Hrank, <- Hlen.
    split; [|done].
    destruct leftout; [simpl in Hlen; lia | done].
Qed.
End enumeration.

(** ** Building the hypotheses *)

Lemma mapM_ok {A B} (f : A → res B) (l : list A) :
  (∀ x, x ∈ l → ∃ y, f x = Ok y) →
  ∃ ys, mapM f l = Ok ys ∧ Forall2 (λ x y, f x = Ok y) l ys.
Proof.
  induction l as [|x l IH]; intros Hf.
  - exists []. split; [done | by apply Forall2_nil].
  - destruct (Hf x) as [y Hy]; [left|].
    destruct IH as (ys & Hys & Hall); [intros; apply Hf; by right|].
    exists (y :: ys). simpl. rewrite Hy. res_simpl. rewrite Hys. res_simpl.
    split; [done|]. by apply Forall2_cons.
Qed.

Lemma assemble_ok _pieces ps combination acc :
  ps ⊆ _pieces → ∃ h, assemble _pieces ps combination acc = Ok h.
Proof.
  revert acc. induction ps as [|p ps IH]; intros acc Hsub; [by eexists|].
  cbn [assemble].
  destruct (list_index_is_Some piece_eq p _pieces) as [ix ->].
  { exists p. split; [apply Hsub; left | by apply piece_eq_key]. }
  res_simpl.
  assert (ps ⊆ _pieces) as Hps by (intros x Hx; apply Hsub; by right).
  case_bool_decide; [by apply IH|].
  destruct (list_in _ _ _); by apply IH.
Qed.

Lemma occurrences_key_eq x x' (l : list Block) :
  Block_key x = Block_key x' →
  occurrences Block_eq x l = occurrences Block_eq x' l.
Proof.
  intros Hk. unfold occurrences. f_equal. apply list_filter_iff.
  intros y. rewrite !Block_eq_key. by rewrite Hk.
Qed.

(** The place holders can always be removed. *)
Lemma remove_placeholders_ok copy sec :
  occurrences Block_eq placeholder copy ≤ occurrences Block_eq placeholder sec →
  ∃ sec', remove_placeholders copy sec = Ok sec'.
Proof.
  revert sec. induction copy as [|item copy IH]; intros sec Hocc; [by eexists|].
  cbn [remove_placeholders].
  rewrite (occurrences_cons Block_eq) in Hocc.
  destruct (Block_eq item placeholder) eqn:E.
  - apply Block_eq_key in E as Hk.
    destruct (list_remove_occurrences Block_eq Block_key Block_eq_key item sec)
      as (sec' & -> & _ & Hocc').
    { rewrite (occurrences_key_eq _ _ _ Hk). lia. }
    res_simpl. apply IH. rewrite Hocc', E. lia.
  - apply IH. lia.
Qed.

Lemma splice_blocks_ok s : ∃ s', splice_blocks s = Ok s'.
Proof.
  unfold splice_blocks.
  destruct (remove_placeholders_ok
              (splice_loop (length (section s)) 0 (section s))
              (splice_loop (length (section s)) 0 (section s)))
    as [sec' ->]; [done|].
  by eexists.
Qed.

Lemma build_hypothesis_ok _pieces combination :
  ∃ h, build_hypothesis _pieces combination = Ok h.
Proof.
  unfold build_hypothesis.
  destruct (assemble_ok _pieces _pieces combination []) as [h ->]; [done|].
  res_simpl. apply splice_blocks_ok.
Qed.

Lemma binom_le_sum k n :
  n ≤ k → binom k n ≤ sum_list (binom k <$> seq 0 (S k)).
Proof.
  intros Hn. apply (sum_list_with_in (binom k n) id).
  apply list_elem_of_fmap. exists n. split; [done|]. apply elem_of_seq. lia.
Qed.

Lemma length_concat_sum {A} (ls : list (list A)) :
  length (concat ls) = sum_list (length <$> ls).
Proof.
  induction ls as [|l ls IH]; [done|].
  simpl. rewrite length_app, IH. done.
Qed.

Lemma Forall2_fmap_eq {A B C} (f : A → C) (g : B → C) l1 l2 :
  Forall2 (λ x y, f x = g y) l1 l2 → f <$> l1 = g <$> l2.
Proof. induction 1; [done|]. rewrite !fmap_cons. by f_equal. Qed.

Lemma build_hypotheses_spec fuel _pieces n :
  let k := length (odd_entries _pieces) in
  n ≤ k → binom k n ≤ fuel →
  ∃ hs, build_hypotheses fuel _pieces n = Ok hs ∧ group_of _pieces n hs.
Proof.
  intros k Hn Hfuel. unfold build_hypotheses.
  destruct (find_combinations_spec piece_eq (fmap Block_key) piece_eq_key
              (odd_entries _pieces) n fuel Hn Hfuel)
    as (ls & combos & -> & He & Hr & Hd & Hh).
  res_simpl.
  destruct (mapM_ok (build_hypothesis _pieces) combos) as (hs & -> & Hall).
  { intros. apply build_hypothesis_ok. }
  exists hs. split; [done|]. exists ls, combos.
  assert (length combos = binom k n) as Hlen.
  { rewrite <- (Forall2_length _ _ _ He).
    rewrite <- (length_fmap colex_rank), Hr, length_reverse. apply length_seq. }
  split_and!; [| | |done|done|done].
  - by rewrite <- (Forall2_length _ _ _ Hall).
  - apply Forall2_same_length_lookup. split; [by eapply Forall2_length|].
    intros i c h Hc Hh'. split.
    + destruct (Forall2_lookup_r _ _ _ _ _ He Hc) as (l & _ & _ & _ & Hl).
      fold k in Hl. lia.
    + exact (Forall2_lookup_lr _ _ _ _ _ _ Hall Hc Hh').
  - eapply Forall2_impl; [done|]. simpl. intros l c (? & ? & _). done.
Qed.

(** The hypotheses of a signal section with [k] optional pieces come in
    [k + 1] groups, and the group at position [k - n] holds the
    [binom k n] hypotheses that are built from the combinations of [n]
    optional pieces.  The loop of [find_combinations] needs as many turns
    as a group has members. *)
Lemma Hypotheses_init_groups (fuel : nat) (signal : Section) :
  let _pieces := segment (section signal) [] [] in
  let k := length (odd_entries _pieces) in
  sum_list (binom k <$> seq 0 (S k)) ≤ fuel →
  ∃ groups,
    Hypotheses_init fuel signal = Ok groups
    ∧ length (concat groups) = sum_list (binom k <$> seq 0 (S k))
    ∧ length groups = S k
    ∧ ∀ n, n ≤ k →
        ∃ hs, groups !! (k - n) = Some hs ∧ group_of _pieces n hs.
Proof.
  intros _pieces k Hfuel. unfold Hypotheses_init. fold _pieces. fold k.
  replace (k + 1) with (S k) by lia.
  destruct (mapM_ok (build_hypotheses fuel _pieces) (seq 0 (S k)))
    as (gs & -> & Hall).
  { intros n Hn%elem_of_seq.
    destruct (build_hypotheses_spec fuel _pieces n) as (hs & ? & _);
      [fold k; lia | |by eexists].
    fold k. etrans; [apply binom_le_sum; lia | done]. }
  res_simpl. exists (reverse gs).
  assert (length gs = S k) as Hlen.
  { rewrite <- (Forall2_length _ _ _ Hall). apply length_seq. }
  assert (∀ n, n ≤ k → ∃ hs, gs !! n = Some hs ∧ group_of _pieces n hs)
    as Hgroup.
  { intros n Hn.
    destruct (Forall2_lookup_l _ _ _ n n Hall) as (g & Hg & Hb).
    { apply lookup_seq. lia. }
    destruct (build_hypotheses_spec fuel _pieces n) as (hs & Hhs & Hspec);
      [fold k; lia | |].
    { fold k. etrans; [apply binom_le_sum; lia | done]. }
    exists g. split; [done|]. congruence. }
  split; [done|]. split_and!.
  - rewrite length_concat_sum, fmap_reverse, sum_list_with_reverse.
    f_equal. symmetry. apply Forall2_fmap_eq.
    apply Forall2_same_length_lookup. split; [by rewrite length_seq|].
    intros i n g Hn Hg. apply lookup_seq in Hn as [-> Hi].
    destruct (Hgroup i) as (hs & Hhs & (ls & combos & Hl & _)); [lia|].
    fold k in Hl. rewrite Hhs in Hg. injection Hg as <-. by rewrite Hl.
  - by rewrite length_reverse.
  - intros n Hn. destruct (Hgroup n Hn) as (hs & Hhs & Hspec).
    exists hs. split; [|done].
    rewrite reverse_lookup by lia. rewrite Hlen.
    replace (S k - S (k - n)) with n by lia. done.
Qed.

(** ** The matcher *)

Lemma scan_group_app signal hs1 hs2 scores sc :
  scan_group signal hs1 scores = Ok (inr sc) →
  scan_group signal (hs1 ++ hs2) scores = scan_group signal hs2 sc.
Proof.
  revert scores; induction hs1 as [|h hs1 IH]; intros scores; simpl.
  - by intros [= ->].
  - destruct (constants h); [done|].
    destruct (scan_constants _ _ _) as [[counts|]| |]; simpl; try done.
    + case_bool_decide; [done | apply IH].
    + apply IH.
Qed.

Lemma scan_group_zero_constants signal h hs scores :
  constants h = [] → scan_group signal (h :: hs) scores = Ok (inl h).
Proof. simpl. by intros ->. Qed.

Lemma match_hypothesis_rejected signal gs1 gs :
  Forall (rejected signal) gs1 →
  match_hypothesis (gs1 ++ gs) signal = match_hypothesis gs signal.
Proof.
  induction 1 as [|g gs1 (scores & Hs & Hc) _ IH]; [done|].
  simpl. rewrite Hs. simpl. rewrite Hc. simpl. apply IH.
Qed.

(** C3, as the code has it: a hypothesis without constants is returned,
    whatever the signal is, as soon as the scan reaches it, that is when
    every fuller group has been rejected and no earlier hypothesis of its
    own group has been returned.  Nothing of the signal is read for the
    hypothesis itself. *)
Theorem zero_constants_returned_when_reached
    (signal : Block) (gs1 : list (list Section)) (hs1 : list Section)
    (h : Section) (hs2 : list Section) (gs2 : list (list Section))
    (sc : list Z) :
  constants h = [] →
  Forall (rejected signal) gs1 →
  scan_group signal hs1 [] = Ok (inr sc) →
  match_hypothesis (gs1 ++ (hs1 ++ h :: hs2) :: gs2) signal = Ok h.
Proof.
  intros Hh Hgs Hhs.
  rewrite match_hypothesis_rejected by done. simpl.
  rewrite (scan_group_app _ _ _ _ _ Hhs).
  by rewrite scan_group_zero_constants.
Qed.

(** On the signal "1.2" the full hypothesis of "%c* (%i)*" is invalid, its
    group is rejected, and the lone variable of the second group is
    returned. *)
Lemma zero_constants_returned_when_reached_witness :
  ∃ full h,
    shift_groups = [[full]] ++ ([] ++ h :: []) :: []
    ∧ constants h = []
    ∧ match_hypothesis shift_groups (paragraph 200 "1.2") = Ok h.
Proof.
  eexists _, _. split; [reflexivity|]. split; [reflexivity|].
  apply (zero_constants_returned_when_reached _ [_] [] _ [] [] []).
  - reflexivity.
  - apply Forall_cons. split; [|by apply Forall_nil].
    eexists. split; vm_compute; reflexivity.
  - reflexivity.
Defined.

(** C3, as it is stated: whenever a hypothesis without constants is among
    the groups, the matcher returns a hypothesis without constants.  This
    fails for the template "%c* (%i)*" on the signal "1.2 (3)": the full
    hypothesis of the first group is an exact match and is returned. *)
Lemma zero_constants_not_returned_first :
  ¬ (∀ (groups : list (list Section)) (signal : Block) (h : Section),
       h ∈ concat groups → constants h = [] →
       ∃ h', match_hypothesis groups signal = Ok h' ∧ constants h' = []).
Proof.
  intros H.
  destruct (H shift_groups (paragraph 200 "1.2 (3)")
              (default (Section_init [] None) (concat shift_groups !! 1)))
    as (h' & Hm & Hc).
  - eapply list_elem_of_lookup_2 with (i := 1). reflexivity.
  - reflexivity.
  - vm_compute in Hm. injection Hm as <-. discriminate Hc.
Qed.

(** ** The field extractor *)

(** The test [block in working_slice[:len(block)]] holds exactly when the
    slice starts with the constant. *)
Lemma constant_at_front block (ws : list Char) :
  Block_contains_str (Block_upto (Block_of_chars ws) (length block)) block
  = bool_decide (take (length block) (str <$> ws) = block).
Proof.
  unfold Block_contains_str, Block_count_str, Block_upto, Block_text. simpl.
  apply bool_decide_ext. rewrite fmap_take.
  apply str_count_short. rewrite length_take. lia.
Qed.

Lemma scan_field_accepts cue block pre rest acc :
  Forall (λ x, str x ∈ cue) pre →
  scan_field cue block (pre ++ rest) acc
  = scan_field cue block rest (acc ++ pre).
Proof.
  intros Hpre. revert acc.
  induction Hpre as [|x pre Hx _ IH]; intros acc; simpl.
  - by rewrite app_nil_r.
  - rewrite bool_decide_eq_true_2 by done.
    rewrite IH. by rewrite <- app_assoc.
Qed.

Lemma scan_field_rejects cue block c rest acc :
  str c ∉ cue →
  scan_field cue block (c :: rest) acc
  = if bool_decide (take (length block) (str <$> c :: rest) = block)
    then Ok acc else Raise InputError.
Proof.
  intros Hc. cbn [scan_field].
  rewrite bool_decide_eq_false_2 by done.
  by rewrite constant_at_front.
Qed.

Lemma parse_signal_loop_step h block later signal vars appendix ws v cue :
  working_slice_of signal block later = Ok ws →
  Block_nonempty ws = true →
  variables h !! length vars = Some v →
  CUES !! Block_text v = Some cue →
  parse_signal_loop h (block :: later) signal vars appendix
  = a ← extract_field cue block ws;
    parse_signal_loop h later
      (Block_from signal (Block_len a + length block))
      (vars ++ [a]) (Some a).
Proof.
  intros Hws Hne Hv Hcue. cbn [parse_signal_loop].
  rewrite Hws. res_simpl. rewrite Hne, Hv. res_simpl. rewrite Hcue. res_simpl.
  by destruct (extract_field cue block ws).
Qed.

(** The characters that [scan_field] returns beyond [acc] are accepted by
    the cue. *)
Lemma scan_field_accepted cue block ws acc out :
  scan_field cue block ws acc = Ok out →
  Forall (λ x, str x ∈ cue) acc →
  Forall (λ x, str x ∈ cue) out.
Proof.
  revert acc. induction ws as [|c ws IH]; intros acc; cbn [scan_field].
  - by intros [= <-].
  - case_bool_decide as Hc.
    + intros Hs Hacc. eapply IH; [exact Hs|].
      apply Forall_app. split; [done|]. by apply Forall_singleton.
    + destruct (Block_contains_str _ _); [by intros [= <-]|done].
Qed.

(** The loop only adds fields behind the ones it is given. *)
Lemma parse_signal_loop_extends h blocks signal vars appendix out :
  parse_signal_loop h blocks signal vars appendix = Ok out →
  ∃ more, out = vars ++ more.
Proof.
  revert signal vars appendix.
  induction blocks as [|block later IH]; intros signal vars appendix;
    cbn [parse_signal_loop].
  - intros [= <-]. exists []. by rewrite app_nil_r.
  - destruct (working_slice_of signal block later) as [ws| |]; [|done..].
    res_simpl. destruct (Block_nonempty ws).
    + destruct (variables h !! length vars) as [v0|]; [|done].
      res_simpl. destruct (CUES !! Block_text v0) as [cue|]; [|done].
      res_simpl. destruct (extract_field cue block ws) as [a| |]; [|done..].
      res_simpl. intros (more & ->)%IH. exists (a :: more).
      by rewrite <- app_assoc.
    + res_simpl. destruct appendix as [a|]; [|done]. res_simpl. apply IH.
Qed.

(** The fields that the loop adds to [vars] are read for the variables of
    the same positions, and a field read with a cue holds accepted
    characters only. *)
Lemma parse_signal_loop_validated h blocks signal vars appendix out :
  parse_signal_loop h blocks signal vars appendix = Ok out →
  ∀ i field v cs,
    length vars ≤ i →
    out !! i = Some field →
    variables h !! i = Some v →
    CUES !! Block_text v = Some (Some cs) →
    Forall (λ c, str c ∈ cs) (chars field).
Proof.
  revert signal vars appendix.
  induction blocks as [|block later IH]; intros signal vars appendix;
    cbn [parse_signal_loop].
  - intros [= <-] i field v cs Hi Hf. apply lookup_lt_Some in Hf. lia.
  - destruct (working_slice_of signal block later) as [ws| |]; [|done..].
    res_simpl. destruct (Block_nonempty ws).
    + destruct (variables h !! length vars) as [v0|] eqn:Hv0; [|done].
      res_simpl. destruct (CUES !! Block_text v0) as [cue|] eqn:Hcue; [|done].
      res_simpl.
      destruct (extract_field cue block ws) as [a| |] eqn:Ha; [|done..].
      res_simpl. intros Hloop i field v cs Hi Hf Hv Hcs.
      destruct (decide (i = length vars)) as [->|Hne].
      * destruct (parse_signal_loop_extends _ _ _ _ _ _ Hloop) as (more & ->).
        rewrite <- app_assoc, lookup_app_r, Nat.sub_diag in Hf by done.
        injection Hf as <-. rewrite Hv0 in Hv. injection Hv as <-.
        rewrite Hcue in Hcs. injection Hcs as ->.
        unfold extract_field in Ha.
        destruct (scan_field cs block (chars ws) []) as [f| |] eqn:Hscan;
          [|done..].
        injection Ha as <-. simpl.
        eapply scan_field_accepted; [exact Hscan|]. apply Forall_nil_2.
      * eapply (IH _ _ _ Hloop i); try done. rewrite length_app. simpl. lia.
    + res_simpl. destruct appendix as [a|]; [|done]. res_simpl.
      intros Hloop. by eapply IH.
Qed.

(** C5, as the code has it.  A hypothesis that has variables and no
    constant is not read field by field: [parse_signal] hands the whole
    record to [Signal] and no cue is looked up.  Every other hypothesis goes
    through the loop over its constants, which starts without fields and
    returns the fields it has collected when the constants are used up.  In
    the turn that takes the field in front of the constant [block], let
    [ws] be the non-empty working slice and [v] the variable it is read
    for.  Without a cue the slice is the field, verbatim.  With a cue, at
    the first character [c] that the cue does not accept the field ends if
    the constant stands at that position, and otherwise [parse_signal] fails
    with [InputError]; a slice of accepted characters is the field.  So on
    this path a field that has been read with a cue holds accepted
    characters only. *)
Theorem cue_validation (h : Section) (signal : Block) :
  (variables h ≠ [] → constants h = [] →
     parse_signal signal h = Signal_init [signal] h)
  ∧ (variables h = [] ∨ constants h ≠ [] →
     parse_signal signal h
     = vars ← parse_signal_loop h (constants_str h) signal [] None;
       Signal_init vars h)
  ∧ (∀ s vars appendix, parse_signal_loop h [] s vars appendix = Ok vars)
  ∧ (∀ block later s vars appendix ws v cue,
       working_slice_of s block later = Ok ws →
       Block_nonempty ws = true →
       variables h !! length vars = Some v →
       CUES !! Block_text v = Some cue →
       let continue_with a :=
         parse_signal_loop h later
           (Block_from s (Block_len a + length block)) (vars ++ [a]) (Some a) in
       match cue with
       | None =>
           parse_signal_loop h (block :: later) s vars appendix
           = continue_with ws
       | Some cs =>
           (∀ pre c rest,
              chars ws = pre ++ c :: rest →
              Forall (λ x, str x ∈ cs) pre →
              str c ∉ cs →
              parse_signal_loop h (block :: later) s vars appendix
              = if bool_decide
                     (take (length block) (str <$> c :: rest) = block)
                then continue_with (Block_of_chars pre)
                else Raise InputError)
           ∧ (Forall (λ x, str x ∈ cs) (chars ws) →
              parse_signal_loop h (block :: later) s vars appendix
              = continue_with (Block_of_chars (chars ws)))
       end)
  ∧ (∀ vars i field v cs,
       parse_signal_loop h (constants_str h) signal [] None = Ok vars →
       vars !! i = Some field →
       variables h !! i = Some v →
       CUES !! Block_text v = Some (Some cs) →
       Forall (λ c, str c ∈ cs) (chars field)).
Proof.
  split; [|split; [|split; [|split]]].
  - intros Hv Hc. unfold parse_signal.
    rewrite bool_decide_eq_false_2, (bool_decide_eq_true_2 _ Hc); [done|].
    by destruct (variables h).
  - intros Hor. unfold parse_signal.
    destruct Hor as [Hv|Hc].
    + by rewrite Hv.
    + rewrite (bool_decide_eq_false_2 _ Hc). by rewrite andb_false_r.
  - done.
  - intros block later s vars appendix ws v cue Hws Hne Hv Hcue k.
    rewrite (parse_signal_loop_step _ _ _ _ _ _ _ _ _ Hws Hne Hv Hcue).
    destruct cue as [cs|]; [|done]. split.
    + intros pre c rest Hchars Hpre Hc. unfold extract_field.
      rewrite Hchars, scan_field_accepts, scan_field_rejects by done.
      by case_bool_decide.
    + intros Hall. unfold extract_field.
      rewrite <- (app_nil_r (chars ws)) at 1.
      by rewrite scan_field_accepts.
  - intros vars i field v cs Hloop Hf Hv Hcs.
    eapply (parse_signal_loop_validated _ _ _ _ _ _ Hloop i); try done.
    simpl. lia.
Qed.

(** For the full hypothesis of "%c* (%i)*" the record "1.2x (3)" gives the
    shift "1.2x", read without a cue, and the integral "3".  For the
    hypothesis of "%i)" the record "2x)" is refused, since "x" is not a
    digit and no ")" stands there, and on "2)3)" the integral ends at the
    first ")". *)
Lemma cue_validation_witness :
  (∃ full rest sg,
     shift_groups = [full] :: rest
     ∧ parse_signal (paragraph 200 "1.2x (3)") full = Ok sg
     ∧ show <$> chemshift sg = Some "1.2x"%string
     ∧ show <$> integral sg = Some "3"%string)
  ∧ ∃ h,
      integral_groups = [[h]]
      ∧ parse_signal (paragraph 200 "2x)") h = Raise InputError
      ∧ ∃ sg, parse_signal (paragraph 200 "2)3)") h = Ok sg
              ∧ show <$> integral sg = Some "2"%string.
Proof.
  split.
  - eexists _, _, _. split; [reflexivity|].
    set (signal := paragraph 200 "1.2x (3)").
    lazymatch goal with
    | |- parse_signal _ ?full = _ ∧ _ => set (h := full)
    end.
    destruct (cue_validation h signal) as (_ & Hpath & Hbase & Hturn & _).
    pose proof (Hturn (lit " (") [lit ")"] signal [] None
                  (Block_upto signal 4)
                  (default Block_empty (variables h !! 0)) None
                  ltac:(reflexivity) ltac:(reflexivity) ltac:(reflexivity)
                  ltac:(reflexivity)) as H1.
    pose proof (Hturn (lit ")") [] (Block_from signal 6)
                  [Block_upto signal 4] (Some (Block_upto signal 4))
                  (Block_slice signal 6 7)
                  (default Block_empty (variables h !! 1)) (Some digits)
                  ltac:(reflexivity) ltac:(reflexivity) ltac:(reflexivity)
                  ltac:(reflexivity)) as [_ H2].
    assert (parse_signal_loop h (constants_str h) signal [] None
            = Ok [Block_upto signal 4; Block_of_chars (chars (Block_slice signal 6 7))])
      as Hloop.
    { etrans; [exact H1|]. etrans; [apply H2|apply Hbase].
      vm_compute. repeat constructor. }
    rewrite Hpath, Hloop by (right; discriminate).
    split; [reflexivity|]. split; reflexivity.
  - eexists. split; [reflexivity|].
    lazymatch goal with
    | |- parse_signal _ ?full = _ ∧ _ => set (h := full)
    end.
    split.
    + set (signal := paragraph 200 "2x)").
      destruct (cue_validation h signal) as (_ & Hpath & _ & Hturn & _).
      pose proof (Hturn (lit ")") [] signal [] None
                    (Block_upto signal 2)
                    (default Block_empty (variables h !! 0)) (Some digits)
                    ltac:(reflexivity) ltac:(reflexivity) ltac:(reflexivity)
                    ltac:(reflexivity)) as [H _].
      assert (parse_signal_loop h (constants_str h) signal [] None
              = Raise InputError) as Hloop.
      { apply (H (take 1 (chars signal)) (Char_init "x" 201) []).
        - reflexivity.
        - vm_compute. repeat constructor.
        - vm_compute. intros Hin.
          repeat (apply elem_of_cons in Hin as [Hin|Hin]; [discriminate Hin|]).
          by apply elem_of_nil in Hin. }
      by rewrite Hpath, Hloop by (right; discriminate).
    + set (signal := paragraph 200 "2)3)").
      destruct (cue_validation h signal) as (_ & Hpath & Hbase & Hturn & _).
      pose proof (Hturn (lit ")") [] signal [] None
                    (Block_upto signal 3)
                    (default Block_empty (variables h !! 0)) (Some digits)
                    ltac:(reflexivity) ltac:(reflexivity) ltac:(reflexivity)
                    ltac:(reflexivity)) as [H _].
      assert (parse_signal_loop h (constants_str h) signal [] None
              = Ok [Block_of_chars (take 1 (chars signal))]) as Hloop.
      { etrans; [|apply Hbase].
        apply (H (take 1 (chars signal)) (Char_init ")" 201)
                 (drop 2 (take 3 (chars signal)))).
        - reflexivity.
        - vm_compute. repeat constructor.
        - vm_compute. intros Hin.
          repeat (apply elem_of_cons in Hin as [Hin|Hin]; [discriminate Hin|]).
          by apply elem_of_nil in Hin. }
      eexists. rewrite Hpath, Hloop by (right; discriminate).
      split; reflexivity.
Defined.

(** C5, as it is stated: a field read for a code with a character class
    holds no character outside the class.  This fails for the template
    "%i" on the record "2x": the hypothesis has a variable and no
    constant, so [parse_signal] hands the whole record to [Signal] and the
    cue of "%i" is never read; the integral is "2x" although "x" is not a
    digit. *)
Lemma lone_variable_not_validated :
  ∃ h sg,
    lone_integral_groups = [[h]]
    ∧ variables_str h = [lit "%i"]
    ∧ constants h = []
    ∧ CUES !! lit "%i" = Some (Some digits)
    ∧ ("x"%char ∉ digits)
    ∧ match_hypothesis lone_integral_groups (paragraph 200 "2x") = Ok h
    ∧ parse_signal (paragraph 200 "2x") h = Ok sg
    ∧ show <$> integral sg = Some "2x"%string.
Proof.
  eexists _, _. split; [reflexivity|].
  repeat split; try reflexivity.
  vm_compute. intros Hin.
  repeat (apply elem_of_cons in Hin as [Hin|Hin]; [discriminate Hin|]).
  by apply elem_of_nil in Hin.
Qed.

(** ** Calls that use no fuel *)

Lemma bind_terminates {A B} (m : res A) (f : A → res B) :
  terminates m → (∀ a, m = Ok a → terminates (f a)) → terminates (m ≫= f).
Proof. unfold terminates. destruct m; simpl; eauto. Qed.

Lemma of_option_terminates {A} e (o : option A) : terminates (of_option e o).
Proof. by destruct o. Qed.

Lemma py_nth_terminates {A} (l : list A) i : terminates (py_nth l i).
Proof.
  unfold py_nth. repeat case_decide; try done; apply of_option_terminates.
Qed.

Lemma str_index_terminates s sub a e : terminates (str_index s sub a e).
Proof. apply of_option_terminates. Qed.

Lemma Block_split_loop_terminates cs sl j k acc texts :
  terminates (Block_split_loop cs sl j k acc texts).
Proof.
  revert j k acc texts. induction cs as [|c cs IH]; intros; simpl; [done|].
  apply bind_terminates; [apply of_option_terminates|]. intros frag _.
  apply bind_terminates; [apply of_option_terminates|]. intros ch _.
  case_bool_decide; case_bool_decide; apply IH.
Qed.

Lemma Block_split_terminates b d : terminates (Block_split b d).
Proof.
  unfold Block_split. apply bind_terminates.
  - unfold str_split. by destruct (Block_text d).
  - intros. apply Block_split_loop_terminates.
Qed.

Lemma r_loop_terminates text cs l r cands :
  terminates (r_loop text cs l r cands).
Proof.
  revert r. induction cands as [|c cands IH]; intros r; simpl.
  - by destruct (Block_contains text r).
  - destruct (Block_contains text r); [done|].
    apply bind_terminates; [apply of_option_terminates|]. intros ir _.
    apply bind_terminates; [apply of_option_terminates|]. intros il _.
    case_bool_decide; [apply IH | done].
Qed.

Lemma complex_step_terminates l r d text :
  terminates (complex_step l r d text).
Proof.
  unfold complex_step, Block_index.
  repeat first
    [ apply bind_terminates; [|intros ? _]
    | apply str_index_terminates
    | done
    | match goal with |- terminates (if ?c then _ else _) => destruct c end ].
Qed.

(** ** The blocks of a compiled template are different objects *)

Lemma oids_of_app bs1 bs2 : oids_of (bs1 ++ bs2) = oids_of bs1 ++ oids_of bs2.
Proof. unfold oids_of. by rewrite fmap_app, concat_app. Qed.

Lemma oids_of_cons b bs : oids_of (b :: bs) = (oid <$> chars b) ++ oids_of bs.
Proof. done. Qed.

Lemma oids_of_snoc bs b : oids_of (bs ++ [b]) = oids_of bs ++ (oid <$> chars b).
Proof. rewrite oids_of_app, oids_of_cons. unfold oids_of at 2. simpl. by rewrite app_nil_r. Qed.

Lemma oids_of_flush _text opt parsed :
  oids_of (flush _text opt parsed) = oids_of parsed ++ (oid <$> _text).
Proof.
  unfold flush. destruct _text as [|c t].
  - by rewrite app_nil_r.
  - by rewrite oids_of_snoc.
Qed.

Lemma oid_new_chars next s : oid <$> new_chars next s = seq next (length s).
Proof.
  revert next. induction s as [|c s IH]; intros next; [done|].
  simpl. by rewrite IH.
Qed.

Lemma fresh_sublist next l1 l2 :
  l1 `sublist_of` l2 → fresh_below next l2 → fresh_below next l1.
Proof.
  intros Hsub [Hnd Hlt]. split; [by eapply sublist_NoDup|].
  rewrite Forall_forall in Hlt. apply Forall_forall.
  intros x Hx. apply Hlt. by eapply elem_of_sublist.
Qed.

Lemma fresh_insert next l1 l2 :
  fresh_below next (l1 ++ l2) →
  fresh_below (next + 2) (l1 ++ [next; next + 1] ++ l2).
Proof.
  intros [Hnd Hlt].
  assert (l1 ++ [next; next + 1] ++ l2 ≡ₚ next :: (next + 1) :: l1 ++ l2)
    as Hperm by (by rewrite Permutation_app_swap_app).
  unfold fresh_below. rewrite Hperm.
  rewrite Forall_forall in Hlt. split.
  - apply NoDup_cons. split.
    + rewrite elem_of_cons. intros [?|Hin%Hlt]; lia.
    + apply NoDup_cons. split; [|done]. intros Hin%Hlt. lia.
  - apply Forall_cons. split; [lia|]. apply Forall_cons. split; [lia|].
    apply Forall_forall. intros x Hx%Hlt. lia.
Qed.

(** [Formatter._parse] keeps the characters it is given apart and numbers
    the characters of the keys with unused identities. *)
Lemma parse_loop_distinct raw n :
  ∀ unparsed _text opt parsed next out next',
    length unparsed ≤ n →
    parse_loop raw unparsed _text opt parsed next = Ok (out, next') →
    fresh_below next (oids_of parsed ++ (oid <$> _text) ++ (oid <$> unparsed)) →
    fresh_below next' (oids_of out) ∧ next ≤ next'.
Proof.
  induction n as [|n IH];
    intros unparsed _text opt parsed next out next' Hn Hp Hfresh.
  - destruct unparsed; [|simpl in Hn; lia]. injection Hp as <- <-.
    rewrite app_nil_r in Hfresh. by rewrite oids_of_flush.
  - destruct unparsed as [|c rest].
    { injection Hp as <- <-. rewrite app_nil_r in Hfresh.
      by rewrite oids_of_flush. }
    cbn [parse_loop] in Hp. simpl in Hn.
    destruct (negb (Char_eq_str c "%") && negb (Char_eq_str c "*")).
    { eapply IH; [|exact Hp|]; [lia|].
      by rewrite fmap_app, <- (app_assoc (oid <$> _text)). }
    rewrite fmap_cons in Hfresh.
    destruct (Char_eq_str c "%").
    + destruct rest as [|c1 rest']; [done|].
      repeat (case_match; [done|]).
      eapply IH in Hp as [Hout Hle]; [split; [done | lia] | simpl in Hn; lia |].
      rewrite oids_of_snoc, oids_of_flush. simpl.
      rewrite <- !app_assoc.
      change (next :: S next :: (oid <$> rest'))
        with ([next; S next] ++ (oid <$> rest')).
      rewrite (app_assoc (oids_of parsed)).
      replace (S next) with (next + 1) by lia.
      apply fresh_insert. rewrite <- app_assoc.
      eapply fresh_sublist; [|done].
      apply sublist_app; [done|]. apply sublist_app; [done|].
      rewrite fmap_cons. by do 2 apply sublist_cons.
    + eapply IH; [|exact Hp|]; [lia|].
      rewrite oids_of_snoc, oids_of_flush. simpl.
      rewrite app_nil_r, <- app_assoc.
      eapply fresh_sublist; [|done].
      apply sublist_app; [done|]. apply sublist_app; [done|].
      by apply sublist_cons.
Qed.

Lemma elem_of_oids_of b bs o : b ∈ bs → o ∈ oid <$> chars b → o ∈ oids_of bs.
Proof.
  intros Hb Ho. induction bs as [|b' bs IH]; [by apply elem_of_nil in Hb|].
  rewrite oids_of_cons. apply elem_of_app.
  apply elem_of_cons in Hb as [<-|Hb]; [by left | right; by apply IH].
Qed.

Lemma distinct_of_NoDup bs : NoDup (oids_of bs) → distinct_blocks bs = true.
Proof.
  induction bs as [|b bs IH]; [done|].
  rewrite oids_of_cons.
  intros (_ & Hdisj & Hbs)%NoDup_app. simpl.
  rewrite IH, andb_true_r by done.
  apply forallb_forall. intros b' Hb'%list_elem_of_In.
  destruct (Block_eq b b') eqn:Heq; [|done]. simpl.
  apply Block_eq_key in Heq. unfold Block_key in Heq.
  injection Heq as Hoids _ _.
  unfold Block_nonempty. destruct (chars b') as [|c cs] eqn:Hc; [done|].
  exfalso. apply (Hdisj (oid c)).
  - rewrite Hoids. left.
  - apply (elem_of_oids_of b'); [done|]. rewrite Hc. left.
Qed.

Lemma oids_of_sublist bs1 bs2 :
  bs1 `sublist_of` bs2 → oids_of bs1 `sublist_of` oids_of bs2.
Proof.
  induction 1 as [|b bs1 bs2 _ IH|b bs1 bs2 _ IH]; [done|..];
    rewrite ?oids_of_cons.
  - by apply sublist_app.
  - by apply sublist_inserts_l.
Qed.

Lemma slice_sublist {A} (l : list A) a b : slice l a b `sublist_of` l.
Proof. unfold slice. etrans; [apply sublist_take | apply sublist_drop]. Qed.

(** The constants of the signals of a compiled template are different
    objects, when the characters of the raw template are. *)
Lemma compiled_constants_distinct fuel next raw f :
  Formatter_init fuel next raw = Ok f →
  fresh_below next (oid <$> chars raw) →
  distinct_blocks (constants (signals f)) = true.
Proof.
  unfold Formatter_init. intros Hf Hfresh.
  repeat case_bool_decide; try done.
  apply bind_inv_Ok in Hf as (i1 & _ & Hf).
  apply bind_inv_Ok in Hf as (i2 & _ & Hf).
  apply bind_inv_Ok in Hf as (r & _ & Hf).
  apply bind_inv_Ok in Hf as (before & _ & Hf).
  destruct (negb _); [done|].
  apply bind_inv_Ok in Hf as (e & _ & Hf).
  apply bind_inv_Ok in Hf as ([h next1] & Hh & Hf).
  apply bind_inv_Ok in Hf as ([s next2] & Hs & Hf).
  apply bind_inv_Ok in Hf as (hyps & _ & Hf).
  injection Hf as <-. simpl.
  apply distinct_of_NoDup.
  eapply sublist_NoDup; [|apply oids_of_sublist, sublist_filter].
  unfold Formatter_parse in Hh, Hs.
  eapply parse_loop_distinct in Hh as [_ Hle]; [|done|].
  2:{ simpl. eapply fresh_sublist; [|done].
      apply fmap_sublist, sublist_take. }
  eapply parse_loop_distinct in Hs as [[Hnd _] _]; [done | done |].
  simpl. destruct Hfresh as [Hnd Hlt]. split.
  - eapply sublist_NoDup; [done|]. apply fmap_sublist, slice_sublist.
  - apply Forall_forall. intros x Hx.
    rewrite Forall_forall in Hlt.
    assert (x < next); [|lia]. apply Hlt.
    eapply elem_of_sublist; [done|]. apply fmap_sublist, slice_sublist.
Qed.

(** ** The complex split *)

(** What one turn of the inner loop leaves of the text. *)
Lemma complex_step_text l r d text piece text' :
  complex_step l r d text = Ok (piece, text') →
  text' = Block_from text (Block_len piece + Block_len d).
Proof.
  unfold complex_step. intros H.
  repeat (apply bind_inv_Ok in H as (? & _ & H)).
  by injection H as <- <-.
Qed.

(** The progress check: the new text differs from the copy taken before
    the turn only when it is strictly shorter. *)
Lemma progress_check text n :
  Block_eq (Block_from text n) (Block_copy text) = false →
  Block_len (Block_from text n) < Block_len text.
Proof.
  unfold Block_from, Block_copy, Block_len. simpl. intros Hne.
  rewrite length_drop.
  destruct (decide (n = 0)) as [->|]. { by rewrite drop_0, Block_eq_refl in Hne. }
  destruct (chars text) as [|c cs] eqn:E.
  { by rewrite drop_nil, Block_eq_refl in Hne. }
  simpl. lia.
Qed.

Lemma no_progress text n :
  Block_eq (Block_from text n) (Block_copy text) = true →
  Block_from text n = Block_copy text.
Proof.
  unfold Block_from, Block_copy. intros H. f_equal.
  apply Block_eq_key in H. unfold Block_key in H. simpl in H.
  injection H as H. apply (f_equal length) in H.
  rewrite !length_fmap, length_drop in H.
  destruct (decide (n = 0)) as [->|]; [by rewrite drop_0|].
  destruct (chars text); [by rewrite drop_nil | simpl in H; lia].
Qed.

Lemma complex_inner_terminates fuel l r d text sigs :
  Block_len text < fuel →
  terminates (complex_inner fuel l r d text sigs)
  ∧ ∀ text' sigs',
      complex_inner fuel l r d text sigs = Ok (text', sigs', false) →
      Block_len text' ≤ Block_len text
      ∧ (anchors_present l r d text = true → Block_len text' < Block_len text).
Proof.
  revert text sigs. induction fuel as [|fuel IH]; intros text sigs Hlen; [lia|].
  cbn [complex_inner]. fold (anchors_present l r d text).
  destruct (anchors_present l r d text) eqn:Hcond.
  - pose proof (complex_step_terminates l r d text) as Hstep.
    destruct (complex_step l r d text) as [[piece text']| |] eqn:E;
      [|done..]. res_simpl.
    apply complex_step_text in E as ->.
    destruct (Block_eq _ _) eqn:Heq; [done|].
    apply progress_check in Heq.
    destruct (IH (Block_from text (Block_len piece + Block_len d))
                (sigs ++ [piece])) as [Ht Hs]; [lia|].
    split; [done|]. intros text' sigs' Hr.
    destruct (Hs _ _ Hr). lia.
  - split; [done|]. intros text' sigs' [= <- <-]. split; [lia | done].
Qed.

(** *** The anchors *)

Lemma l_loop_spec text l0 cands :
  let l := l_loop text l0 cands in
  l ∈ l0 :: cands
  ∧ (Block_contains text l = false →
     ∀ b, b ∈ l0 :: cands → Block_contains text b = false).
Proof.
  revert l0. induction cands as [|c cands IH]; intros l0; simpl.
  - destruct (Block_contains text l0) eqn:E.
    + split; [left | congruence].
    + split; [left|]. by intros _ b ->%list_elem_of_singleton.
  - destruct (Block_contains text l0) eqn:E.
    + split; [left | congruence].
    + destruct (IH c) as [Hin Hnone]. split; [by right|].
      intros Hl b [->|Hb]%elem_of_cons; [done | by apply Hnone].
Qed.

Lemma r_loop_elem text cs l r cands r' :
  r_loop text cs l r cands = Ok r' → r' ∈ r :: cands.
Proof.
  revert r. induction cands as [|c cands IH]; intros r; simpl.
  - destruct (Block_contains text r); intros [= <-]; left.
  - destruct (Block_contains text r); [intros [= <-]; left|].
    intros H. apply bind_inv_Ok in H as (ir & _ & H).
    apply bind_inv_Ok in H as (il & _ & H).
    case_bool_decide.
    + right. by apply IH.
    + injection H as <-. left.
Qed.

Lemma distinct_blocks_spec cs i j bi bj :
  distinct_blocks cs = true →
  cs !! i = Some bi → cs !! j = Some bj → i < j →
  Block_eq bi bj = true → Block_nonempty bj = false.
Proof.
  revert i j. induction cs as [|b cs IH]; intros i j Hd Hi Hj Hij Heq; [done|].
  simpl in Hd. apply andb_true_iff in Hd as [Hb Hd].
  destruct j as [|j]; [lia|]. simpl in Hj.
  destruct i as [|i]; simpl in Hi.
  - injection Hi as ->.
    rewrite forallb_forall in Hb.
    apply list_elem_of_lookup_2, list_elem_of_In, Hb in Hj.
    rewrite Heq in Hj. simpl in Hj. by apply negb_true_iff in Hj.
  - apply (IH i j); [done..|lia|done].
Qed.

Lemma list_index_first {A} (eqb : A → A → bool) x (l : list A) q z :
  l !! q = Some z → eqb z x = true →
  (∀ j y, j < q → l !! j = Some y → eqb y x = false) →
  list_index eqb x l = Some q.
Proof.
  revert q. induction l as [|y l IH]; intros q Hq Hz Hbefore; [done|].
  simpl. destruct q as [|q]; simpl in Hq.
  - injection Hq as ->. by rewrite Hz.
  - rewrite (Hbefore 0 y) by (done || lia).
    rewrite (IH q); [done..|].
    intros j y' Hj Hy'. apply (Hbefore (S j)); [lia | done].
Qed.

Lemma list_index_le {A} (eqb : A → A → bool) x (l : list A) p z :
  l !! p = Some z → eqb z x = true →
  ∃ i, list_index eqb x l = Some i ∧ i ≤ p.
Proof.
  revert p. induction l as [|y l IH]; intros p Hp Hz; [done|].
  simpl. destruct (eqb y x) eqn:E. { exists 0. split; [done | lia]. }
  destruct p as [|p]; simpl in Hp. { injection Hp as ->. congruence. }
  destruct (IH p Hp Hz) as (i & -> & Hi). exists (S i). split; [done | lia].
Qed.

(** When the left anchor occurs in the text, the search of the right
    anchor, which walks down from the last constant, stops on a constant
    that occurs in the text. *)
Lemma r_loop_found text cs l p q r r' :
  distinct_blocks cs = true →
  cs !! p = Some l → Block_contains text l = true →
  cs !! q = Some r → p ≤ q →
  r_loop text cs l r (reverse (take q cs)) = Ok r' →
  Block_contains text r' = true.
Proof.
  intros Hd Hp Hl. revert r.
  induction q as [|q IH]; intros r Hq Hpq.
  - rewrite take_0. simpl.
    destruct (Block_contains text r) eqn:E; intros [= <-]; [done|].
    assert (p = 0) as -> by lia. congruence.
  - assert (is_Some (cs !! q)) as [c Hc].
    { apply lookup_lt_is_Some. apply lookup_lt_Some in Hq. lia. }
    rewrite (take_S_r _ _ _ Hc), reverse_snoc. cbn [r_loop].
    destruct (Block_contains text r) eqn:E; [by intros [= <-]|].
    assert (Block_nonempty r = true) as Hne.
    { destruct (Block_nonempty r) eqn:N; [done|].
      by rewrite Block_contains_empty in E. }
    rewrite (list_index_first Block_eq r cs (S q) r Hq (Block_eq_refl r)).
    2:{ intros j y Hj Hy. destruct (Block_eq y r) eqn:Hyr; [|done].
        pose proof (distinct_blocks_spec _ _ _ _ _ Hd Hy Hq Hj Hyr).
        congruence. }
    destruct (list_index_le Block_eq l cs p l Hp (Block_eq_refl l))
      as (il & -> & Hil).
    res_simpl. rewrite bool_decide_eq_true_2 by lia.
    apply IH; [done|].
    destruct (decide (p = S q)) as [->|]; [congruence | lia].
Qed.

Lemma py_nth_first {A} (l : list A) x :
  py_nth l 0 = Ok x → ∃ l', l = x :: l'.
Proof. destruct l as [|y l']; [done|]. intros [= ->]. eauto. Qed.

Lemma py_nth_last {A} (l : list A) x :
  py_nth l (-1) = Ok x → l !! (length l - 1) = Some x.
Proof.
  unfold py_nth. rewrite decide_False by lia.
  case_decide; [|intros [=]].
  change (Z.to_nat (- (-1))) with 1.
  destruct (l !! (length l - 1)); [|intros [=]]. by intros [= ->].
Qed.

(** In the turn of the outer loop that does not fall back to the direct
    split, the inner loop finds the two anchors and the delimiter. *)
Lemma anchors_found text cs l0 r0 d r :
  distinct_blocks cs = true →
  py_nth cs 0 = Ok l0 → py_nth cs (-1) = Ok r0 →
  let l := l_loop text l0 (drop 1 cs) in
  r_loop text cs l r0 (reverse (take (length cs - 1) cs)) = Ok r →
  (negb (Block_contains text l) && negb (Block_contains text r))
  || (Block_eq l d && Block_eq r d)
  || negb (str_in (Block_text d) (Block_text text)) = false →
  anchors_present l r d text = true.
Proof.
  intros Hd Hl0 Hr0 l Hr Hif.
  apply orb_false_iff in Hif as [Hif Hdin].
  apply orb_false_iff in Hif as [Hif _].
  apply negb_false_iff in Hdin. rewrite str_in_count in Hdin.
  apply py_nth_last in Hr0 as Hq.
  assert (l ∈ cs ∧ (Block_contains text l = false →
                    ∀ b, b ∈ cs → Block_contains text b = false))
    as [Hin Hnone].
  { apply py_nth_first in Hl0 as (cs' & ->). apply l_loop_spec. }
  assert (r ∈ cs) as Hrin.
  { pose proof (r_loop_elem _ _ _ _ _ _ Hr) as Hr'.
    apply elem_of_cons in Hr' as [->|Hr']; [by eapply list_elem_of_lookup_2|].
    rewrite elem_of_reverse in Hr'. by eapply subseteq_take. }
  assert (Block_contains text l = true) as Hl.
  { destruct (Block_contains text l) eqn:E; [done|].
    by rewrite (Hnone eq_refl r Hrin) in Hif. }
  apply list_elem_of_lookup_1 in Hin as [p Hp].
  assert (Block_contains text r = true) as Hrt.
  { apply (r_loop_found text cs l p (length cs - 1) r0 r Hd Hp Hl Hq);
      [|done].
    apply lookup_lt_Some in Hp. lia. }
  unfold anchors_present, Block_contains at 3. by rewrite Hl, Hrt, Hdin.
Qed.

Lemma complex_outer_terminates fuel f d text sigs :
  distinct_blocks (constants (signals f)) = true →
  Block_len text < fuel →
  terminates (complex_outer fuel f d text sigs).
Proof.
  intros Hd. revert text sigs.
  induction fuel as [|fuel IH]; intros text sigs Hlen; [lia|].
  cbn [complex_outer]. destruct (Block_nonempty text); [|done].
  apply bind_terminates; [apply py_nth_terminates|]. intros l0 Hl0.
  apply bind_terminates; [apply py_nth_terminates|]. intros r0 Hr0.
  apply bind_terminates; [apply r_loop_terminates|]. intros r Hr.
  destruct (_ || _ || _) eqn:Hif.
  - apply bind_terminates; [apply Block_split_terminates | done].
  - pose proof (anchors_found _ _ _ _ _ _ Hd Hl0 Hr0 Hr Hif) as Hpresent.
    destruct (complex_inner_terminates (S fuel) (l_loop text l0
                (drop 1 (constants (signals f)))) r d text sigs) as [Ht Hs];
      [done|].
    apply bind_terminates; [done|]. intros [[text' sigs'] fin] Hin.
    destruct fin; [done|].
    destruct (Hs _ _ Hin) as [_ Hlt]. apply IH. specialize (Hlt Hpresent). lia.
Qed.

(** C8, as the code has it: for a template compiled from a paragraph of
    different [Char] objects, the complex split ends on every text and
    every delimiter, with a list of signals or with an exception, once the
    fuel exceeds the length of the text.  Every turn of the inner loop either leaves a strictly
    shorter text or leaves the text as it was, and then the progress check
    sets [finished]: the loops end and the collected signals are returned
    as they are, without a direct split of what remains. *)
Theorem complex_split_terminates
    (fuel0 next : nat) (raw : Block) (f : Formatter)
    (fuel : nat) (delim text : Block) :
  Formatter_init fuel0 next raw = Ok f →
  fresh_below next (oid <$> chars raw) →
  Block_len text < fuel →
  ((∃ sigs, complex_parse_into_signals fuel f delim text = Ok sigs)
   ∨ (∃ e, complex_parse_into_signals fuel f delim text = Raise e))
  ∧ (∀ n l r t sigs piece t',
       anchors_present l r delim t = true →
       complex_step l r delim t = Ok (piece, t') →
       (Block_len t' < Block_len t
        ∧ complex_inner (S n) l r delim t sigs
          = complex_inner n l r delim t' (sigs ++ [piece]))
       ∨ (t' = Block_copy t
          ∧ complex_inner (S n) l r delim t sigs
            = Ok (t', sigs ++ [piece], true)))
  ∧ (∀ n t sigs l0 r0 r t' sigs',
       Block_nonempty t = true →
       py_nth (constants (signals f)) 0 = Ok l0 →
       py_nth (constants (signals f)) (-1) = Ok r0 →
       let cs := constants (signals f) in
       let l := l_loop t l0 (drop 1 cs) in
       r_loop t cs l r0 (reverse (take (length cs - 1) cs)) = Ok r →
       anchors_present l r delim t = true →
       (Block_eq l delim && Block_eq r delim) = false →
       complex_inner (S n) l r delim t sigs = Ok (t', sigs', true) →
       complex_outer (S n) f delim t sigs = Ok sigs').
Proof.
  intros Hf Hfresh Hlen.
  pose proof (compiled_constants_distinct _ _ _ _ Hf Hfresh) as Hd.
  split_and!.
  - pose proof (complex_outer_terminates fuel f delim text [] Hd Hlen) as Ht.
    unfold complex_parse_into_signals.
    destruct (complex_outer fuel f delim text []); [left | right | done];
      eauto.
  - intros n l r t sigs piece t' Hpresent Hstep.
    cbn [complex_inner]. fold (anchors_present l r delim t).
    rewrite Hpresent, Hstep. res_simpl.
    apply complex_step_text in Hstep as ->.
    destruct (Block_eq _ _) eqn:Heq.
    + right. split; [by apply no_progress | done].
    + left. split; [by apply progress_check | done].
  - intros n t sigs l0 r0 r t' sigs' Hne Hl0 Hr0 cs l Hr Hpresent Hneq Hin.
    subst cs l.
    cbn [complex_outer]. rewrite Hne, Hl0. res_simpl.
    rewrite Hr0. res_simpl. rewrite Hr. res_simpl.
    unfold anchors_present in Hpresent.
    apply andb_true_iff in Hpresent as [[Hl Hrt]%andb_true_iff Hdt].
    rewrite Hl, Hrt, Hneq. cbn [negb andb orb].
    unfold Block_contains in Hdt. rewrite str_in_count, Hdt.
    cbn [negb andb orb]. rewrite Hin. by res_simpl.
Qed.

(** The template "%c, %i" with the delimiter ", " takes the complex path;
    the text "1, 2, 3, 4." has eleven characters. *)
Lemma complex_split_terminates_witness :
  (∃ sigs, complex_parse_into_signals 12 pairs_formatter
             (delimiter pairs_formatter) (paragraph 200 "1, 2, 3, 4.")
           = Ok sigs)
  ∨ (∃ e, complex_parse_into_signals 12 pairs_formatter
            (delimiter pairs_formatter) (paragraph 200 "1, 2, 3, 4.")
          = Raise e).
Proof.
  apply (complex_split_terminates 8 100 (paragraph 0 "H /%c, %i/, /.")
           pairs_formatter 12
           (delimiter pairs_formatter) (paragraph 200 "1, 2, 3, 4.")).
  - vm_compute. reflexivity.
  - split; apply (bool_decide_unpack _); vm_compute; exact I.
  - vm_compute. lia.
Defined.

(** C8, as it is stated, fails for the template "H /a%c//" on the text
    "ba".  The effective delimiter is empty and the first turn of the
    inner loop takes the empty slice: no progress is made, and the
    function returns that single empty signal.  No direct split of the
    remaining text follows; it would raise [ValueError]. *)
Lemma no_fallback_split_without_progress :
  let f := tail_formatter in
  let text := paragraph 200 "ba" in
  ∃ a, constants (signals f) = [a]
       ∧ effective_delimiter 300 f = Ok (delimiter f)
       ∧ complex_step a a (delimiter f) text = Ok (Block_empty, Block_copy text)
       ∧ split_into_signals 8 300 f text = Ok [Block_empty]
       ∧ Block_split text (delimiter f) = Raise ValueError.
Proof.
  eexists. split; [reflexivity|]. split_and!; vm_compute; reflexivity.
Qed.

(** ** Concatenation of blocks *)

(** C10: [a + b] keeps the characters of both operands in order, and the
    result is neither optional nor variable whatever the flags of the
    operands are. *)
Theorem Block_add_drops_flags (a b : Block) :
  chars (Block_add a b) = chars a ++ chars b
  ∧ Block_text (Block_add a b) = Block_text a ++ Block_text b
  ∧ optional (Block_add a b) = false
  ∧ variable (Block_add a b) = Some false.
Proof.
  unfold Block_add, Block_text; simpl.
  by rewrite fmap_app.
Qed.

(** ** Splitting a block *)

(** C9: on the text "a;" and the delimiter ";" the string split gives the
    fragments "a" and "", and [Block.split] raises [IndexError] when it
    reads the first character of the empty fragment. *)
Theorem Block_split_trailing_delimiter :
  str_split (lit "a;") (lit ";") = Ok [lit "a"; lit ""]
  ∧ Block_split (paragraph 0 "a;") (paragraph 2 ";") = Raise IndexError.
Proof. split; vm_compute; reflexivity. Qed.

(** ** Splicing *)

(** C6: for the signal template "a*b*c" the fullest hypothesis keeps two
    neighbouring constant blocks, "ab" and "c": the place holder written
    at index 1 stops the third block from being spliced. *)
Theorem splice_leaves_equal_neighbours :
  (f ← Formatter_init 8 100 (paragraph 0 "H /a*b*c//");
   Ok (texts_of (signals f), map (map flags_of) (hypotheses f)))
  = Ok (["a"; ""; "b"; ""; "c"]%string,
        [ [ [("ab", Some false); ("c", Some false)] ];
          [ [("ac", Some false)] ] ]%string).
Proof. vm_compute; reflexivity. Qed.

(** ** Re-splitting a signal *)

(** C7: with the signal template "%c (%i H)" and the delimiter ", " the
    text "1 (2 H), 3 (4 H)." gives the signal "1 (2 H)"; that signal, which
    holds no " H), ", is not returned unchanged when it is split again:
    the closing constant " H)" is compared with the last character only
    and is attached a second time. *)
Theorem resplit_attaches_constant_again :
  (f ← Formatter_init 8 100 (paragraph 0 "H /%c (%i H)/, /.");
   d ← effective_delimiter 200 f;
   s1 ← split_into_signals 8 200 f (paragraph 300 "1 (2 H), 3 (4 H).");
   s2 ← split_into_signals 8 200 f (paragraph 400 "1 (2 H)");
   Ok (show d, map show s1, map show s2))
  = Ok (" H), ", ["1 (2 H)"; "3 (4 H) H)"], ["1 (2 H) H)"])%string.
Proof. vm_compute; reflexivity. Qed.

(** ** Template errors *)

(** C4: two malformed templates that compile.  In "/a// " nothing stands
    before the first "/": index -1 reads the last character, a space.
    In "H /%c %C//" the code "%c" is used twice: the key is lowered before
    it is counted in the raw template. *)
Theorem malformed_templates_compile :
  (f ← Formatter_init 8 100 (paragraph 0 "/a// ");
   Ok (texts_of (head f), texts_of (signals f), show (end_ f)))
  = Ok ([], ["a"], " ")%string
  ∧ (f ← Formatter_init 8 100 (paragraph 0 "H /%c %C//");
     Ok (flags_of (signals f)))
    = Ok [("%c", Some true); (" ", Some false); ("%c", Some true)]%string.
Proof. split; vm_compute; reflexivity. Qed.

(** ** Scores of the matcher *)

(** C2: the template "x%c*a%i**b%m*" has the group of one optional piece
    [x %c a %i], [x %c b %m].  On the signal "xbbaaa" the fullest
    hypothesis is invalid, neither hypothesis of the group is exact, their
    total penalties are 2 and 1, and the matcher returns the first one:
    every partial sum is appended to [scores], so the index of the minimum
    is not the index of a hypothesis. *)
Theorem match_returns_larger_penalty :
  (f ← Formatter_init 8 100 (paragraph 0 "H /x%c*a%i**b%m*/; /.");
   let signal := paragraph 200 "xbbaaa" in
   g ← of_option IndexError (hypotheses f !! 1);
   r ← scan_group signal g [];
   p ← mapM (total_penalty signal) g;
   full ← mapM (total_penalty signal) (concat (take 1 (hypotheses f)));
   h ← match_hypothesis (hypotheses f) signal;
   Ok (map texts_of g, full, scores_of r, p, texts_of h))
  = Ok ([["x"; "%c"; "a"; "%i"]; ["x"; "%c"; "b"; "%m"]]%string,
        [None],
        Some [0; 2; 0; 1]%Z,
        [Some 2; Some 1]%Z,
        ["x"; "%c"; "a"; "%i"]%string).
Proof. vm_compute; reflexivity. Qed.

(** * Further properties of the code *)

(** ** [Block.split] *)

Lemma split_from_nonempty sep skip cur s : split_from sep skip cur s ≠ [].
Proof.
  revert skip cur. induction s as [|c s IH]; intros skip cur; [done|].
  cbn [split_from]. destruct skip; [|apply IH].
  destruct (starts_with sep (c :: s)); [done | apply IH].
Qed.

(** Joining the fragments of [str.split] gives the string back. *)
Lemma split_from_join sep skip cur s :
  sep ≠ [] →
  str_join sep (split_from sep skip cur s) = reverse cur ++ drop skip s.
Proof.
  intros Hsep. revert skip cur.
  induction s as [|c s IH]; intros skip cur.
  - simpl. by rewrite drop_nil.
  - cbn [split_from]. destruct skip as [|k].
    + destruct (starts_with sep (c :: s)) eqn:E.
      * apply starts_with_spec in E as [rest E].
        cbn [str_join fmap list_fmap concat].
        specialize (IH (length sep - 1) []).
        unfold str_join in IH.
        destruct (split_from sep (length sep - 1) [] s) as [|f l] eqn:Es.
        { by apply split_from_nonempty in Es. }
        cbn [fmap list_fmap concat]. rewrite <- (app_assoc sep f), IH.
        rewrite reverse_nil. cbn [app].
        rewrite drop_0, E. f_equal.
        destruct sep as [|a sep]; [done|].
        injection E as -> ->. simpl. rewrite Nat.sub_0_r.
        by rewrite drop_app_length.
      * rewrite IH. rewrite reverse_cons, <- app_assoc. done.
    + rewrite IH. done.
Qed.

(** The text of a string that [sep] does not occur in is one fragment. *)
Lemma split_from_absent sep cur s :
  count_from sep 0 s = 0 → split_from sep 0 cur s = [reverse cur ++ s].
Proof.
  revert cur. induction s as [|c s IH]; intros cur Hc.
  - simpl. by rewrite app_nil_r.
  - cbn [split_from count_from] in *.
    destruct (starts_with sep (c :: s)); [done|].
    rewrite IH by done. by rewrite reverse_cons, <- app_assoc.
Qed.

Lemma Block_split_loop_one (cs pre : list Char) (frag : pystr) :
  cs ≠ [] → frag = str <$> (pre ++ cs) →
  Block_split_loop cs [frag] 0 (length pre) pre []
  = Ok [Block_of_chars (pre ++ cs)].
Proof.
  revert pre. induction cs as [|c cs IH]; intros pre Hne Hfrag; [done|].
  assert (frag !! length pre = Some (str c)) as Hk.
  { rewrite Hfrag, fmap_app, fmap_cons.
    apply list_lookup_middle. by rewrite length_fmap. }
  assert (length frag = length pre + S (length cs)) as Hlen.
  { rewrite Hfrag, length_fmap, length_app. done. }
  cbn [Block_split_loop]. change ([frag] !! 0) with (Some frag).
  res_simpl. unfold pystr in *. rewrite Hk. res_simpl. rewrite bool_decide_true by done.
  destruct cs as [|c' cs].
  - rewrite bool_decide_true by (simpl in Hlen; lia). done.
  - rewrite bool_decide_false by (simpl in Hlen; lia).
    replace (S (length pre)) with (length (pre ++ [c]))
      by (rewrite length_app; simpl; lia).
    rewrite IH; [by rewrite <- app_assoc | done |].
    by rewrite <- app_assoc.
Qed.

Lemma Block_split_absent (b d : Block) :
  Block_text d ≠ [] →
  Block_contains b d = false →
  Block_split b d = Ok (if Block_nonempty b then [Block_copy b] else []).
Proof.
  intros Hd Hc. unfold Block_split, str_split.
  destruct (Block_text d) as [|a sep] eqn:Ed; [done|]. res_simpl.
  unfold Block_contains in Hc. rewrite Ed in Hc.
  apply bool_decide_eq_false in Hc. unfold str_count in Hc.
  rewrite split_from_absent by lia. simpl.
  unfold Block_nonempty, Block_copy, Block_text.
  destruct (chars b) as [|c cs] eqn:Eb; [done|].
  by apply (Block_split_loop_one (c :: cs) []).
Qed.

(** X1: when the text of the delimiter is not empty and does not occur in the
    block, [Block.split] returns the whole block as its only fragment, a
    copy without the flags; an empty block gives no fragment at all. *)
Theorem Block_split_without_delimiter (b d : Block) :
  Block_text d ≠ [] →
  Block_contains b d = false →
  Block_split b d = Ok (if Block_nonempty b then [Block_copy b] else []).
Proof. apply Block_split_absent. Qed.

(** The record 1.5 (2H) holds no semicolon. *)
Lemma Block_split_without_delimiter_witness :
  Block_split (paragraph 0 "1.5 (2H)") (paragraph 10 "; ")
  = Ok [Block_copy (paragraph 0 "1.5 (2H)")].
Proof.
  apply (Block_split_without_delimiter (paragraph 0 "1.5 (2H)") (paragraph 10 "; ")).
  - vm_compute. discriminate.
  - vm_compute. reflexivity.
Defined.

(** The loop of [Block.split] raises nothing but [IndexError]. *)
Lemma Block_split_loop_raises cs sl j k _chars texts e :
  Block_split_loop cs sl j k _chars texts = Raise e → e = IndexError.
Proof.
  revert j k _chars texts. induction cs as [|c cs IH]; intros j k _chars texts.
  - done.
  - cbn [Block_split_loop].
    destruct (sl !! j) as [frag|]; res_simpl; [|congruence].
    destruct (frag !! k) as [ch|]; res_simpl; [|congruence].
    destruct (bool_decide (str c = ch)); case_bool_decide; apply IH.
Qed.

Lemma Block_split_loop_fuel cs sl j k _chars texts :
  Block_split_loop cs sl j k _chars texts ≠ OutOfFuel.
Proof.
  revert j k _chars texts. induction cs as [|c cs IH]; intros j k _chars texts.
  - done.
  - cbn [Block_split_loop].
    destruct (sl !! j) as [frag|]; res_simpl; [|congruence].
    destruct (frag !! k) as [ch|]; res_simpl; [|congruence].
    destruct (bool_decide (str c = ch)); case_bool_decide; apply IH.
Qed.

(** The greedy scan of [Block.split]: what is still to be matched, the
    rest of the fragment [j] and the later fragments with the separator
    before each, lies in what is left of the text. *)
Lemma Block_split_loop_fragments sep sl cs j k _chars texts out :
  sep ≠ [] →
  Block_split_loop cs sl j k _chars texts = Ok out →
  match sl !! j with
  | Some frag =>
      (drop k frag ++ concat ((sep ++.) <$> drop (S j) sl))
        `sublist_of` (str <$> cs)
      ∧ (k < length frag ∨ (k = 0 ∧ cs ≠ []))
      ∧ str <$> _chars = take k frag
  | None => j = length sl
  end →
  Block_text <$> texts = take j sl →
  Forall (λ t, chars t ≠ []) texts →
  Block_text <$> out = sl ∧ Forall (λ t, chars t ≠ []) out.
Proof.
  intros Hsep. revert j k _chars texts. unfold pystr in *.
  induction cs as [|c cs IH]; intros j k _chars texts Hrun Hinv Htexts Hne.
  - injection Hrun as <-. split; [|done].
    destruct (sl !! j) as [frag|] eqn:Ej.
    + destruct Hinv as (Hsub & [Hk|[_ ?]] & _); [|done].
      apply sublist_nil_r in Hsub. apply app_eq_nil in Hsub as [Hd _].
      apply (f_equal length) in Hd. rewrite length_drop in Hd. simpl in Hd. lia.
    + subst j. by rewrite firstn_all in Htexts.
  - cbn [Block_split_loop] in Hrun. unfold pystr in *.
    destruct (sl !! j) as [frag|] eqn:Ej; res_simpl_in Hrun; [|done].
    destruct (frag !! k) as [ch|] eqn:Ek; res_simpl_in Hrun; [|done].
    destruct Hinv as (Hsub & _ & Hchars).
    apply lookup_lt_Some in Ek as Hk.
    rewrite (drop_S _ _ _ Ek) in Hsub. rewrite fmap_cons in Hsub.
    cbn [app] in Hsub.
    destruct (bool_decide (str c = ch)) eqn:Ec.
    + apply bool_decide_eq_true in Ec. subst ch.
      assert ((drop (S k) frag ++ concat ((sep ++.) <$> drop (S j) sl))
                `sublist_of` (str <$> cs)) as Hsub'.
      { apply sublist_cons_l in Hsub as (k1 & k2 & Hk12 & Hs).
        destruct k1 as [|x k1]; simpl in Hk12.
        - injection Hk12 as ->. done.
        - injection Hk12 as _ ->. etrans; [exact Hs|].
          apply sublist_inserts_l. by apply sublist_cons. }
      assert (str <$> _chars ++ [c] = take (S k) frag) as Hchars'.
      { rewrite fmap_app, Hchars. by rewrite (take_S_r _ _ _ Ek). }
      case_bool_decide as Hflush.
      * eapply IH; [exact Hrun | | |].
        -- destruct (sl !! S j) as [frag'|] eqn:Ej'.
           ++ rewrite (drop_ge frag) in Hsub' by lia. cbn [app] in Hsub'.
              rewrite (drop_S _ _ _ Ej') in Hsub'.
              rewrite fmap_cons in Hsub'. cbn [concat] in Hsub'.
              rewrite <- app_assoc in Hsub'. split_and!.
              ** rewrite drop_0. etrans; [|exact Hsub'].
                 by apply sublist_inserts_l.
              ** right. split; [done|]. intros ->.
                 apply sublist_nil_r in Hsub'.
                 apply app_eq_nil in Hsub' as [? _]. done.
              ** done.
           ++ apply lookup_ge_None in Ej'. apply lookup_lt_Some in Ej. lia.
        -- rewrite fmap_app, Htexts. cbn [fmap list_fmap].
           rewrite (take_S_r _ _ _ Ej). do 2 f_equal.
           unfold Block_text. cbn [chars Block_of_chars].
           rewrite Hchars', Hflush. apply firstn_all.
        -- apply Forall_app. split; [done|]. apply Forall_singleton.
           simpl. by destruct _chars.
      * eapply IH; [exact Hrun | | done | done].
        rewrite Ej. split_and!; [done | left; lia | done].
    + apply bool_decide_eq_false in Ec.
      assert ((ch :: drop (S k) frag ++ concat ((sep ++.) <$> drop (S j) sl))
                `sublist_of` (str <$> cs)) as Hsub'.
      { apply sublist_cons_l in Hsub as (k1 & k2 & Hk12 & Hs).
        destruct k1 as [|x k1]; simpl in Hk12.
        - injection Hk12 as ? ?. done.
        - injection Hk12 as _ ->. apply sublist_inserts_l.
          by apply sublist_skip. }
      rewrite bool_decide_false in Hrun by lia.
      eapply IH; [exact Hrun | | done | done].
      rewrite Ej. split_and!; [|left; lia|done].
      by rewrite (drop_S _ _ _ Ek).
Qed.

Lemma Block_split_texts (b d : Block) (texts : list Block) :
  Block_split b d = Ok texts →
  chars b ≠ [] →
  str_split (Block_text b) (Block_text d) = Ok (Block_text <$> texts)
  ∧ Forall (λ t, chars t ≠ []) texts.
Proof.
  unfold Block_split, str_split. intros Hrun Hb.
  destruct (Block_text d) as [|a sep] eqn:Ed; [done|]. res_simpl_in Hrun.
  set (sl := split_from (a :: sep) 0 [] (Block_text b)) in *.
  destruct (Block_split_loop_fragments (a :: sep) sl _ _ _ _ _ _
              ltac:(done) Hrun) as [Ht Hne]; [| done | done |].
  - pose proof (split_from_join (a :: sep) 0 [] (Block_text b) ltac:(done))
      as Hjoin.
    fold sl in Hjoin. rewrite drop_0 in Hjoin. cbn [reverse app] in Hjoin.
    destruct sl as [|frag sl'] eqn:Esl.
    { by apply split_from_nonempty in Esl. }
    cbn [lookup list_lookup]. split_and!; [|right; done|done].
    rewrite drop_0. cbn [drop]. rewrite drop_0. unfold str_join in Hjoin.
    rewrite Hjoin. done.
  - by rewrite Ht.
Qed.

(** X2: whenever [Block.split] returns on a block that is not empty, the
    texts of the returned blocks are exactly the fragments of [str.split],
    in order, and none of them is empty. *)
Theorem Block_split_fragments (b d : Block) (texts : list Block) :
  Block_split b d = Ok texts →
  chars b ≠ [] →
  str_split (Block_text b) (Block_text d) = Ok (Block_text <$> texts)
  ∧ Forall (λ t, chars t ≠ []) texts.
Proof. apply Block_split_texts. Qed.

(** The two records of the text 1 (2), 3 (4). *)
Lemma Block_split_fragments_witness :
  str_split (lit "1 (2), 3 (4)") (lit "), ")
  = Ok (Block_text <$> [Block_slice (paragraph 0 "1 (2), 3 (4)") 0 4;
                        Block_slice (paragraph 0 "1 (2), 3 (4)") 7 12])
  ∧ Forall (λ t, chars t ≠ [])
      [Block_slice (paragraph 0 "1 (2), 3 (4)") 0 4;
       Block_slice (paragraph 0 "1 (2), 3 (4)") 7 12].
Proof.
  apply (Block_split_fragments (paragraph 0 "1 (2), 3 (4)") (paragraph 20 "), ")).
  - vm_compute. reflexivity.
  - vm_compute. discriminate.
Defined.

(** X3: joining the texts of the blocks that [Block.split] returns on a
    block that is not empty with the text of the delimiter gives the text
    of the block back. *)
Theorem Block_split_join (b d : Block) (texts : list Block) :
  Block_split b d = Ok texts →
  chars b ≠ [] →
  str_join (Block_text d) (Block_text <$> texts) = Block_text b.
Proof.
  intros Hrun Hb. destruct (Block_split_texts b d texts Hrun Hb) as [Ht _].
  unfold str_split in Ht. destruct (Block_text d) as [|a sep] eqn:Ed; [done|].
  injection Ht as <-. rewrite split_from_join by done.
  by rewrite drop_0.
Qed.

(** The two records of the text 1 (2), 3 (4). *)
Lemma Block_split_join_witness :
  str_join (lit "), ")
    (Block_text <$> [Block_slice (paragraph 0 "1 (2), 3 (4)") 0 4;
                     Block_slice (paragraph 0 "1 (2), 3 (4)") 7 12])
  = lit "1 (2), 3 (4)".
Proof.
  apply (Block_split_join (paragraph 0 "1 (2), 3 (4)") (paragraph 20 "), ")).
  - vm_compute. reflexivity.
  - vm_compute. discriminate.
Defined.

(** X4: when [str.split] yields an empty fragment, as it does for a text
    that starts or ends with the delimiter or holds it twice in a row,
    [Block.split] raises [IndexError] on a block that is not empty. *)
Theorem Block_split_empty_fragment (b d : Block) (sl : list pystr) :
  str_split (Block_text b) (Block_text d) = Ok sl →
  [] ∈ sl →
  chars b ≠ [] →
  Block_split b d = Raise IndexError.
Proof.
  intros Hsl Hin Hb.
  destruct (Block_split b d) as [texts|e|] eqn:Hrun.
  - destruct (Block_split_texts b d texts Hrun Hb) as [Ht Hne].
    rewrite Hsl in Ht. injection Ht as ->.
    apply list_elem_of_fmap in Hin as (t & Ht & Hin).
    rewrite Forall_forall in Hne. specialize (Hne t Hin).
    unfold Block_text in Ht. symmetry in Ht. apply fmap_nil_inv in Ht. done.
  - f_equal. unfold Block_split in Hrun. rewrite Hsl in Hrun.
    res_simpl_in Hrun. by apply Block_split_loop_raises in Hrun.
  - unfold Block_split in Hrun. rewrite Hsl in Hrun.
    res_simpl_in Hrun. by apply Block_split_loop_fuel in Hrun.
Qed.

(** The delimiter stands twice in a row. *)
Lemma Block_split_empty_fragment_witness :
  Block_split (paragraph 0 "1; ; 2") (paragraph 10 "; ") = Raise IndexError.
Proof.
  apply (Block_split_empty_fragment _ _ [lit "1"; lit ""; lit "2"]).
  - vm_compute. reflexivity.
  - apply (bool_decide_unpack _). vm_compute. reflexivity.
  - vm_compute. discriminate.
Defined.


Lemma Block_split_loop_chars cs sl j k _chars texts out :
  Block_split_loop cs sl j k _chars texts = Ok out →
  Forall (λ t, optional t = false ∧ variable t = Some false) texts →
  concat (chars <$> out) `sublist_of` concat (chars <$> texts) ++ _chars ++ cs
  ∧ Forall (λ t, optional t = false ∧ variable t = Some false) out.
Proof.
  revert j k _chars texts.
  induction cs as [|c cs IH]; intros j k _chars texts Hrun Hfl.
  - injection Hrun as <-. split; [|done]. by apply sublist_inserts_r.
  - cbn [Block_split_loop] in Hrun.
    destruct (sl !! j) as [frag|]; res_simpl_in Hrun; [|done].
    destruct (frag !! k) as [ch|]; res_simpl_in Hrun; [|done].
    assert (∀ cs0, Forall (λ t, optional t = false ∧ variable t = Some false)
                     (texts ++ [Block_of_chars cs0])) as Hfl'.
    { intros cs0. apply Forall_app. split; [done|]. by apply Forall_singleton. }
    destruct (bool_decide (str c = ch)); case_bool_decide.
    + destruct (IH _ _ _ _ Hrun (Hfl' _)) as [Hs Hf]. split; [|done].
      rewrite fmap_app, concat_app in Hs. cbn in Hs.
      rewrite !app_nil_r, <- !app_assoc in Hs. done.
    + destruct (IH _ _ _ _ Hrun Hfl) as [Hs Hf]. split; [|done].
      by rewrite <- app_assoc in Hs.
    + destruct (IH _ _ _ _ Hrun (Hfl' _)) as [Hs Hf]. split; [|done].
      rewrite fmap_app, concat_app in Hs. cbn in Hs.
      rewrite !app_nil_r, <- app_assoc in Hs. etrans; [exact Hs|].
      apply sublist_app; [done|]. apply sublist_app; [done|].
      by apply sublist_cons.
    + destruct (IH _ _ _ _ Hrun Hfl) as [Hs Hf]. split; [|done].
      etrans; [exact Hs|].
      apply sublist_app; [done|]. apply sublist_app; [done|].
      by apply sublist_cons.
Qed.

(** X5: the blocks that [Block.split] returns are made of characters of the
    block itself, in their order, and none of them is optional or
    variable. *)
Theorem Block_split_keeps_characters (b d : Block) (texts : list Block) :
  Block_split b d = Ok texts →
  concat (chars <$> texts) `sublist_of` chars b
  ∧ Forall (λ t, optional t = false ∧ variable t = Some false) texts.
Proof.
  unfold Block_split. intros Hrun.
  apply bind_inv_Ok in Hrun as (sl & _ & Hrun).
  by apply Block_split_loop_chars in Hrun.
Qed.

(** The two records of the text 1 (2), 3 (4). *)
Lemma Block_split_keeps_characters_witness :
  concat (chars <$> [Block_slice (paragraph 0 "1 (2), 3 (4)") 0 4;
                     Block_slice (paragraph 0 "1 (2), 3 (4)") 7 12])
    `sublist_of` chars (paragraph 0 "1 (2), 3 (4)")
  ∧ Forall (λ t, optional t = false ∧ variable t = Some false)
      [Block_slice (paragraph 0 "1 (2), 3 (4)") 0 4;
       Block_slice (paragraph 0 "1 (2), 3 (4)") 7 12].
Proof.
  apply (Block_split_keeps_characters
           (paragraph 0 "1 (2), 3 (4)") (paragraph 20 "), ")).
  vm_compute. reflexivity.
Defined.

(** ** Identity of blocks *)

(** X6: two blocks built from strings by separate calls never compare
    equal, whatever their texts and flags are, unless the first is empty:
    [Block.__eq__] compares the [Char] objects, and [Char.__eq__] is the
    identity of objects. *)
Theorem Block_eq_separately_built (n m : nat) (s t : pystr)
    (o o' : bool) (v v' : option bool) :
  s ≠ [] → n ≠ m →
  Block_eq (Block_of_str n s o v) (Block_of_str m t o' v') = false.
Proof.
  intros Hs Hnm. apply not_true_is_false. rewrite Block_eq_key.
  unfold Block_key, Block_of_str. cbn [chars]. intros [= Hoid _ _].
  destruct s as [|a s]; [done|]. destruct t as [|a' t]; [done|].
  simpl in Hoid. congruence.
Qed.

(** Two blocks with the text ab. *)
Lemma Block_eq_separately_built_witness :
  Block_eq (Block_of_str 0 (lit "ab") false (Some false))
           (Block_of_str 2 (lit "ab") false (Some false)) = false.
Proof.
  apply Block_eq_separately_built; [vm_compute; discriminate | lia].
Defined.

(** ** [Formatter._parse] *)

(** An invariant of the loop of [Formatter._parse] is kept by its four
    branches: the end of the text, a plain character, a code and a
    toggle. *)
Lemma parse_loop_invariant (raw : Block)
    (P : list Char → list Char → bool → list Block → nat → Prop)
    (Q : list Block → nat → Prop) :
  (∀ _text opt lp next, P [] _text opt lp next → Q (flush _text opt lp) next) →
  (∀ c rest _text opt lp next,
     str c ≠ "%"%char → str c ≠ "*"%char →
     P (c :: rest) _text opt lp next → P rest (_text ++ [c]) opt lp next) →
  (∀ c c1 rest _text opt lp next,
     str c = "%"%char →
     let _key := ["%"%char; lower (str c1)] in
     match last (flush _text opt lp) with
     | Some b => str_in (lit "%") (Block_text b) = false
     | None => True
     end →
     CUES !! _key ≠ None →
     P (c :: c1 :: rest) _text opt lp next →
     P rest [] opt
       (flush _text opt lp ++ [Block_of_str next _key opt (Some true)])
       (next + 2)) →
  (∀ c rest _text opt lp next,
     str c = "*"%char →
     P (c :: rest) _text opt lp next →
     P rest [] (negb opt)
       (flush _text opt lp ++ [mkBlock [] (negb opt) (Some false)]) next) →
  ∀ unparsed _text opt lp next out next',
    P unparsed _text opt lp next →
    parse_loop raw unparsed _text opt lp next = Ok (out, next') →
    Q out next'.
Proof.
  intros Hend Hplain Hkey Htoggle unparsed.
  remember (length unparsed) as n eqn:Hn.
  assert (length unparsed ≤ n) as Hle by lia. clear Hn.
  revert unparsed Hle.
  induction n as [|n IH]; intros unparsed Hle _text opt lp next out next' HP Hrun.
  - destruct unparsed; [|simpl in Hle; lia]. injection Hrun as <- <-.
    by apply Hend.
  - destruct unparsed as [|c rest].
    { injection Hrun as <- <-. by apply Hend. }
    cbn [parse_loop] in Hrun. unfold Char_eq_str in Hrun.
    simpl in Hle.
    destruct (decide ("%"%char = str c)) as [Hc|Hc].
    + rewrite (bool_decide_true _ Hc) in Hrun. cbn [negb andb] in Hrun.
      destruct rest as [|c1 rest']; [done|].
      case_bool_decide; [done|].
      destruct (match last (flush _text opt lp) with
                | Some b => str_in (lit "%") (Block_text b)
                | None => false
                end) eqn:El; [done|].
      case_bool_decide as Hcue; [done|].
      eapply (IH rest'); [simpl in Hle; lia | | exact Hrun].
      apply (Hkey c c1); [done | | done | done].
      destruct (last (flush _text opt lp)); done.
    + rewrite (bool_decide_false _ Hc) in Hrun. cbn [negb andb] in Hrun.
      destruct (decide ("*"%char = str c)) as [Hs|Hs].
      * rewrite (bool_decide_true _ Hs) in Hrun. cbn [negb] in Hrun.
        eapply (IH rest); [lia | | exact Hrun]. by apply (Htoggle c).
      * rewrite (bool_decide_false _ Hs) in Hrun. cbn [negb] in Hrun.
        eapply (IH rest); [lia | | exact Hrun]. by apply Hplain.
Qed.

Lemma compiled_block_flush _text opt lp :
  Forall (λ c, str c ≠ "%"%char ∧ str c ≠ "*"%char) _text →
  Forall compiled_block lp →
  Forall compiled_block (flush _text opt lp).
Proof.
  intros Ht Hlp. unfold flush. destruct _text as [|c t] eqn:E; [done|].
  rewrite <- E in *. clear E.
  apply Forall_app. split; [done|]. apply Forall_singleton.
  unfold compiled_block, is_variable, Block_text. cbn [variable chars].
  split; intros (x & Hx & Hin)%list_elem_of_fmap;
    rewrite Forall_forall in Ht; destruct (Ht x Hin); congruence.
Qed.

(** X7: every block that [Formatter._parse] returns is either a code, the
    percent sign and one more character, that [CUES] knows, or a constant
    that holds neither the percent sign nor the star. *)
Theorem parsed_blocks_are_compiled (raw unparsed : Block) (next : nat)
    (bs : list Block) (next' : nat) :
  Formatter_parse raw unparsed next = Ok (bs, next') →
  Forall compiled_block bs.
Proof.
  unfold Formatter_parse.
  apply (parse_loop_invariant raw
           (λ _ _text _ lp _,
              Forall (λ c, str c ≠ "%"%char ∧ str c ≠ "*"%char) _text
              ∧ Forall compiled_block lp)
           (λ out _, Forall compiled_block out)).
  - intros _text opt lp n [Ht Hlp]. by apply compiled_block_flush.
  - intros c rest _text opt lp n Hc1 Hc2 [Ht Hlp]. split; [|done].
    apply Forall_app. split; [done|]. by apply Forall_singleton.
  - intros c c1 rest _text opt lp n Hc _key Hlast Hcue [Ht Hlp].
    split; [done|]. apply Forall_app. split.
    + by apply compiled_block_flush.
    + apply Forall_singleton. unfold compiled_block. cbn.
      split; [by eexists|]. destruct (CUES !! _key) eqn:E; [by eexists|done].
  - intros c rest _text opt lp n Hc [Ht Hlp]. split; [done|].
    apply Forall_app. split; [by apply compiled_block_flush|].
    apply Forall_singleton. unfold compiled_block. cbn.
    split; apply not_elem_of_nil.
  - split; done.
Qed.

(** The signal region of a template with three optional pieces. *)
Lemma parsed_blocks_are_compiled_witness :
  Forall compiled_block (section three_options).
Proof.
  apply (parsed_blocks_are_compiled
           (paragraph 0 "H /x%c*a%i**b%m**c%j*/; /.")
           (Block_slice (paragraph 0 "H /x%c*a%i**b%m**c%j*/; /.") 3 21)
           100 _ 108).
  vm_compute. reflexivity.
Defined.

(** *** The text of the blocks *)

Lemma concat_text_flush _text opt lp :
  concat (Block_text <$> flush _text opt lp)
  = concat (Block_text <$> lp) ++ (str <$> _text).
Proof.
  unfold flush. destruct _text as [|c t] eqn:E.
  - by rewrite app_nil_r.
  - rewrite fmap_app, concat_app. cbn. by rewrite app_nil_r.
Qed.

(** The blocks spell the compiled text of the region. *)
Lemma Formatter_parse_text (raw unparsed : Block) (next : nat)
    (bs : list Block) (next' : nat) :
  Formatter_parse raw unparsed next = Ok (bs, next') →
  concat (Block_text <$> bs) = compiled_text (Block_text unparsed).
Proof.
  unfold Formatter_parse. intros Hrun.
  revert Hrun.
  apply (parse_loop_invariant raw
           (λ todo _text _ lp _,
              concat (Block_text <$> lp) ++ (str <$> _text)
                ++ compiled_text (str <$> todo)
              = compiled_text (Block_text unparsed))
           (λ out _, concat (Block_text <$> out)
                     = compiled_text (Block_text unparsed))).
  - intros _text opt lp n HP. rewrite concat_text_flush.
    cbn in HP. by rewrite app_nil_r in HP.
  - intros c rest _text opt lp n Hc1 Hc2 HP. rewrite <- HP.
    cbn [fmap list_fmap compiled_text].
    rewrite !bool_decide_false by done.
    rewrite fmap_app, <- app_assoc. done.
  - intros c c1 rest _text opt lp n Hc _key Hlast Hcue HP. rewrite <- HP.
    cbn [fmap list_fmap compiled_text]. rewrite Hc.
    rewrite bool_decide_false by done. rewrite bool_decide_true by done.
    rewrite fmap_app, concat_app, concat_text_flush. cbn.
    rewrite <- !app_assoc. done.
  - intros c rest _text opt lp n Hc HP. rewrite <- HP.
    cbn [fmap list_fmap compiled_text]. rewrite Hc.
    rewrite bool_decide_true by done.
    rewrite fmap_app, concat_app, concat_text_flush. cbn.
    rewrite <- !app_assoc. done.
  - done.
Qed.

(** *** Neighbouring blocks *)

Lemma neighbours_snoc (l : list Block) (x a b : Block) :
  neighbours (l ++ [x]) a b → neighbours l a b ∨ (last l = Some a ∧ b = x).
Proof.
  intros (pre & post & H).
  destruct post as [|y post _] using rev_ind.
  - right. change (pre ++ [a; b]) with (pre ++ [a] ++ [b]) in H.
    rewrite app_assoc in H. apply app_inj_tail in H as [-> ->].
    by rewrite last_snoc.
  - left. change (pre ++ a :: b :: post ++ [y])
      with (pre ++ (a :: b :: post) ++ [y]) in H.
    rewrite app_assoc in H. apply app_inj_tail in H as [-> _].
    by exists pre, post.
Qed.

(** X8: in the list that [Formatter._parse] returns a code never stands
    immediately before another code, and a constant with characters is
    never followed immediately by another constant with characters. *)
Theorem parsed_neighbours (raw unparsed : Block) (next : nat)
    (bs : list Block) (next' : nat) (a b : Block) :
  Formatter_parse raw unparsed next = Ok (bs, next') →
  neighbours bs a b →
  (is_variable a = true → is_variable b = false)
  ∧ (is_variable a = false → chars a ≠ [] →
     is_variable b = false → chars b = []).
Proof.
  unfold Formatter_parse. intros Hrun. revert a b.
  set (good := λ a b : Block,
         (is_variable a = true → is_variable b = false)
         ∧ (is_variable a = false → chars a ≠ [] →
            is_variable b = false → chars b = [])).
  change (∀ a b, neighbours bs a b → good a b).
  set (ends := λ lp : list Block,
         ∀ a, last lp = Some a → is_variable a = true ∨ chars a = []).
  assert (∀ _text opt lp,
            (∀ a b, neighbours lp a b → good a b) → ends lp →
            ∀ a b, neighbours (flush _text opt lp) a b → good a b) as Hflush.
  { intros _text opt lp Hn He a b. unfold flush.
    destruct _text as [|c t]; [apply Hn|].
    intros [Hab|[Ha ->]]%neighbours_snoc; [by apply Hn|].
    split; [done|]. intros Hva Hca _. destruct (He a Ha); congruence. }
  set (coded := λ b : Block,
         is_variable b = true → ∃ s, Block_text b = "%"%char :: s).
  assert (∀ _text opt lp, Forall coded lp → Forall coded (flush _text opt lp))
    as Hcoded.
  { intros _text opt lp Hlp. unfold flush. destruct _text; [done|].
    apply Forall_app. split; [done|]. by apply Forall_singleton. }
  revert Hrun.
  apply (parse_loop_invariant raw
           (λ _ _ _ lp _,
              Forall coded lp
              ∧ (∀ a b, neighbours lp a b → good a b) ∧ ends lp)
           (λ out _, ∀ a b, neighbours out a b → good a b)).
  - intros _text opt lp n (_ & Hn & He). by apply Hflush.
  - done.
  - intros c c1 rest _text opt lp n Hc _key Hlast Hcue (Hcb & Hn & He).
    split_and!.
    + apply Forall_app. split; [by apply Hcoded|].
      apply Forall_singleton. intros _. by eexists.
    + intros a b [Hab|[Ha ->]]%neighbours_snoc; [by eapply Hflush|].
      rewrite Ha in Hlast. split; [|done]. intros Hva. exfalso.
      apply last_Some in Ha as [l' Ha].
      specialize (Hcoded _text opt lp Hcb). rewrite Ha in Hcoded.
      apply Forall_app in Hcoded as [_ Hcoded].
      rewrite Forall_singleton in Hcoded. destruct (Hcoded Hva) as [s Hs].
      rewrite Hs in Hlast. done.
    + intros a. rewrite last_snoc. intros [= <-]. by left.
  - intros c rest _text opt lp n Hc (Hcb & Hn & He). split_and!.
    + apply Forall_app. split; [by apply Hcoded|].
      by apply Forall_singleton.
    + intros a b [Hab|[Ha ->]]%neighbours_snoc; [by eapply Hflush|].
      split; done.
    + intros a. rewrite last_snoc. intros [= <-]. by right.
  - split_and!; [done | | done].
    intros a b (pre & post & H). by destruct pre.
Qed.

(** The code of the integral and the constant after it. *)
Lemma parsed_neighbours_witness :
  let a := Block_of_str 102 (lit "%i") false (Some true) in
  let b := mkBlock (slice (chars (paragraph 0 "H /%c (%i H)/, /.")) 9 12)
             false (Some false) in
  (is_variable a = true → is_variable b = false)
  ∧ (is_variable a = false → chars a ≠ [] →
     is_variable b = false → chars b = []).
Proof.
  intros a b.
  eapply (parsed_neighbours
            (paragraph 0 "H /%c (%i H)/, /.")
            (Block_slice (paragraph 0 "H /%c (%i H)/, /.") 3 12)
            100 _ 104 a b).
  - vm_compute. reflexivity.
  - exists (take 2 (section (signals (formatter_of "H /%c (%i H)/, /.")))), [].
    vm_compute. reflexivity.
Defined.

(** *** The optional flag *)

Lemma toggles_snoc (l : list Block) (x : Block) :
  toggles (l ++ [x]) = toggles l + (if Block_nonempty x then 0 else 1).
Proof.
  unfold toggles. rewrite filter_app, length_app. f_equal.
  rewrite filter_cons, filter_nil.
  destruct (Block_nonempty x); [by rewrite decide_False | by rewrite decide_True].
Qed.

(** X9: a block of the list that [Formatter._parse] returns is optional
    exactly when an odd number of toggles, the empty blocks that the stars
    compile to, stands in the list up to and including the block. *)
Theorem parsed_optional_flags (raw unparsed : Block) (next : nat)
    (bs : list Block) (next' : nat) (i : nat) (b : Block) :
  Formatter_parse raw unparsed next = Ok (bs, next') →
  bs !! i = Some b →
  optional b = Nat.odd (toggles (take (S i) bs)).
Proof.
  unfold Formatter_parse. intros Hrun. revert i b.
  set (flagged := λ lp : list Block,
         ∀ i b, lp !! i = Some b →
                optional b = Nat.odd (toggles (take (S i) lp))).
  change (flagged bs).
  assert (∀ lp x, flagged lp → optional x = Nat.odd (toggles (lp ++ [x])) →
                  flagged (lp ++ [x])) as Hsnoc.
  { intros lp x Hlp Hx i b Hi.
    destruct (decide (i < length lp)) as [Hlt|Hge].
    - rewrite lookup_app_l in Hi by done.
      rewrite take_app_le by lia. by apply Hlp.
    - apply lookup_lt_Some in Hi as Hi'. rewrite length_app in Hi'.
      simpl in Hi'. assert (i = length lp) as -> by lia.
      rewrite list_lookup_middle in Hi by done. injection Hi as <-.
      rewrite firstn_all2 by (rewrite length_app; simpl; lia). done. }
  assert (∀ _text opt lp,
            opt = Nat.odd (toggles lp) → flagged lp →
            toggles (flush _text opt lp) = toggles lp
            ∧ flagged (flush _text opt lp)) as Hflush.
  { intros _text opt lp Ho Hlp. unfold flush.
    destruct _text as [|c t]; [done|].
    rewrite toggles_snoc. cbn. split; [lia|].
    apply Hsnoc; [done|]. rewrite toggles_snoc. cbn.
    rewrite Nat.add_0_r. done. }
  revert Hrun.
  apply (parse_loop_invariant raw
           (λ _ _ opt lp _, opt = Nat.odd (toggles lp) ∧ flagged lp)
           (λ out _, flagged out)).
  - intros _text opt lp n [Ho Hlp]. by apply Hflush.
  - done.
  - intros c c1 rest _text opt lp n Hc _key Hlast Hcue [Ho Hlp].
    destruct (Hflush _text opt lp Ho Hlp) as [Ht Hf].
    rewrite toggles_snoc. cbn. rewrite Nat.add_0_r, Ht. split; [done|].
    apply Hsnoc; [done|]. rewrite toggles_snoc. cbn.
    by rewrite Nat.add_0_r, Ht.
  - intros c rest _text opt lp n Hc [Ho Hlp].
    destruct (Hflush _text opt lp Ho Hlp) as [Ht Hf].
    assert (negb opt = Nat.odd (toggles (flush _text opt lp ++
              [mkBlock [] (negb opt) (Some false)]))) as Hneg.
    { rewrite toggles_snoc. cbn. rewrite Ht, Nat.add_1_r, Nat.odd_succ.
      rewrite Ho, <- Nat.negb_odd. done. }
    split; [done|]. by apply Hsnoc.
  - split; [done|]. by intros i b Hi.
Qed.

(** The constant a stands after one toggle. *)
Lemma parsed_optional_flags_witness :
  let b := mkBlock (slice (chars (paragraph 0 "H /x%c*a%i**b%m**c%j*/; /.")) 7 8)
             true (Some false) in
  optional b
  = Nat.odd (toggles (take 4 (section three_options))).
Proof.
  intros b.
  apply (parsed_optional_flags
           (paragraph 0 "H /x%c*a%i**b%m**c%j*/; /.")
           (Block_slice (paragraph 0 "H /x%c*a%i**b%m**c%j*/; /.") 3 21)
           100 (section three_options) 108 3 b).
  - vm_compute. reflexivity.
  - vm_compute. reflexivity.
Defined.

(** ** [Formatter.__init__] *)

(** [find_at] returns the first position at which [sub] starts. *)
Lemma find_at_first sub t pos p :
  find_at sub t pos = Some p →
  ∃ u v, t = u ++ sub ++ v ∧ p = pos + length u
         ∧ ∀ u' v', t = u' ++ sub ++ v' → length u ≤ length u'.
Proof.
  revert pos. induction t as [|c t IH]; intros pos; cbn [find_at].
  - destruct (starts_with sub []) eqn:E; [|done]. intros [= <-].
    apply starts_with_spec in E as [k E]. exists [], k.
    split_and!; [done | simpl; lia | intros; simpl; lia].
  - destruct (starts_with sub (c :: t)) eqn:E.
    + intros [= <-]. apply starts_with_spec in E as [k E]. exists [], k.
      split_and!; [done | simpl; lia | intros; simpl; lia].
    + intros (u & v & -> & -> & Hmin)%IH. exists (c :: u), v.
      split_and!; [done | simpl; lia |]. intros [|c' u'] v' Heq.
      * exfalso. assert (starts_with sub (c :: u ++ sub ++ v) = true); [|congruence].
        apply starts_with_spec. by exists v'.
      * injection Heq as _ Heq. specialize (Hmin _ _ Heq). simpl. lia.
Qed.

Lemma str_find_full (s sub : pystr) start p :
  str_find s sub start (length s) = Some p →
  ∃ u v, drop start s = u ++ sub ++ v ∧ p = start + length u
         ∧ start ≤ length s
         ∧ ∀ u' v', drop start s = u' ++ sub ++ v' → length u ≤ length u'.
Proof.
  unfold str_find. rewrite firstn_all. case_decide; [|done].
  intros (u & v & ? & ? & ?)%find_at_first. by exists u, v.
Qed.

(** The first occurrence of a character. *)
Lemma str_find_char (s : pystr) (c : ascii) start p :
  str_find s [c] start (length s) = Some p →
  ∃ u v, drop start s = u ++ c :: v ∧ p = start + length u
         ∧ start ≤ length s ∧ c ∉ u.
Proof.
  intros (u & v & Hs & Hp & Hle & Hmin)%str_find_full.
  exists u, v. split_and!; [done..|].
  intros (u1 & u2 & ->)%list_elem_of_split.
  specialize (Hmin u1 (u2 ++ c :: v)). rewrite length_app in Hmin.
  simpl in Hmin. rewrite Hs, <- !app_assoc in Hmin.
  specialize (Hmin eq_refl). lia.
Qed.

Lemma count_char_step (c x : ascii) (s : pystr) :
  count_from [c] 0 (x :: s)
  = (if bool_decide (c = x) then 1 else 0) + count_from [c] 0 s.
Proof.
  cbn [count_from]. replace (starts_with [c] (x :: s)) with (bool_decide (c = x))
    by (simpl; by rewrite andb_true_r).
  by destruct (bool_decide (c = x)).
Qed.

Lemma count_char_app (c : ascii) (s t : pystr) :
  count_from [c] 0 (s ++ t) = count_from [c] 0 s + count_from [c] 0 t.
Proof.
  induction s as [|x s IH]; [done|]. cbn [app].
  rewrite !count_char_step, IH. lia.
Qed.

Lemma count_char_absent (c : ascii) (s : pystr) :
  count_from [c] 0 s = 0 ↔ c ∉ s.
Proof.
  induction s as [|x s IH].
  - split; [intros _; apply not_elem_of_nil | done].
  - rewrite count_char_step, not_elem_of_cons. case_bool_decide.
    + split; [lia | intros [? _]; done].
    + rewrite <- IH. split; [done | by intros [_ ?]].
Qed.

(** A character that occurs once splits the string in one way. *)
Lemma count_char_one (c : ascii) (s : pystr) :
  count_from [c] 0 s = 1 → ∃ d tl, s = d ++ c :: tl ∧ (c ∉ d) ∧ (c ∉ tl).
Proof.
  induction s as [|x s IH]; [done|]. rewrite count_char_step.
  case_bool_decide as Hx.
  - subst x. intros H. assert (count_from [c] 0 s = 0) as H0 by lia.
    apply count_char_absent in H0.
    exists [], s. split_and!; [done | apply not_elem_of_nil | done].
  - intros (d & tl & -> & Hd & Htl)%IH. exists (x :: d), tl.
    split_and!; [done | | done]. apply not_elem_of_cons. done.
Qed.

Lemma first_occurrence_unique {A} (x : A) (l1 l2 k1 k2 : list A) :
  l1 ++ x :: l2 = k1 ++ x :: k2 → x ∉ l1 → x ∉ k1 → l1 = k1 ∧ l2 = k2.
Proof.
  revert k1. induction l1 as [|a l1 IH]; intros [|b k1] Heq Hl Hk.
  - by injection Heq as ->.
  - injection Heq as <- _. exfalso. apply Hk. left.
  - injection Heq as -> _. exfalso. apply Hl. left.
  - injection Heq as -> Heq.
    apply not_elem_of_cons in Hl as [_ Hl].
    apply not_elem_of_cons in Hk as [_ Hk].
    destruct (IH _ Heq Hl Hk) as [-> ->]. done.
Qed.

Lemma Block_text_slice (b : Block) (a e : nat) :
  Block_text (Block_slice b a e) = slice (Block_text b) a e.
Proof.
  unfold Block_text, Block_slice, slice. cbn [chars Block_of_chars].
  by rewrite fmap_take, fmap_drop.
Qed.

Lemma Block_text_upto (b : Block) (e : nat) :
  Block_text (Block_upto b e) = take e (Block_text b).
Proof. unfold Block_text, Block_upto. cbn. by rewrite fmap_take. Qed.

Lemma Block_text_length (b : Block) : length (Block_text b) = length (chars b).
Proof. unfold Block_text. by rewrite length_fmap. Qed.

(** X10: the raw text of a template that compiles is a head, a slash, the
    signal region, a slash, the delimiter, a slash and a tail, none of
    which holds a slash; the head and the signal section spell the
    compiled text of their regions, and the end marker is the last
    character of the tail, or empty when nothing follows the third
    slash. *)
Theorem template_layout (fuel next : nat) (raw : Block) (f : Formatter) :
  Formatter_init fuel next raw = Ok f →
  ∃ h s tl : pystr,
    Block_text raw
    = h ++ "/"%char :: s ++ "/"%char :: Block_text (delimiter f)
        ++ "/"%char :: tl
    ∧ ("/"%char ∉ h) ∧ ("/"%char ∉ s)
    ∧ ("/"%char ∉ Block_text (delimiter f)) ∧ ("/"%char ∉ tl)
    ∧ concat (section_str (head f)) = compiled_text h
    ∧ concat (section_str (signals f)) = compiled_text s
    ∧ Block_text (end_ f) = match last tl with Some c => [c] | None => [] end.
Proof.
  unfold Formatter_init. intros Hf.
  case_bool_decide as Hcount; [done|].
  case_bool_decide as Hstars; [done|]. clear Hstars.
  unfold Block_index_str, str_index, Block_count_str, str_count in *.
  cbn [lit list_ascii_of_string] in *.
  set (T := Block_text raw) in *.
  assert (length (chars raw) = length T) as HlenT
    by (symmetry; apply Block_text_length).
  rewrite HlenT in Hf.
  destruct (str_find T ["/"%char] 0 (length T)) as [i1|] eqn:E1;
    res_simpl_in Hf; [|done].
  destruct (str_find T ["/"%char] (i1 + 1) (length T)) as [i2|] eqn:E2;
    res_simpl_in Hf; [|done].
  assert (Block_text (Block_reversed raw) = reverse T) as Hrev.
  { unfold Block_text, Block_reversed. cbn. by rewrite fmap_reverse. }
  rewrite Hrev in Hf.
  assert (length (chars (Block_reversed raw)) = length (reverse T)) as HlenR.
  { cbn. by rewrite !length_reverse. }
  rewrite HlenR in Hf.
  destruct (str_find (reverse T) ["/"%char] 0 (length (reverse T)))
    as [r|] eqn:E3; res_simpl_in Hf; [|done].
  apply str_find_char in E1 as (h & r1 & HT & -> & _ & Hh).
  rewrite drop_0 in HT.
  apply str_find_char in E2 as (s & r2 & Hr1 & -> & _ & Hs).
  rewrite HT in Hr1.
  replace (0 + length h + 1) with (length h + 1) in * by lia.
  rewrite drop_app_ge in Hr1 by lia.
  replace (length h + 1 - length h) with 1 in Hr1 by lia.
  cbn [drop] in Hr1. rewrite drop_0 in Hr1. subst r1.
  apply str_find_char in E3 as (u & v & HrT & -> & _ & Hu).
  rewrite drop_0 in HrT. cbn [Nat.add] in Hf.
  (* the third slash *)
  rewrite HT in Hcount.
  rewrite count_char_app, count_char_step, count_char_app, count_char_step
    in Hcount.
  rewrite bool_decide_true in Hcount by done.
  assert (count_from ["/"%char] 0 h = 0) as Hh0 by (by apply count_char_absent).
  assert (count_from ["/"%char] 0 s = 0) as Hs0 by (by apply count_char_absent).
  assert (count_from ["/"%char] 0 r2 = 1) as Hr2 by lia.
  apply count_char_one in Hr2 as (d & tl & -> & Hd & Htl).
  assert (u = reverse tl) as ->.
  { assert (reverse T = reverse tl ++ "/"%char :: reverse (h ++ "/"%char :: s ++ "/"%char :: d)) as HrT'.
    { rewrite HT.
      replace (h ++ "/"%char :: s ++ "/"%char :: d ++ "/"%char :: tl)
        with ((h ++ "/"%char :: s ++ "/"%char :: d) ++ "/"%char :: tl)
        by (by rewrite <- !app_assoc, <- !app_comm_cons, <- !app_assoc).
      rewrite reverse_app, reverse_cons, <- app_assoc. done. }
    rewrite HrT' in HrT.
    apply first_occurrence_unique in HrT as [? _]; [done| |done].
    by rewrite elem_of_reverse. }
  rewrite length_reverse in Hf.
  assert (length T = length h + 1 + length s + 1 + length d + 1 + length tl)
    as HlT.
  { rewrite HT. rewrite !length_app; cbn [length].
    rewrite !length_app; cbn [length]. rewrite !length_app; cbn [length]. lia. }
  unfold Block_len in Hf. rewrite HlenT in Hf.
  replace (Z.to_nat (Z.of_nat (length T) - 1 - Z.of_nat (length tl)))
    with (length h + 1 + length s + 1 + length d) in Hf by lia.
  apply bind_inv_Ok in Hf as (before & _ & Hf).
  destruct (negb (Char_eq_str before " ")); [done|].
  apply bind_inv_Ok in Hf as (e & He & Hf).
  apply bind_inv_Ok in Hf as ([hb n1] & Hhead & Hf).
  apply bind_inv_Ok in Hf as ([sb n2] & Hsig & Hf).
  apply bind_inv_Ok in Hf as (hyps & _ & Hf).
  injection Hf as <-. cbn [head signals delimiter end_ Section_init section_str].
  apply Formatter_parse_text in Hhead, Hsig.
  rewrite Block_text_upto in Hhead. rewrite Block_text_slice in Hsig.
  rewrite Block_text_slice. fold T in Hhead, Hsig |- *.
  exists h, s, tl.
  assert (slice T (length h + 1 + length s + 1)
            (length h + 1 + length s + 1 + length d) = d) as Hd'.
  { unfold slice. rewrite HT.
    replace (h ++ "/"%char :: s ++ "/"%char :: d ++ "/"%char :: tl)
      with ((h ++ "/"%char :: s ++ ["/"%char]) ++ d ++ "/"%char :: tl).
    2: { by rewrite <- !app_assoc, <- !app_comm_cons, <- !app_assoc. }
    rewrite drop_app_length'.
    2: { rewrite !length_app; cbn [length]. rewrite !length_app; cbn [length]. lia. }
    rewrite take_app_length'; [done | lia]. }
  rewrite Hd'. split_and!; [done..| | |].
  - rewrite Hhead, HT. by rewrite take_app_length.
  - rewrite Hsig. unfold slice. rewrite HT.
    rewrite drop_app_ge by lia.
    replace (length h + 1 - length h) with 1 by lia. cbn [drop].
    rewrite drop_0. rewrite take_app_length'; [done | lia].
  - clear Hhead Hsig Hd'. case_bool_decide as Hi3.
    + apply bind_inv_Ok in He as (c & Hc & [= <-]).
      unfold Block_get, py_nth in Hc. rewrite decide_False in Hc by lia.
      case_decide; [|done].
      destruct (chars raw !! _) as [c'|] eqn:Ec; [|done].
      injection Hc as ->.
      assert (last T = Some (str c)) as Hlast.
      { rewrite last_lookup. unfold T, Block_text. rewrite list_lookup_fmap.
        rewrite length_fmap.
        replace (Nat.pred (length (chars raw)))
          with (length (chars raw) - Z.to_nat (- -1)) by lia.
        by rewrite Ec. }
      destruct tl as [|x tl' _] using rev_ind.
      { simpl in Hi3. unfold Block_len in Hi3. lia. }
      rewrite last_snoc. rewrite HT in Hlast.
      replace (h ++ "/"%char :: s ++ "/"%char :: d ++ "/"%char :: tl' ++ [x])
        with ((h ++ "/"%char :: s ++ "/"%char :: d ++ "/"%char :: tl') ++ [x])
        in Hlast
        by (repeat (rewrite <- app_assoc || rewrite <- app_comm_cons); done).
      rewrite last_snoc in Hlast. by injection Hlast as ->.
    + injection He as <-. destruct tl as [|x tl]; [done|].
      simpl in Hi3. unfold Block_len in Hi3. lia.
Qed.

(** A template with an end marker. *)
Lemma template_layout_witness :
  ∃ h s tl : pystr,
    lit "H /%c (%i)/; /."
    = h ++ "/"%char :: s ++ "/"%char
        :: Block_text (delimiter (formatter_of "H /%c (%i)/; /."))
        ++ "/"%char :: tl
    ∧ ("/"%char ∉ h) ∧ ("/"%char ∉ s)
    ∧ ("/"%char ∉ Block_text (delimiter (formatter_of "H /%c (%i)/; /.")))
    ∧ ("/"%char ∉ tl)
    ∧ concat (section_str (head (formatter_of "H /%c (%i)/; /.")))
      = compiled_text h
    ∧ concat (section_str (signals (formatter_of "H /%c (%i)/; /.")))
      = compiled_text s
    ∧ Block_text (end_ (formatter_of "H /%c (%i)/; /."))
      = match last tl with Some c => [c] | None => [] end.
Proof.
  apply (template_layout 8 100 (paragraph 0 "H /%c (%i)/; /.")).
  vm_compute. reflexivity.
Defined.

(** ** [Section.splice_blocks] *)

Lemma insert_two {A} (pre post : list A) (a b x y : A) (p : nat) :
  length pre = p →
  <[S p := y]> (<[p := x]> (pre ++ a :: b :: post)) = pre ++ x :: y :: post.
Proof.
  intros <-. rewrite insert_app_r_alt by lia. rewrite Nat.sub_diag. cbn.
  rewrite insert_app_r_alt by lia.
  replace (S (length pre) - length pre) with 1 by lia. done.
Qed.

Lemma lookup_two {A} (l : list A) (p : nat) (a b : A) :
  l !! p = Some a → l !! S p = Some b →
  l = take p l ++ a :: b :: drop (S (S p)) l ∧ length (take p l) = p.
Proof.
  intros Ha Hb. split.
  - rewrite <- (take_drop_middle l p a Ha) at 1. f_equal. f_equal.
    rewrite <- (take_drop_middle l (S p) b Hb) at 1.
    rewrite (drop_app_ge (take (S p) l)) by (rewrite length_take; lia).
    rewrite length_take. apply lookup_lt_Some in Hb.
    replace (S p - S p `min` length l) with 0 by lia. done.
  - rewrite length_take. apply lookup_lt_Some in Ha. lia.
Qed.

(** The first loop of [splice_blocks] moves characters into the block
    before, and the list keeps its length. *)
Lemma splice_loop_spec todo i sec :
  concat (chars <$> splice_loop todo i sec) = concat (chars <$> sec)
  ∧ length (splice_loop todo i sec) = length sec.
Proof.
  revert i sec. induction todo as [|todo IH]; intros i sec; [done|].
  cbn [splice_loop]. destruct i as [|p]; [apply IH|].
  destruct (sec !! S p) as [block|] eqn:Eb; [|apply IH].
  destruct (sec !! p) as [prev|] eqn:Ep; [|apply IH].
  case_bool_decide; [|apply IH].
  destruct (IH (S (S p))
              (<[S p := placeholder]> (<[p := Block_add prev block]> sec)))
    as [-> ->].
  rewrite !length_insert. split; [|done].
  destruct (lookup_two sec p prev block Ep Eb) as [Hsec Hlen].
  rewrite Hsec at 1. rewrite insert_two by done.
  rewrite Hsec at 3. rewrite !fmap_app, !concat_app. f_equal.
  cbn. by rewrite <- app_assoc.
Qed.

Lemma Block_eq_trans a b c :
  Block_eq a b = true → Block_eq b c = true → Block_eq a c = true.
Proof. rewrite !Block_eq_key. congruence. Qed.

Lemma Block_eq_sym a b : Block_eq a b = Block_eq b a.
Proof.
  apply eq_true_iff_eq. rewrite !Block_eq_key. split; congruence.
Qed.

Lemma placeholder_chars b : Block_eq b placeholder = true → chars b = [].
Proof.
  rewrite Block_eq_key. unfold Block_key. cbn. intros [= H _ _].
  by apply fmap_nil_inv in H.
Qed.

(** [sec.remove(item)] for an item that equals the place holder. *)
Lemma list_remove_placeholder item sec :
  Block_eq item placeholder = true →
  0 < occurrences Block_eq placeholder sec →
  ∃ sec', list_remove Block_eq item sec = Some sec'
          ∧ filter (λ b, Block_eq b placeholder = false) sec'
            = filter (λ b, Block_eq b placeholder = false) sec
          ∧ S (occurrences Block_eq placeholder sec')
            = occurrences Block_eq placeholder sec.
Proof.
  intros Hitem. unfold occurrences.
  induction sec as [|y sec IH]; [simpl; lia|].
  rewrite !filter_cons. cbn [list_remove].
  destruct (Block_eq y item) eqn:Ey.
  - intros _. exists sec.
    assert (Block_eq y placeholder = true) as Hy
      by (by eapply Block_eq_trans).
    repeat case_decide; try congruence. done.
  - assert (Block_eq y placeholder = false) as Hy.
    { apply not_true_is_false. intros Hy. rewrite Block_eq_sym in Hitem.
      pose proof (Block_eq_trans _ _ _ Hy Hitem). congruence. }
    repeat case_decide; try congruence.
    intros (sec' & -> & Hf & Ho)%IH. exists (y :: sec').
    rewrite !filter_cons. repeat case_decide; try congruence.
    rewrite Hf. done.
Qed.

(** The second loop of [splice_blocks] removes every place holder and
    nothing else. *)
Lemma remove_placeholders_filter copy sec :
  occurrences Block_eq placeholder copy = occurrences Block_eq placeholder sec →
  remove_placeholders copy sec
  = Ok (filter (λ b, Block_eq b placeholder = false) sec).
Proof.
  revert sec. induction copy as [|item copy IH]; intros sec Hocc.
  - cbn. f_equal. symmetry. unfold occurrences in Hocc. simpl in Hocc.
    symmetry in Hocc. apply length_zero_iff_nil in Hocc.
    induction sec as [|y sec IHs]; [done|].
    rewrite filter_cons in Hocc |- *. case_decide as Hy; [done|].
    rewrite decide_True by (by apply not_true_is_false).
    f_equal. by apply IHs.
  - cbn [remove_placeholders].
    rewrite (occurrences_cons Block_eq) in Hocc.
    destruct (Block_eq item placeholder) eqn:E.
    + destruct (list_remove_placeholder item sec E) as (sec' & -> & Hf & Ho);
        [lia|].
      res_simpl. rewrite IH by lia. by rewrite Hf.
    + apply IH. lia.
Qed.

Lemma concat_chars_filter (sec : list Block) :
  concat (chars <$> filter (λ b, Block_eq b placeholder = false) sec)
  = concat (chars <$> sec).
Proof.
  induction sec as [|y sec IH]; [done|]. rewrite filter_cons.
  case_decide as Hy; cbn; rewrite IH; [done|].
  apply not_false_is_true in Hy. by rewrite (placeholder_chars y Hy).
Qed.

Lemma splice_blocks_section s :
  splice_blocks s
  = Ok (Section_init
          (filter (λ b, Block_eq b placeholder = false)
             (splice_loop (length (section s)) 0 (section s)))
          (contains s)).
Proof.
  unfold splice_blocks. by rewrite remove_placeholders_filter.
Qed.

(** X11: [Section.splice_blocks] never raises; the blocks of the result
    hold the characters of the section in the same order, there are no
    more of them than before, and [contains] is kept. *)
Theorem splice_blocks_regroups (s : Section) :
  ∃ s', splice_blocks s = Ok s'
        ∧ concat (chars <$> section s') = concat (chars <$> section s)
        ∧ length (section s') ≤ length (section s)
        ∧ contains s' = contains s.
Proof.
  rewrite splice_blocks_section. eexists. split; [done|].
  cbn [section contains Section_init].
  destruct (splice_loop_spec (length (section s)) 0 (section s)) as [Hc Hl].
  split_and!; [|  |done].
  - by rewrite concat_chars_filter.
  - etrans; [apply length_filter|]. by rewrite Hl.
Qed.

(** *** Sections that need no splicing *)

Lemma splice_loop_alternating todo i sec :
  (∀ j a b, sec !! j = Some a → sec !! S j = Some b →
            variable a ≠ variable b) →
  splice_loop todo i sec = sec.
Proof.
  intros Halt. revert i. induction todo as [|todo IH]; intros i; [done|].
  cbn [splice_loop]. destruct i as [|p]; [apply IH|].
  destruct (sec !! S p) as [block|] eqn:Eb; [|apply IH].
  destruct (sec !! p) as [prev|] eqn:Ep; [|apply IH].
  rewrite bool_decide_false; [apply IH|].
  intros Heq. by apply (Halt p prev block).
Qed.

Lemma remove_placeholders_none copy sec :
  Forall (λ b, Block_eq b placeholder = false) copy →
  remove_placeholders copy sec = Ok sec.
Proof.
  induction 1 as [|item copy Hitem _ IH]; [done|].
  cbn [remove_placeholders]. by rewrite Hitem.
Qed.

(** X12: a section in which no two neighbours have the same [variable]
    flag, and which holds no block equal to the place holder, is left as
    it is by [Section.splice_blocks]. *)
Theorem splice_blocks_alternating (s : Section) :
  (∀ j a b, section s !! j = Some a → section s !! S j = Some b →
            variable a ≠ variable b) →
  Forall (λ b, Block_eq b placeholder = false) (section s) →
  splice_blocks s = Ok (Section_init (section s) (contains s)).
Proof.
  intros Halt Hph. unfold splice_blocks.
  rewrite splice_loop_alternating by done.
  by rewrite remove_placeholders_none.
Qed.

(** A code, a constant and a code. *)
Lemma splice_blocks_alternating_witness :
  splice_blocks (signals pairs_formatter)
  = Ok (Section_init (section (signals pairs_formatter))
          (contains (signals pairs_formatter))).
Proof.
  apply splice_blocks_alternating.
  - intros [|[|[|j]]] a b Ha Hb; try done;
      injection Ha as <-; injection Hb as <-; done.
  - repeat constructor.
Defined.

(** *** The blocks of a hypothesis *)

Lemma Forall_take_drop_S {A} (X Y : A → Prop) (l : list A) (i : nat) :
  (∀ x, Y x → X x) →
  Forall X (take i l) → Forall Y (drop i l) →
  Forall X (take (S i) l) ∧ Forall Y (drop (S i) l).
Proof.
  intros HYX Ht Hd. destruct (l !! i) as [x|] eqn:E.
  - rewrite (take_S_r _ _ _ E). rewrite (drop_S _ _ _ E) in Hd.
    apply Forall_cons in Hd as [Hx Hd]. split; [|done].
    apply Forall_app. split; [done|]. apply Forall_singleton. by apply HYX.
  - apply lookup_ge_None in E.
    rewrite take_ge in Ht |- * by lia. rewrite drop_ge by lia. done.
Qed.

(** The first loop of [splice_blocks] on blocks that have characters and
    a [variable] flag: every block of the result is such a block or the
    place holder. *)
Lemma splice_loop_blocks todo i sec :
  let good := λ b : Block, chars b ≠ [] ∧ variable b ≠ None in
  let spliced := λ b : Block, good b ∨ b = placeholder in
  Forall spliced (take i sec) → Forall good (drop i sec) →
  Forall spliced (splice_loop todo i sec).
Proof.
  intros good spliced. revert i sec.
  induction todo as [|todo IH]; intros i sec Ht Hd.
  - cbn. rewrite <- (take_drop i sec). apply Forall_app. split; [done|].
    eapply Forall_impl; [exact Hd|]. intros b Hb. by left.
  - cbn [splice_loop].
    assert (Forall spliced (take (S i) sec) ∧ Forall good (drop (S i) sec))
      as [Ht' Hd'].
    { apply Forall_take_drop_S; [|done..]. intros b Hb. by left. }
    destruct i as [|p]; [by apply IH|].
    destruct (sec !! S p) as [block|] eqn:Eb; [|by apply IH].
    destruct (sec !! p) as [prev|] eqn:Ep; [|by apply IH].
    case_bool_decide as Hv; [|by apply IH].
    destruct (lookup_two sec p prev block Ep Eb) as [Hsec Hlen].
    assert (good block) as Hblock.
    { rewrite (drop_S _ _ _ Eb) in Hd. by apply Forall_cons in Hd as [? _]. }
    assert (good prev) as Hprev.
    { rewrite (take_S_r _ _ _ Ep) in Ht. apply Forall_app in Ht as [_ Hp].
      rewrite Forall_singleton in Hp. destruct Hp as [?| ->]; [done|].
      destruct Hblock as [_ Hb]. simpl in Hv. congruence. }
    rewrite Hsec, insert_two by done. apply IH.
    + replace (take (S (S p)) (take p sec ++ Block_add prev block
                 :: placeholder :: drop (S (S p)) sec))
        with (take p sec ++ [Block_add prev block; placeholder]).
      2: { rewrite take_app_ge by lia. rewrite Hlen.
           replace (S (S p) - p) with 2 by lia. done. }
      apply Forall_app. split.
      * rewrite (take_S_r _ _ _ Ep) in Ht. by apply Forall_app in Ht as [? _].
      * apply Forall_cons. split.
        -- left. split; [|done]. cbn. destruct Hprev as [Hc _].
           by destruct (chars prev).
        -- apply Forall_singleton. by right.
    + rewrite drop_app_ge by lia. rewrite Hlen.
      replace (S (S p) - p) with 2 by lia. done.
Qed.

(** ** [Hypotheses] *)

Lemma mapM_inv {A B} (f : A → res B) (l : list A) (ys : list B) :
  mapM f l = Ok ys → Forall2 (λ x y, f x = Ok y) l ys.
Proof.
  revert ys. induction l as [|x l IH]; intros ys H.
  - injection H as <-. constructor.
  - cbn [mapM] in H. apply bind_inv_Ok in H as (y & Hy & H).
    apply bind_inv_Ok in H as (ys' & Hys & [= <-]).
    constructor; [done | by apply IH].
Qed.

(** The pieces hold the blocks of the signal that have a text, in
    order. *)
Lemma segment_concat sig _pieces _piece :
  concat (segment sig _pieces _piece)
  = concat _pieces ++ _piece
      ++ filter (λ b, Block_text b ≠ []) sig.
Proof.
  revert _pieces _piece. induction sig as [|block sig IH]; intros ps p.
  - cbn [segment]. rewrite filter_nil, app_nil_r.
    destruct p; [by rewrite app_nil_r|].
    rewrite concat_app. cbn. by rewrite app_nil_r.
  - cbn [segment]. rewrite filter_cons. case_bool_decide as Hb.
    + rewrite IH. case_decide; [congruence|].
      rewrite concat_app. cbn. by rewrite app_nil_r, <- app_assoc.
    + rewrite IH. case_decide; [|congruence]. by rewrite <- app_assoc.
Qed.

Lemma odd_entries_lookup_aux {A} (l : list A) :
  (∀ i x, l !! i = Some x → i `mod` 2 ≠ 0 → x ∈ odd_entries l)
  ∧ (∀ a i x, (a :: l) !! i = Some x → i `mod` 2 ≠ 0 →
              x ∈ odd_entries (a :: l)).
Proof.
  induction l as [|b l [IH1 IH2]].
  - split; [done|]. intros a [|[|i]] x Hi Hodd; done.
  - split; [apply IH2|]. intros a [|[|i]] x Hi Hodd.
    + done.
    + injection Hi as ->. cbn. left.
    + cbn. right. apply (IH1 i); [done|].
      replace (S (S i)) with (i + 1 * 2) in Hodd by lia.
      by rewrite Nat.Div0.mod_add in Hodd.
Qed.

Lemma odd_entries_lookup {A} (l : list A) (i : nat) (x : A) :
  l !! i = Some x → i `mod` 2 ≠ 0 → x ∈ odd_entries l.
Proof. apply odd_entries_lookup_aux. Qed.

Lemma list_index_lookup {A} (eqb : A → A → bool) (x : A) (l : list A) i :
  list_index eqb x l = Some i → ∃ y, l !! i = Some y ∧ eqb y x = true.
Proof.
  revert i. induction l as [|z l IH]; intros i; [done|]. cbn [list_index].
  destruct (eqb z x) eqn:E.
  - intros [= <-]. by exists z.
  - destruct (list_index eqb x l) as [j|]; [|done]. intros [= <-].
    destruct (IH j eq_refl) as (y & ? & ?). by exists y.
Qed.

(** With every optional piece in the combination, every piece is taken. *)
Lemma assemble_full _pieces ps acc :
  ps ⊆ _pieces →
  assemble _pieces ps (odd_entries _pieces) acc = Ok (acc ++ concat ps).
Proof.
  revert acc. induction ps as [|p ps IH]; intros acc Hsub.
  - cbn. by rewrite app_nil_r.
  - cbn [assemble].
    destruct (list_index_is_Some piece_eq p _pieces) as [ix Hix].
    { exists p. split; [apply Hsub; left | by apply piece_eq_key]. }
    rewrite Hix. res_simpl.
    assert (ps ⊆ _pieces) as Hps by (intros x Hx; apply Hsub; by right).
    cbn [concat]. rewrite app_assoc.
    case_bool_decide as Hpar; [by apply IH|].
    apply list_index_lookup in Hix as (q & Hq & Hqp).
    assert (list_in piece_eq p (odd_entries _pieces) = true) as ->;
      [|by apply IH].
    unfold list_in. apply existsb_exists. exists q.
    split; [|done]. apply list_elem_of_In. by eapply odd_entries_lookup.
Qed.

Lemma concat_chars_nonempty_text (sig : list Block) :
  concat (chars <$> filter (λ b, Block_text b ≠ []) sig)
  = concat (chars <$> sig).
Proof.
  induction sig as [|b sig IH]; [done|]. rewrite filter_cons.
  case_decide as Hb; cbn; rewrite IH; [done|].
  unfold Block_text in Hb. apply fmap_nil_inv in Hb. by rewrite Hb.
Qed.

Lemma concat_text_chars (l : list Block) :
  concat (Block_text <$> l) = str <$> concat (chars <$> l).
Proof.
  induction l as [|b l IH]; [done|]. cbn. by rewrite fmap_app, IH.
Qed.

(** The first group holds one hypothesis, made of every piece. *)
Lemma Hypotheses_init_fullest (fuel : nat) (sig : Section)
    (groups : list (list Section)) :
  Hypotheses_init fuel sig = Ok groups →
  ∃ h, groups !! 0 = Some [h]
       ∧ concat (chars <$> section h) = concat (chars <$> section sig)
       ∧ concat (section_str h) = concat (Block_text <$> section sig).
Proof.
  unfold Hypotheses_init. set (_pieces := segment (section sig) [] []).
  set (k := length (odd_entries _pieces)).
  intros H. apply bind_inv_Ok in H as (G & HG & [= <-]).
  apply mapM_inv in HG. pose proof (Forall2_length _ _ _ HG) as Hlen.
  rewrite length_seq in Hlen.
  assert (seq 0 (k + 1) !! k = Some k) as Hk by (apply lookup_seq; lia).
  destruct (Forall2_lookup_l _ _ _ _ _ HG Hk) as (g & Hg & Hbuild).
  unfold build_hypotheses, find_combinations in Hbuild. fold k in Hbuild.
  rewrite Nat.sub_diag in Hbuild. cbn [seq fmap list_fmap] in Hbuild.
  res_simpl_in Hbuild. cbn [mapM] in Hbuild.
  apply bind_inv_Ok in Hbuild as (h & Hh & [= <-]).
  exists h. split.
  { rewrite reverse_lookup by lia. rewrite <- Hlen.
    replace (k + 1 - 1) with k by lia. done. }
  unfold build_hypothesis in Hh. rewrite assemble_full in Hh by done.
  res_simpl_in Hh. cbn [app] in Hh.
  rewrite splice_blocks_section in Hh. injection Hh as <-.
  cbn [section Section_init section_str].
  assert (concat (chars <$> filter (λ b, Block_eq b placeholder = false)
                   (splice_loop (length (concat _pieces)) 0 (concat _pieces)))
          = concat (chars <$> section sig)) as Hchars.
  { rewrite concat_chars_filter.
    destruct (splice_loop_spec (length (concat _pieces)) 0 (concat _pieces))
      as [-> _].
    unfold _pieces. rewrite segment_concat. cbn.
    apply concat_chars_nonempty_text. }
  split; [done|]. by rewrite !concat_text_chars, Hchars.
Qed.

(** X13: the first group that [Hypotheses.__init__] builds holds one
    hypothesis, and that hypothesis spells the whole signal section: the
    same characters in the same order, hence the same text. *)
Theorem fullest_hypothesis (fuel : nat) (sig : Section)
    (groups : list (list Section)) :
  Hypotheses_init fuel sig = Ok groups →
  ∃ h, groups !! 0 = Some [h]
       ∧ concat (chars <$> section h) = concat (chars <$> section sig)
       ∧ concat (section_str h) = concat (Block_text <$> section sig).
Proof. apply Hypotheses_init_fullest. Qed.

(** The template with three optional pieces. *)
Lemma fullest_hypothesis_witness :
  ∃ h, hypotheses_of "H /x%c*a%i**b%m**c%j*/; /." !! 0 = Some [h]
       ∧ concat (chars <$> section h)
         = concat (chars <$> section three_options)
       ∧ concat (section_str h)
         = concat (Block_text <$> section three_options).
Proof.
  apply (fullest_hypothesis 8 three_options). vm_compute. reflexivity.
Defined.

(** *** No hypothesis holds an empty block *)

Lemma segment_blocks (P : Block → Prop) sig _pieces _piece :
  (∀ b, b ∈ sig → Block_text b ≠ [] → P b) →
  Forall (Forall P) _pieces → Forall P _piece →
  Forall (Forall P) (segment sig _pieces _piece).
Proof.
  revert _pieces _piece. induction sig as [|block sig IH];
    intros ps p Hsig Hps Hp.
  - cbn. destruct p; [done|]. apply Forall_app. split; [done|].
    by apply Forall_singleton.
  - cbn [segment].
    assert (∀ b, b ∈ sig → Block_text b ≠ [] → P b) as Hsig'
      by (intros b Hb; apply Hsig; by right).
    case_bool_decide as Hb.
    + apply IH; [done | | done]. apply Forall_app. split; [done|].
      by apply Forall_singleton.
    + apply IH; [done..|]. apply Forall_app. split; [done|].
      apply Forall_singleton. apply Hsig; [left | done].
Qed.

Lemma assemble_blocks (P : Block → Prop) _pieces ps combination acc out :
  Forall (Forall P) ps → Forall P acc →
  assemble _pieces ps combination acc = Ok out → Forall P out.
Proof.
  revert acc. induction ps as [|p ps IH]; intros acc Hps Hacc Hrun.
  - by injection Hrun as <-.
  - cbn [assemble] in Hrun. apply Forall_cons in Hps as [Hp Hps].
    apply bind_inv_Ok in Hrun as (ix & _ & Hrun).
    assert (Forall P (acc ++ p)) as Hacc' by (by apply Forall_app).
    case_bool_decide; [eapply IH; [done | | exact Hrun]; done|].
    destruct (list_in piece_eq p combination);
      (eapply IH; [done | | exact Hrun]; done).
Qed.

Lemma nonempty_texts_all (bs : list Block) :
  Forall (λ b, chars b ≠ []) bs → nonempty_texts bs = Block_text <$> bs.
Proof.
  unfold nonempty_texts. induction 1 as [|b bs Hb _ IH]; [done|].
  rewrite fmap_cons, filter_cons. case_decide as Ht.
  - f_equal. exact IH.
  - exfalso. unfold Block_text in Ht. by destruct (chars b).
Qed.

(** The signal section and the hypotheses of a compiled template. *)
Lemma Formatter_init_parts (fuel next : nat) (raw : Block) (f : Formatter) :
  Formatter_init fuel next raw = Ok f →
  ∃ unparsed n1 sb n2,
    Formatter_parse raw unparsed n1 = Ok (sb, n2)
    ∧ signals f = Section_init sb None
    ∧ Hypotheses_init fuel (Section_init sb None) = Ok (hypotheses f).
Proof.
  unfold Formatter_init. intros Hf.
  repeat case_bool_decide; try done.
  apply bind_inv_Ok in Hf as (i1 & _ & Hf).
  apply bind_inv_Ok in Hf as (i2 & _ & Hf).
  apply bind_inv_Ok in Hf as (r & _ & Hf).
  apply bind_inv_Ok in Hf as (before & _ & Hf).
  destruct (negb _); [done|].
  apply bind_inv_Ok in Hf as (e & _ & Hf).
  apply bind_inv_Ok in Hf as ([hb n1] & _ & Hf).
  apply bind_inv_Ok in Hf as ([sb n2] & Hsig & Hf).
  apply bind_inv_Ok in Hf as (hyps & Hhyps & [= <-]).
  by eexists _, _, _, _.
Qed.

(** X14: no hypothesis of a compiled template holds an empty block or the
    place holder, so that [constants_str] and [variables_str] line up one
    to one with [constants] and [variables]. *)
Theorem hypotheses_hold_no_empty_block (fuel next : nat) (raw : Block)
    (f : Formatter) (g : list Section) (h : Section) :
  Formatter_init fuel next raw = Ok f →
  g ∈ hypotheses f → h ∈ g →
  Forall (λ b, chars b ≠ [] ∧ variable b ≠ None) (section h)
  ∧ constants_str h = Block_text <$> constants h
  ∧ variables_str h = Block_text <$> variables h.
Proof.
  intros Hf Hg Hh.
  set (good := λ b : Block, chars b ≠ [] ∧ variable b ≠ None).
  assert (∃ sec cont, h = Section_init sec cont ∧ Forall good sec)
    as (sec & cont & -> & Hgood).
  { apply Formatter_init_parts in Hf
      as (unparsed & n1 & sb & n2 & Hsig & Hsf & Hhyps).
    assert (Forall (λ b, variable b ≠ None) sb) as Hvar.
    { revert Hsig. unfold Formatter_parse.
      assert (∀ _text opt lp, Forall (λ b, variable b ≠ None) lp →
                Forall (λ b, variable b ≠ None) (flush _text opt lp)) as Hfl.
      { intros _text opt lp Hlp. unfold flush. destruct _text; [done|].
        apply Forall_app. split; [done|]. by apply Forall_singleton. }
      apply (parse_loop_invariant raw
               (λ _ _ _ lp _, Forall (λ b, variable b ≠ None) lp)
               (λ out _, Forall (λ b, variable b ≠ None) out)).
      - intros. by apply Hfl.
      - done.
      - intros. apply Forall_app. split; [by apply Hfl|].
        by apply Forall_singleton.
      - intros. apply Forall_app. split; [by apply Hfl|].
        by apply Forall_singleton.
      - done. }
    unfold Hypotheses_init in Hhyps. cbn [section Section_init] in Hhyps.
    set (_pieces := segment sb [] []) in *.
    apply bind_inv_Ok in Hhyps as (G & HG & [= HGeq]).
    rewrite <- HGeq, elem_of_reverse in Hg.
    apply mapM_inv in HG.
    apply list_elem_of_lookup_1 in Hg as [ig Hig].
    destruct (Forall2_lookup_r _ _ _ _ _ HG Hig) as (n & _ & Hbuild).
    unfold build_hypotheses in Hbuild.
    apply bind_inv_Ok in Hbuild as (combos & _ & Hbuild).
    apply mapM_inv in Hbuild.
    apply list_elem_of_lookup_1 in Hh as [ih Hih].
    destruct (Forall2_lookup_r _ _ _ _ _ Hbuild Hih) as (c & _ & Hc).
    unfold build_hypothesis in Hc.
    apply bind_inv_Ok in Hc as (hyp & Hhyp & Hc).
    rewrite splice_blocks_section in Hc. injection Hc as <-.
    eexists _, _. split; [done|].
    assert (Forall good hyp) as Hgh.
    { eapply (assemble_blocks good); [|by apply Forall_nil|exact Hhyp].
      apply segment_blocks; [|by apply Forall_nil|by apply Forall_nil].
      intros b Hb Ht. split.
      - intros Hc. apply Ht. unfold Block_text. by rewrite Hc.
      - rewrite Forall_forall in Hvar. by apply Hvar. }
    pose proof (splice_loop_blocks (length hyp) 0 hyp) as Hsp.
    cbn zeta in Hsp. rewrite take_0, drop_0 in Hsp.
    specialize (Hsp (Forall_nil_2 _) Hgh).
    apply Forall_forall. intros b [Hbp Hb]%list_elem_of_filter.
    rewrite Forall_forall in Hsp. destruct (Hsp b Hb) as [?| ->]; [done|].
    by rewrite Block_eq_refl in Hbp. }
  cbn [section constants_str constants variables_str variables Section_init].
  split; [done|].
  split; apply nonempty_texts_all, Forall_forall;
    intros b [_ Hb]%list_elem_of_filter;
    rewrite Forall_forall in Hgood; by destruct (Hgood b Hb).
Qed.

(** The fullest hypothesis of a template with one optional piece. *)
Lemma hypotheses_hold_no_empty_block_witness :
  Forall (λ b, chars b ≠ [] ∧ variable b ≠ None) (section shift_full)
  ∧ constants_str shift_full = Block_text <$> constants shift_full
  ∧ variables_str shift_full = Block_text <$> variables shift_full.
Proof.
  apply (hypotheses_hold_no_empty_block 8 100
           (paragraph 0 "H /%c* (%i)*/; /.")
           (formatter_of "H /%c* (%i)*/; /.") [shift_full] shift_full).
  - vm_compute. reflexivity.
  - apply list_elem_of_here.
  - apply list_elem_of_here.
Defined.

(** *** Combinations *)

Section sublists.
Context {A : Type} (eqb : A → A → bool).

Lemma list_remove_sublist (x : A) (l l' : list A) :
  list_remove eqb x l = Some l' → l' `sublist_of` l.
Proof.
  revert l'. induction l as [|y l IH]; intros l'; [done|].
  cbn [list_remove]. destruct (eqb y x).
  - intros [= <-]. by apply sublist_cons.
  - destruct (list_remove eqb x l) as [l0|]; [|done]. intros [= <-].
    apply sublist_skip. by apply IH.
Qed.

Lemma knock_out_sublist leftout i items temp c :
  knock_out eqb leftout i items temp = Ok c → c `sublist_of` temp.
Proof.
  revert i temp. induction items as [|item items IH]; intros i temp.
  - by intros [= <-].
  - cbn [knock_out]. case_bool_decide; [|apply IH].
    destruct (list_remove eqb item temp) as [temp'|] eqn:E; [|done].
    res_simpl. intros Hc%IH. etrans; [exact Hc|].
    by eapply list_remove_sublist.
Qed.

Lemma find_combinations_loop_sublists fuel a_list leftout acc out :
  Forall (λ c, c `sublist_of` a_list) acc →
  find_combinations_loop eqb fuel a_list leftout acc = Ok out →
  Forall (λ c, c `sublist_of` a_list) out.
Proof.
  revert leftout acc. induction fuel as [|fuel IH]; intros leftout acc Hacc;
    [done|].
  cbn [find_combinations_loop]. intros H.
  apply bind_inv_Ok in H as (temp & Htemp & H).
  apply bind_inv_Ok in H as (next & _ & H).
  assert (Forall (λ c, c `sublist_of` a_list) (acc ++ [temp])) as Hacc'.
  { apply Forall_app. split; [done|]. apply Forall_singleton.
    by eapply knock_out_sublist. }
  destruct next as [leftout'|]; [by eapply IH|]. by injection H as <-.
Qed.

(** X15: every combination that [find_combinations] returns is a sub-list of
    [a_list]: pieces are only left out, never repeated or reordered. *)
Theorem combinations_keep_order (fuel : nat) (a_list : list A) (n : nat)
    (combinations : list (list A)) :
  find_combinations eqb fuel a_list n = Ok combinations →
  Forall (λ c, c `sublist_of` a_list) combinations.
Proof.
  unfold find_combinations.
  destruct (Z.of_nat <$> seq n (length a_list - n)) as [|z l].
  - intros [= <-]. by apply Forall_singleton.
  - by apply find_combinations_loop_sublists.
Qed.
End sublists.

(** The pairs of three numbers. *)
Lemma combinations_keep_order_witness :
  Forall (λ c, c `sublist_of` [1; 2; 3]) [[1; 2]; [1; 3]; [2; 3]].
Proof.
  apply (combinations_keep_order Nat.eqb 8 [1; 2; 3] 2).
  vm_compute. reflexivity.
Defined.

(** ** [Spectrum.match_hypothesis] *)

Lemma scan_group_member signal hs scores h :
  scan_group signal hs scores = Ok (inl h) → h ∈ hs.
Proof.
  revert scores. induction hs as [|h0 hs IH]; intros scores; [done|].
  cbn [scan_group]. destruct (constants h0).
  { intros [= <-]. left. }
  destruct (scan_constants _ _ _) as [[counts|]| |]; res_simpl; try done.
  - case_bool_decide.
    + intros [= <-]. left.
    + intros Hin%IH. by right.
  - intros Hin%IH. by right.
Qed.

Lemma choose_member hs scores h :
  choose hs scores = Ok (Some h) → h ∈ hs.
Proof.
  unfold choose. destruct (list_min _); [|done].
  intros H. apply bind_inv_Ok in H as (ix & _ & H).
  apply bind_inv_Ok in H as (h' & Hh & [= <-]).
  destruct (hs !! ix) eqn:E; [|done]. injection Hh as ->.
  by eapply list_elem_of_lookup_2.
Qed.

(** X16: the hypothesis that [Spectrum.match_hypothesis] returns is one of
    the hypotheses of the groups it was given. *)
Theorem match_hypothesis_member (groups : list (list Section))
    (signal : Block) (h : Section) :
  match_hypothesis groups signal = Ok h →
  ∃ g, g ∈ groups ∧ h ∈ g.
Proof.
  induction groups as [|g groups IH]; [done|]. cbn [match_hypothesis].
  intros H. apply bind_inv_Ok in H as (r & Hr & H).
  destruct r as [h'|scores].
  - injection H as ->. exists g. split; [left | by eapply scan_group_member].
  - apply bind_inv_Ok in H as (c & Hc & H). destruct c as [h'|].
    + injection H as ->. exists g. split; [left | by eapply choose_member].
    + destruct (IH H) as (g' & ? & ?). exists g'. split; [by right | done].
Qed.

(** A record with its integral. *)
Lemma match_hypothesis_member_witness :
  ∃ g, g ∈ shift_groups ∧ shift_full ∈ g.
Proof.
  apply (match_hypothesis_member shift_groups (paragraph 200 "1.2 (3)")).
  vm_compute. reflexivity.
Defined.

(** *** Signals that match nothing *)

Lemma scan_group_absent signal hs scores :
  Forall (first_constant_absent signal) hs →
  scan_group signal hs scores
  = Ok (inr (scores ++ replicate (length hs) (-1)%Z)).
Proof.
  intros Hhs. revert scores.
  induction Hhs as [|h hs (Hne & c & rest & Hcs & Hc) _ IH]; intros scores.
  - cbn. by rewrite app_nil_r.
  - cbn [scan_group]. destruct (constants h) as [|b bs] eqn:E; [done|].
    rewrite Hcs. cbn [scan_constants].
    replace (Block_count_str (Block_copy signal) c) with 0 by done.
    rewrite bool_decide_true by done. res_simpl. rewrite IH.
    cbn [length replicate]. by rewrite <- app_assoc.
Qed.

Lemma choose_all_negative hs n :
  choose hs (replicate n (-1)%Z) = Ok None.
Proof.
  unfold choose.
  assert (filter (λ s, (0 ≤ s)%Z) (replicate n (-1)%Z) = []) as ->; [|done].
  induction n as [|n IH]; [done|]. cbn [replicate].
  rewrite filter_cons, decide_False by lia. done.
Qed.

(** X17: when in every hypothesis of every group the first constant does
    not occur in the signal, [Spectrum.match_hypothesis] raises
    [InputError]. *)
Theorem match_hypothesis_nothing_fits (groups : list (list Section))
    (signal : Block) :
  Forall (Forall (first_constant_absent signal)) groups →
  match_hypothesis groups signal = Raise InputError.
Proof.
  intros Hall. rewrite <- (app_nil_r groups).
  rewrite match_hypothesis_rejected; [done|].
  eapply Forall_impl; [exact Hall|]. intros g Hg.
  exists (replicate (length g) (-1)%Z). split.
  - by rewrite scan_group_absent.
  - apply choose_all_negative.
Qed.

(** A record without the closing bracket. *)
Lemma match_hypothesis_nothing_fits_witness :
  match_hypothesis integral_groups (paragraph 200 "2H") = Raise InputError.
Proof.
  apply match_hypothesis_nothing_fits.
  repeat constructor; try discriminate.
  exists (lit ")"), []. split; vm_compute; reflexivity.
Defined.

(** *** Exact matches *)

Lemma set_of_ones (counts : list nat) :
  counts ≠ [] → Forall (λ c, c = 1) counts →
  (list_to_set counts : gset nat) = {[ 1 ]}.
Proof.
  intros Hne Hall. apply set_eq. intros x.
  rewrite elem_of_list_to_set, elem_of_singleton. split.
  - intros Hx. rewrite Forall_forall in Hall. by apply Hall.
  - intros ->. destruct counts as [|c counts]; [done|].
    apply Forall_cons in Hall as [-> _]. left.
Qed.

(** X18: a hypothesis each of whose constants is counted once on the
    progressively clipped signal is returned as soon as the scan reaches
    it, that is when the fuller groups are rejected and no earlier
    hypothesis of its group has been returned. *)
Theorem exact_hypothesis_returned
    (signal : Block) (gs1 : list (list Section)) (hs1 : list Section)
    (h : Section) (hs2 : list Section) (gs2 : list (list Section))
    (sc : list Z) (counts : list nat) :
  Forall (rejected signal) gs1 →
  scan_group signal hs1 [] = Ok (inr sc) →
  constants h ≠ [] →
  scan_constants (constants_str h) (Block_copy signal) [] = Ok (Some counts) →
  counts ≠ [] → Forall (λ c, c = 1) counts →
  match_hypothesis (gs1 ++ (hs1 ++ h :: hs2) :: gs2) signal = Ok h.
Proof.
  intros Hgs Hhs Hc Hscan Hne Hone.
  rewrite match_hypothesis_rejected by done. cbn [match_hypothesis].
  rewrite (scan_group_app _ _ _ _ _ Hhs). cbn [scan_group].
  destruct (constants h); [done|]. rewrite Hscan. res_simpl.
  rewrite bool_decide_true by (by apply set_of_ones). done.
Qed.

(** A record with its integral. *)
Lemma exact_hypothesis_returned_witness :
  match_hypothesis shift_groups (paragraph 200 "1.2 (3)") = Ok shift_full.
Proof.
  apply (exact_hypothesis_returned (paragraph 200 "1.2 (3)")
           [] [] shift_full [] (drop 1 shift_groups) [] [1; 1]).
  - constructor.
  - reflexivity.
  - vm_compute. discriminate.
  - vm_compute. reflexivity.
  - discriminate.
  - repeat constructor.
Defined.

(** *** Groups of one hypothesis *)

Lemma scan_constants_counts blocks _temp acc counts :
  scan_constants blocks _temp acc = Ok (Some counts) →
  ∃ more, counts = acc ++ more ∧ Forall (λ c, 1 ≤ c) more
          ∧ length more = length blocks.
Proof.
  revert _temp acc. induction blocks as [|block blocks IH]; intros _temp acc.
  - intros [= <-]. exists []. by rewrite app_nil_r.
  - cbn [scan_constants]. case_bool_decide as Hc; [done|].
    intros H. apply bind_inv_Ok in H as (i & _ & H).
    apply IH in H as (more & -> & Hmore & Hlen).
    exists (Block_count_str _temp block :: more).
    rewrite <- app_assoc. split_and!; [done | | simpl; lia].
    apply Forall_cons. split; [lia | done].
Qed.

Lemma add_scores_acc counts score acc :
  add_scores counts score acc = acc ++ add_scores counts score [].
Proof.
  revert score acc. induction counts as [|c counts IH]; intros score acc.
  - cbn. by rewrite app_nil_r.
  - cbn [add_scores]. rewrite IH. rewrite (IH _ ([] ++ _)).
    by rewrite <- app_assoc.
Qed.

Lemma add_scores_bound counts score :
  Forall (λ c, 1 ≤ c) counts →
  Forall (λ s, (score ≤ s)%Z) (add_scores counts score []).
Proof.
  intros Hc. revert score. induction Hc as [|c counts Hc1 _ IH]; intros score.
  - constructor.
  - cbn [add_scores]. rewrite add_scores_acc. apply Forall_app. split.
    + apply Forall_singleton. lia.
    + eapply Forall_impl; [apply IH|]. intros s Hs. simpl in Hs. lia.
Qed.

Lemma foldl_min_least (x : Z) (l : list Z) :
  Forall (λ s, (x ≤ s)%Z) l → foldl Z.min x l = x.
Proof.
  induction 1 as [|y l Hy _ IH]; [done|]. cbn.
  by rewrite Z.min_l.
Qed.

Lemma filter_all {A} (P : A → Prop) `{∀ x, Decision (P x)} (l : list A) :
  Forall P l → filter P l = l.
Proof.
  induction 1 as [|x l Hx _ IH]; [done|].
  by rewrite filter_cons, decide_True, IH.
Qed.

(** X19: in a group of one hypothesis the matcher returns it whatever the
    counts are: when the fuller groups are rejected and every constant of
    the lone hypothesis occurs on the progressively clipped signal, that
    hypothesis is returned. *)
Theorem lone_hypothesis_returned
    (signal : Block) (gs1 : list (list Section)) (h : Section)
    (gs2 : list (list Section)) (counts : list nat) :
  Forall (rejected signal) gs1 →
  constants h ≠ [] →
  scan_constants (constants_str h) (Block_copy signal) [] = Ok (Some counts) →
  counts ≠ [] →
  match_hypothesis (gs1 ++ [h] :: gs2) signal = Ok h.
Proof.
  intros Hgs Hc Hscan Hne.
  rewrite match_hypothesis_rejected by done. cbn [match_hypothesis scan_group].
  destruct (constants h); [done|]. rewrite Hscan. res_simpl.
  case_bool_decide; [done|]. res_simpl.
  apply scan_constants_counts in Hscan as (more & -> & Hmore & _).
  cbn [app] in *. destruct more as [|c more]; [done|].
  apply Forall_cons in Hmore as [Hc1 Hmore].
  cbn [add_scores]. rewrite add_scores_acc. cbn [app].
  set (s1 := (0 + (Z.of_nat c - 1))%Z).
  pose proof (add_scores_bound more s1 Hmore) as Hb.
  unfold choose. rewrite filter_all.
  2: { apply Forall_cons. split; [unfold s1; lia|].
       eapply Forall_impl; [exact Hb|]. intros s Hs. simpl in Hs.
       unfold s1 in Hs. lia. }
  cbn [list_min]. rewrite foldl_min_least by done.
  cbn [list_index]. rewrite bool_decide_true by done. done.
Qed.

(** A record with one bracket too many. *)
Lemma lone_hypothesis_returned_witness :
  match_hypothesis shift_groups (paragraph 200 "1.2 ( (3)") = Ok shift_full.
Proof.
  apply (lone_hypothesis_returned (paragraph 200 "1.2 ( (3)")
           [] shift_full (drop 1 shift_groups) [2; 1]).
  - constructor.
  - vm_compute. discriminate.
  - vm_compute. reflexivity.
  - discriminate.
Defined.

(** ** [Spectrum.parse_signal] *)

(** An empty first slice leaves [appendix] unbound. *)
Lemma parse_signal_first_slice_empty (signal : Block) (h : Section)
    (block : pystr) (later : list pystr) (ws : Block) :
  constants h ≠ [] →
  constants_str h = block :: later →
  working_slice_of signal block later = Ok ws →
  Block_nonempty ws = false →
  parse_signal signal h = Raise UnboundLocalError.
Proof.
  intros Hc Hcs Hws Hempty. unfold parse_signal.
  rewrite (bool_decide_false (constants h = [])) by done.
  rewrite andb_false_r. rewrite Hcs. cbn [parse_signal_loop].
  rewrite Hws. res_simpl. rewrite Hempty. done.
Qed.

Lemma str_find_prefix (s block : pystr) (k : pystr) :
  s = block ++ k → str_find s block 0 (length s) = Some 0.
Proof.
  intros ->. unfold str_find. rewrite firstn_all, decide_True by lia.
  rewrite drop_0. destruct (block ++ k) eqn:E; cbn [find_at];
    rewrite <- E;
    (replace (starts_with block (block ++ k)) with true; [done|]);
    symmetry; apply starts_with_spec; by exists k.
Qed.

(** The last occurrence of [block] in a string that holds it at the
    beginning only. *)
Lemma str_find_reversed (sl block : pystr) (k : pystr) :
  sl = block ++ k →
  (∀ u v, sl = u ++ block ++ v → u = []) →
  str_find (reverse sl) (reverse block) 0 (length (reverse sl))
  = Some (length sl - length block).
Proof.
  intros Hsl Honly.
  destruct (str_find (reverse sl) (reverse block) 0 (length (reverse sl)))
    as [p|] eqn:E.
  - apply str_find_full in E as (u & v & Hr & -> & _ & _).
    rewrite drop_0 in Hr. apply (f_equal reverse) in Hr.
    rewrite reverse_involutive, !reverse_app, reverse_involutive in Hr.
    rewrite <- app_assoc in Hr.
    pose proof (Honly _ _ Hr) as Hv. apply (f_equal length) in Hr.
    rewrite Hv in Hr. rewrite !length_app, length_reverse in Hr.
    simpl in Hr. f_equal. lia.
  - exfalso. unfold str_find in E. rewrite firstn_all in E.
    rewrite decide_True in E by lia. rewrite drop_0 in E.
    assert (is_Some (find_at (reverse block) (reverse sl) 0)) as [? ?];
      [|congruence].
    apply find_at_is_Some. exists (reverse k), (reverse block).
    split; [by rewrite Hsl, reverse_app | apply starts_with_refl].
Qed.

(** X20: a signal that begins with the first constant of its hypothesis and
    holds that constant nowhere else is not parsed: the first working
    slice is empty, [appendix] is read before it is bound, and
    [Spectrum.parse_signal] raises [UnboundLocalError]. *)
Theorem signal_starting_with_constant (signal : Block) (h : Section)
    (block : pystr) (later : list pystr) (k : pystr) :
  constants h ≠ [] →
  constants_str h = block :: later →
  Block_text signal = block ++ k →
  (∀ u v, Block_text signal = u ++ block ++ v → u = []) →
  match later with
  | next_block :: _ =>
      is_Some (str_find (Block_text signal) next_block (length block)
                 (length (Block_text signal)))
  | [] => True
  end →
  parse_signal signal h = Raise UnboundLocalError.
Proof.
  intros Hc Hcs Hstart Honly Hnext.
  assert (∃ e, length block ≤ e
               ∧ (match later with
                  | next_block :: _ =>
                      e0 ← Block_index_str signal next_block
                             (0 + length block);
                      Ok (Block_upto signal e0)
                  | [] => Ok (Block_copy signal)
                  end) = Ok (Block_upto signal e)) as (e & He & Hslice).
  { destruct later as [|next_block later'].
    - exists (length (chars signal)). split.
      + rewrite <- Block_text_length, Hstart, length_app. lia.
      + unfold Block_copy, Block_upto. by rewrite firstn_all.
    - destruct Hnext as [e Hfind]. exists e. split.
      + apply str_find_full in Hfind as (u & v & _ & -> & _). lia.
      + unfold Block_index_str, str_index. rewrite <- Block_text_length.
        cbn [Nat.add]. rewrite Hfind. done. }
  eapply (parse_signal_first_slice_empty signal h block later
            (Block_lstrip (Block_upto signal 0))); [done.. | | done].
  unfold working_slice_of.
  assert (Block_index_str signal block 0 = Ok 0) as ->.
  { unfold Block_index_str, str_index. rewrite <- Block_text_length.
    by rewrite (str_find_prefix _ _ k). }
  res_simpl. rewrite Hslice. res_simpl.
  set (sl := Block_text (Block_upto signal e)).
  assert (sl = take e (Block_text signal)) as Hsl
    by apply Block_text_upto.
  assert (sl = block ++ take (e - length block) k) as Hsl'.
  { rewrite Hsl, Hstart. rewrite take_app_ge by done. done. }
  assert (∀ u v, sl = u ++ block ++ v → u = []) as Honly'.
  { intros u v Huv. apply (Honly u (v ++ drop e (Block_text signal))).
    rewrite <- (take_drop e (Block_text signal)) at 1.
    rewrite <- Hsl, Huv, <- !app_assoc. done. }
  unfold Block_index_str, str_index.
  assert (Block_text (Block_reversed (Block_upto signal e)) = reverse sl)
    as Hrev.
  { unfold sl, Block_text, Block_reversed, Block_of_chars. cbn [chars].
    apply fmap_reverse. }
  rewrite Hrev.
  replace (length (chars (Block_reversed (Block_upto signal e))))
    with (length (reverse sl)).
  2: { rewrite <- Hrev. apply Block_text_length. }
  rewrite (str_find_reversed sl block _ Hsl' Honly'). res_simpl.
  replace (Block_len (Block_reversed (Block_upto signal e))) with (length sl).
  2: { unfold Block_len. rewrite <- Block_text_length, Hrev.
       by rewrite length_reverse. }
  assert (length block ≤ length sl)
    by (rewrite Hsl', length_app; lia).
  replace (length sl - (length sl - length block) - length block) with 0
    by lia.
  done.
Qed.

(** An integral in brackets. *)
Lemma signal_starting_with_constant_witness :
  parse_signal (paragraph 200 "(2)") bracket_hypothesis
  = Raise UnboundLocalError.
Proof.
  apply (signal_starting_with_constant _ _ (lit "(") [lit ")"] (lit "2)")).
  - vm_compute. discriminate.
  - vm_compute. reflexivity.
  - vm_compute. reflexivity.
  - intros [|a u] v Huv; [done|]. exfalso. vm_compute in Huv.
    injection Huv as _ Huv.
    destruct u as [|b u]; [done|]. injection Huv as _ Huv.
    destruct u as [|c u]; [done|]. injection Huv as _ Huv.
    by destruct u.
  - vm_compute. by eexists.
Defined.

(** *** The values that are extracted *)

Lemma parse_signal_loop_length h blocks signal vars appendix out :
  parse_signal_loop h blocks signal vars appendix = Ok out →
  length out ≤ length vars + length blocks.
Proof.
  revert signal vars appendix.
  induction blocks as [|block later IH]; intros signal vars appendix.
  - intros [= <-]. simpl. lia.
  - cbn [parse_signal_loop]. intros H.
    apply bind_inv_Ok in H as (ws & _ & H).
    apply bind_inv_Ok in H as ([vars' app'] & Hv & H).
    apply bind_inv_Ok in H as (a & _ & H).
    apply IH in H. cbn [length].
    assert (length vars' ≤ S (length vars)); [|lia].
    destruct (Block_nonempty ws).
    + apply bind_inv_Ok in Hv as (v & _ & Hv).
      apply bind_inv_Ok in Hv as (cue & _ & Hv).
      apply bind_inv_Ok in Hv as (a' & _ & [= <- _]).
      rewrite length_app. simpl. lia.
    + injection Hv as <- _. lia.
Qed.

Lemma scan_field_terminates cue block ws acc :
  terminates (scan_field cue block ws acc).
Proof.
  revert acc. induction ws as [|c ws IH]; intros acc; [done|].
  cbn [scan_field]. case_bool_decide; [apply IH|].
  by destruct (Block_contains_str _ _).
Qed.

Lemma working_slice_of_terminates signal block later :
  terminates (working_slice_of signal block later).
Proof.
  unfold working_slice_of, Block_index_str.
  repeat first
    [ apply bind_terminates; [|intros ? _]
    | apply str_index_terminates
    | done
    | match goal with |- terminates (match ?c with _ => _ end) => destruct c end ].
Qed.

Lemma parse_signal_loop_terminates h blocks signal vars appendix :
  terminates (parse_signal_loop h blocks signal vars appendix).
Proof.
  revert signal vars appendix.
  induction blocks as [|block later IH]; intros signal vars appendix; [done|].
  cbn [parse_signal_loop].
  apply bind_terminates; [apply working_slice_of_terminates|]. intros ws _.
  apply bind_terminates.
  - destruct (Block_nonempty ws); [|done].
    apply bind_terminates; [apply of_option_terminates|]. intros v _.
    apply bind_terminates; [apply of_option_terminates|]. intros cue _.
    apply bind_terminates; [|done].
    unfold extract_field. destruct cue as [cs|]; [|done].
    apply bind_terminates; [apply scan_field_terminates | done].
  - intros [vars' app'] _.
    apply bind_terminates; [apply of_option_terminates|]. intros a _.
    apply IH.
Qed.

Lemma field_of_terminates vars h key default :
  terminates (field_of vars h key default).
Proof.
  unfold field_of. destruct (list_index _ _ _); [|done].
  apply bind_terminates; [apply of_option_terminates | done].
Qed.

Lemma Signal_init_terminates vars h : terminates (Signal_init vars h).
Proof.
  unfold Signal_init.
  repeat (apply bind_terminates; [apply field_of_terminates|intros ? _]).
  done.
Qed.

(** A code whose value was not extracted makes [Signal.__init__] fail. *)
Lemma Signal_init_short vars h key i s :
  key ∈ signal_codes →
  list_index (λ a b, bool_decide (a = b)) key (variables_str h) = Some i →
  length vars ≤ i →
  Signal_init vars h ≠ Ok s.
Proof.
  intros Hkey Hix Hlen Hs. unfold Signal_init in Hs.
  assert (∀ d, field_of vars h key d = Raise IndexError) as Hraise.
  { intros d. unfold field_of. rewrite Hix.
    rewrite (lookup_ge_None_2 vars i) by lia. done. }
  apply bind_inv_Ok in Hs as (c & Hc & Hs).
  apply bind_inv_Ok in Hs as (i' & Hi & Hs).
  apply bind_inv_Ok in Hs as (m & Hm & Hs).
  apply bind_inv_Ok in Hs as (j & Hj & Hs).
  apply bind_inv_Ok in Hs as (a & Ha & Hs).
  unfold signal_codes in Hkey.
  repeat (apply elem_of_cons in Hkey as [->|Hkey]; [congruence|]).
  by apply elem_of_nil in Hkey.
Qed.

(** X21: [Spectrum.parse_signal] extracts at most one value for each
    constant, the text before it.  A hypothesis with constants in which
    the code of a signal field stands after at least as many codes as
    there are constants is therefore never parsed: the call raises. *)
Theorem variable_after_last_constant (signal : Block) (h : Section)
    (key : pystr) (i : nat) :
  constants h ≠ [] →
  key ∈ signal_codes →
  list_index (λ a b, bool_decide (a = b)) key (variables_str h) = Some i →
  length (constants_str h) ≤ i →
  ∃ e, parse_signal signal h = Raise e.
Proof.
  intros Hc Hkey Hix Hlen.
  destruct (parse_signal signal h) as [s|e|] eqn:Hrun; [exfalso| by eexists |].
  - unfold parse_signal in Hrun.
    rewrite (bool_decide_false (constants h = [])) in Hrun by done.
    rewrite andb_false_r in Hrun.
    apply bind_inv_Ok in Hrun as (vars & Hvars & Hs).
    apply parse_signal_loop_length in Hvars. simpl in Hvars.
    eapply (Signal_init_short vars h key i); [done..| lia | exact Hs].
  - exfalso. revert Hrun. unfold parse_signal.
    rewrite (bool_decide_false (constants h = [])) by done.
    rewrite andb_false_r.
    apply bind_terminates; [apply parse_signal_loop_terminates|].
    intros. apply Signal_init_terminates.
Qed.

(** A template that ends with a code. *)
Lemma variable_after_last_constant_witness :
  ∃ h, hypotheses pairs_formatter = [[h]]
       ∧ ∃ e, parse_signal (paragraph 200 "1, 2") h = Raise e.
Proof.
  eexists. split; [reflexivity|].
  apply (variable_after_last_constant _ _ (lit "%i") 1).
  - vm_compute. discriminate.
  - apply (bool_decide_unpack _). vm_compute. reflexivity.
  - vm_compute. reflexivity.
  - vm_compute. lia.
Defined.

(** *** The characters of the fields *)

Lemma scan_field_sublist cue block ws acc a :
  scan_field cue block ws acc = Ok a → a `sublist_of` acc ++ ws.
Proof.
  revert acc. induction ws as [|c ws IH]; intros acc.
  - intros [= <-]. by rewrite app_nil_r.
  - cbn [scan_field]. case_bool_decide.
    + intros Ha%IH. by rewrite <- app_assoc in Ha.
    + destruct (Block_contains_str _ _); [|done]. intros [= <-].
      by apply sublist_inserts_r.
Qed.

Lemma Block_lstrip_sublist (b : Block) :
  chars (Block_lstrip b) `sublist_of` chars b.
Proof.
  unfold Block_lstrip. destruct (chars b) as [|c rest] eqn:E; [by rewrite E|].
  case_bool_decide; cbn; [by apply sublist_cons | by rewrite E].
Qed.

Lemma working_slice_of_sublist signal block later ws :
  working_slice_of signal block later = Ok ws →
  chars ws `sublist_of` chars signal.
Proof.
  unfold working_slice_of. intros H.
  apply bind_inv_Ok in H as (t & _ & H).
  apply bind_inv_Ok in H as (sl & _ & H).
  apply bind_inv_Ok in H as (bi & _ & [= <-]).
  etrans; [apply Block_lstrip_sublist|]. cbn. apply sublist_take.
Qed.

Lemma parse_signal_loop_sublist (S0 : list Char) h blocks signal vars
    appendix out :
  parse_signal_loop h blocks signal vars appendix = Ok out →
  chars signal `sublist_of` S0 →
  Forall (λ v, chars v `sublist_of` S0) vars →
  Forall (λ v, chars v `sublist_of` S0) out.
Proof.
  revert signal vars appendix.
  induction blocks as [|block later IH]; intros signal vars appendix.
  - by intros [= <-].
  - cbn [parse_signal_loop]. intros H Hsig Hvars.
    apply bind_inv_Ok in H as (ws & Hws & H).
    apply bind_inv_Ok in H as ([vars' app'] & Hv & H).
    apply bind_inv_Ok in H as (a & _ & H).
    apply working_slice_of_sublist in Hws.
    eapply IH; [exact H | |].
    + etrans; [|exact Hsig]. cbn. apply sublist_drop.
    + destruct (Block_nonempty ws).
      * apply bind_inv_Ok in Hv as (v & _ & Hv).
        apply bind_inv_Ok in Hv as (cue & _ & Hv).
        apply bind_inv_Ok in Hv as (a' & Ha & [= <- _]).
        apply Forall_app. split; [done|]. apply Forall_singleton.
        unfold extract_field in Ha. destruct cue as [cs|].
        -- apply bind_inv_Ok in Ha as (x & Hx & [= <-]).
           apply scan_field_sublist in Hx. cbn in *.
           etrans; [exact Hx|]. by etrans.
        -- injection Ha as <-. by etrans.
      * by injection Hv as <- _.
Qed.

Lemma field_of_value vars h key d o :
  field_of vars h key d = Ok o → o = d ∨ ∃ v, v ∈ vars ∧ o = Some v.
Proof.
  unfold field_of. destruct (list_index _ _ _) as [i|].
  - intros H. apply bind_inv_Ok in H as (v & Hv & [= <-]). right.
    exists v. split; [|done]. destruct (vars !! i) eqn:E; [|done].
    injection Hv as ->. by eapply list_elem_of_lookup_2.
  - intros [= <-]. by left.
Qed.

(** X22: every field of a [Signal] that [Spectrum.parse_signal] returns is
    made of characters of the signal itself, in their order, so that the
    styling of the input is kept. *)
Theorem parse_signal_keeps_characters (signal : Block) (h : Section)
    (s : Signal) :
  parse_signal signal h = Ok s →
  Forall (λ o, match o with
               | Some v => chars v `sublist_of` chars signal
               | None => True
               end) (fields s).
Proof.
  intros Hrun.
  assert (∃ vars, Forall (λ v, chars v `sublist_of` chars signal) vars
                  ∧ Signal_init vars h = Ok s) as (vars & Hvars & Hs).
  { unfold parse_signal in Hrun. destruct (_ && _).
    - exists [signal]. split; [|done]. by apply Forall_singleton.
    - apply bind_inv_Ok in Hrun as (vars & Hv & Hs). exists vars.
      split; [|done].
      eapply parse_signal_loop_sublist; [exact Hv | done | constructor]. }
  unfold Signal_init in Hs.
  apply bind_inv_Ok in Hs as (c & Hc & Hs).
  apply bind_inv_Ok in Hs as (i & Hi & Hs).
  apply bind_inv_Ok in Hs as (m & Hm & Hs).
  apply bind_inv_Ok in Hs as (j & Hj & Hs).
  apply bind_inv_Ok in Hs as (a & Ha & [= <-]).
  unfold fields. cbn. rewrite Forall_forall in Hvars.
  repeat constructor;
    match goal with
    | H : field_of _ _ _ _ = Ok ?o |- match ?o with _ => _ end =>
        apply field_of_value in H as [->|(v & Hv & ->)];
        [try done | by apply Hvars]
    end.
  cbn. apply sublist_nil_l.
Qed.

(** A record with its integral. *)
Lemma parse_signal_keeps_characters_witness :
  Forall (λ o, match o with
               | Some v => chars v `sublist_of` chars (paragraph 200 "1.2 (3)")
               | None => True
               end)
    [Some (Block_slice (paragraph 200 "1.2 (3)") 0 3);
     Some (Block_slice (paragraph 200 "1.2 (3)") 5 6);
     None; None; Some Block_empty].
Proof.
  apply (parse_signal_keeps_characters (paragraph 200 "1.2 (3)") shift_full
           (mkSignal shift_full
              (Some (Block_slice (paragraph 200 "1.2 (3)") 0 3))
              (Some (Block_slice (paragraph 200 "1.2 (3)") 5 6))
              None None (Some Block_empty))).
  vm_compute. reflexivity.
Defined.

(** ** [Spectrum.parse_head] *)

Lemma Block_index_found (text block : Block) (i : nat) :
  Block_index text block 0 = Ok i →
  chars text
  = take i (chars text)
      ++ take (length (Block_text block)) (drop i (chars text))
      ++ drop (i + length (Block_text block)) (chars text)
  ∧ str <$> take (length (Block_text block)) (drop i (chars text))
    = Block_text block.
Proof.
  unfold Block_index, str_index. intros H.
  destruct (str_find _ _ _ _) as [p|] eqn:E; [|done]. injection H as ->.
  rewrite <- Block_text_length in E.
  apply str_find_full in E as (u & v & HT & -> & _ & _).
  rewrite drop_0 in HT. cbn [Nat.add]. split.
  - rewrite <- drop_drop. by rewrite !take_drop.
  - rewrite fmap_take, fmap_drop. fold (Block_text text). rewrite HT.
    rewrite drop_app_length. by rewrite take_app_length.
Qed.

(** X23: when [Spectrum.parse_head] returns, the text was a gap and the
    text of a constant for each constant of the head, in order, followed
    by the text that is left; the values that are stored are the gaps
    that are not empty, in order, as blocks without flags. *)
Theorem parse_head_splits (f : Formatter) (text : Block)
    (data : list Block) (text' : Block) (data' : list Block) :
  parse_head f text data = Ok (text', data') →
  ∃ (gaps : list Block) (founds : list (list Char)),
    Forall2 (λ fd c, str <$> fd = Block_text c) founds (constants (head f))
    ∧ length gaps = length (constants (head f))
    ∧ chars text
      = concat (zip_with (λ g fd, chars g ++ fd) gaps founds) ++ chars text'
    ∧ data' = data ++ filter (λ g, Block_nonempty g = true) gaps
    ∧ Forall (λ g, optional g = false ∧ variable g = Some false) gaps.
Proof.
  unfold parse_head. revert text data.
  induction (constants (head f)) as [|block cs IH]; intros text data.
  - intros [= <- <-]. exists [], []. rewrite filter_nil, app_nil_r.
    split_and!; done.
  - cbn [parse_head_loop]. destruct (Block_contains text block); [|done].
    cbn [negb]. intros H. apply bind_inv_Ok in H as (i & Hi & H).
    apply Block_index_found in Hi as [Hsplit Hfound].
    apply IH in H as (gaps & founds & Hf & Hlen & Hchars & Hdata & Hflags).
    exists (Block_upto text i :: gaps),
           (take (length (Block_text block)) (drop i (chars text)) :: founds).
    split_and!.
    + by constructor.
    + simpl. by rewrite Hlen.
    + cbn [zip_with concat]. cbn [chars Block_from Block_of_chars] in Hchars.
      rewrite <- !app_assoc, <- Hchars. exact Hsplit.
    + rewrite Hdata, filter_cons. unfold Block_copy.
      destruct (Block_nonempty (Block_upto text i)) eqn:E.
      * rewrite decide_True by done. by rewrite <- app_assoc.
      * rewrite decide_False by done. done.
    + by constructor.
Qed.

(** A head with a nuclide and a solvent. *)
Lemma parse_head_splits_witness :
  ∃ (gaps : list Block) (founds : list (list Char)),
    Forall2 (λ fd c, str <$> fd = Block_text c) founds
      (constants (head head_formatter))
    ∧ length gaps = length (constants (head head_formatter))
    ∧ chars (paragraph 300 "1H NMR (CDCl3): 7.26")
      = concat (zip_with (λ g fd, chars g ++ fd) gaps founds)
          ++ chars (Block_from (paragraph 300 "1H NMR (CDCl3): 7.26") 16)
    ∧ [Block_slice (paragraph 300 "1H NMR (CDCl3): 7.26") 0 2;
       Block_slice (paragraph 300 "1H NMR (CDCl3): 7.26") 8 13]
      = [] ++ filter (λ g, Block_nonempty g = true) gaps
    ∧ Forall (λ g, optional g = false ∧ variable g = Some false) gaps.
Proof.
  apply (parse_head_splits head_formatter
           (paragraph 300 "1H NMR (CDCl3): 7.26") []).
  vm_compute. reflexivity.
Defined.



(** ** [print_runs] *)

Lemma print_runs_loop_spec (cs : list Char) (p : Char) (P : list Run)
    (r : Run) :
  run_bits r = bits p → run_text r ≠ [] →
  ∃ r' more,
    (let '(P', run) := print_runs_loop cs (Some p) P (Some r) in
     P' ++ option_list run) = P ++ r' :: more
    ∧ run_bits r' = run_bits r
    ∧ concat (styled <$> r' :: more)
      = styled r ++ ((λ c, (str c, bits c)) <$> cs)
    ∧ Forall (λ x, run_text x ≠ []) (r' :: more)
    ∧ ∀ i r1 r2, (r' :: more) !! i = Some r1 → (r' :: more) !! S i = Some r2 →
                 run_bits r1 ≠ run_bits r2.
Proof.
  revert p P r. induction cs as [|c cs IH]; intros p P r Hbits Hne.
  - exists r, []. cbn. rewrite !app_nil_r. split_and!; try done.
    by apply Forall_singleton.
  - cbn [print_runs_loop]. case_bool_decide as Hc.
    + destruct (IH c (P ++ [r]) (mkRun [str c] (bits c)))
        as (r' & more & Hrun & Hb & Hst & Hall & Hadj); [done..|].
      exists r, (r' :: more). cbn [option_list] in *.
      destruct (print_runs_loop cs _ _ _) as [P' run].
      rewrite Hrun, <- app_assoc. split_and!; [done.. | | |].
      * cbn [fmap list_fmap concat] in *. rewrite Hst. done.
      * by apply Forall_cons.
      * intros [|i] r1 r2 H1 H2.
        -- injection H1 as <-. injection H2 as <-. rewrite Hb, Hbits. cbn.
           congruence.
        -- by apply (Hadj i).
    + simpl (_ <$> Some r).
      destruct (IH c P (mkRun (run_text r ++ [str c]) (run_bits r)))
        as (r' & more & Hrun & Hb & Hst & Hall & Hadj).
      { cbn. congruence. }
      { cbn. by destruct (run_text r). }
      exists r', more. split_and!; [done.. | | done | done].
      rewrite Hst. unfold styled. cbn [run_text run_bits fmap list_fmap].
      rewrite fmap_app, <- app_assoc. cbn. by rewrite Hbits, Hc.
Qed.

(** X25: [print_runs] only appends runs to the paragraph.  The characters
    of the new runs, each with the styling of its run, are the characters
    of the block with their own styling; no new run is empty, and two new
    runs next to each other differ in styling. *)
Theorem print_runs_cuts_at_style_changes (paragraph : list Run)
    (block : Block) :
  ∃ new,
    print_runs paragraph block = paragraph ++ new
    ∧ concat (styled <$> new) = (λ c, (str c, bits c)) <$> chars block
    ∧ Forall (λ r, run_text r ≠ []) new
    ∧ ∀ i r1 r2, new !! i = Some r1 → new !! S i = Some r2 →
                 run_bits r1 ≠ run_bits r2.
Proof.
  unfold print_runs. destruct (chars block) as [|c cs].
  - exists []. cbn. rewrite !app_nil_r. split_and!; done.
  - cbn [print_runs_loop option_list]. rewrite app_nil_r.
    destruct (print_runs_loop_spec cs c paragraph (mkRun [str c] (bits c)))
      as (r' & more & Hrun & Hb & Hst & Hall & Hadj); [done..|].
    exists (r' :: more). split_and!; done.
Qed.

(** ** Splitting one signal *)

Lemma str_in_empty (s : pystr) : str_in [] s = true.
Proof. rewrite str_in_count. apply bool_decide_eq_true. apply str_count_empty. Qed.

Lemma py_nth_last_Ok {A} (l : list A) (x : A) :
  last l = Some x → py_nth l (-1) = Ok x.
Proof.
  intros Hl. unfold py_nth. rewrite decide_False by lia.
  rewrite last_lookup in Hl.
  assert (0 < length l) by (destruct l; [done | simpl; lia]).
  rewrite decide_True by lia.
  change (Z.to_nat (- (-1))) with 1.
  replace (length l - 1) with (Nat.pred (length l)) by lia. by rewrite Hl.
Qed.

(** X26: for a compiled template whose signal section ends with a variable
    and does not hold the delimiter, a text without the delimiter whose
    last character is not the end marker is returned as the only signal,
    unchanged. *)
Theorem lone_signal_is_returned (fuel0 next0 : nat) (raw : Block)
    (f : Formatter) (fuel next : nat) (text lastb : Block) (lastc : Char) :
  Formatter_init fuel0 next0 raw = Ok f →
  py_nth (section (signals f)) (-1) = Ok lastb →
  is_variable lastb = true →
  str_in (Block_text (delimiter f))
    (concat (Block_text <$> section (signals f))) = false →
  Block_contains text (delimiter f) = false →
  Block_get text (-1) = Ok lastc →
  str_in [str lastc] (Block_text (end_ f)) = false →
  split_into_signals fuel next f text = Ok [Block_copy text].
Proof.
  intros Hf Hlast Hvar Hsimple Hdelim Hc Hend.
  apply Formatter_init_parts in Hf
    as (unparsed & n1 & sb & n2 & _ & Hsig & Hhyps).
  apply Hypotheses_init_fullest in Hhyps as (h & Hh & _ & Htext).
  unfold split_into_signals, effective_delimiter.
  rewrite Hlast. res_simpl. rewrite Hvar. cbn [negb andb].
  destruct (hypotheses f) as [|g gs] eqn:Eg; [done|].
  injection Hh as ->.
  change (py_nth ([h] :: gs) 0) with (Ok [h] : res (list Section)).
  res_simpl. change (py_nth [h] 0) with (Ok h). res_simpl.
  rewrite Hsig in Hsimple, Hlast.
  cbn [section Section_init constants] in *.
  rewrite Htext, Hsimple. cbn [negb].
  assert (Block_text (delimiter f) ≠ []) as Hd.
  { intros Hd. rewrite Hd, str_in_empty in Hsimple. done. }
  rewrite Block_split_absent by done.
  assert (Block_nonempty text = true) as ->.
  { unfold Block_get in Hc. unfold Block_nonempty.
    destruct (chars text); [|done]. done. }
  res_simpl. cbn [fix_signals]. unfold fix_signal.
  change (Block_get (Block_copy text) (-1)) with (Block_get text (-1)).
  rewrite Hc. res_simpl. rewrite Hend. res_simpl.
  rewrite Hsig. cbn [section Section_init constants].
  case_bool_decide as Hcs; cbn [negb andb]; [done|].
  case_bool_decide as Hsec; cbn [negb andb]; [done|].
  set (cs := filter (λ x, is_variable x = false) sb) in *.
  destruct (last cs) as [c|] eqn:Elc.
  2: { apply last_None in Elc. done. }
  rewrite (py_nth_last_Ok cs c Elc). res_simpl. rewrite Hlast. res_simpl.
  assert (Block_eq c lastb = false) as ->.
  { apply not_true_is_false. intros Heq%Block_eq_key.
    unfold Block_key in Heq. injection Heq as _ Hv _.
    apply last_Some in Elc as [l' Elc].
    assert (c ∈ cs) as Hin by (rewrite Elc; apply elem_of_app; right; left).
    apply list_elem_of_filter in Hin as [Hcv _].
    unfold is_variable in *. rewrite Hv in Hcv. congruence. }
  rewrite andb_false_r. res_simpl.
  unfold Block_add_str, Block_copy. cbn. by rewrite app_nil_r.
Qed.

(** A record with its assignment. *)
Lemma lone_signal_is_returned_witness :
  split_into_signals 8 200 assigned_formatter (paragraph 300 "1.2 (3) CH")
  = Ok [Block_copy (paragraph 300 "1.2 (3) CH")].
Proof.
  apply (lone_signal_is_returned 8 100 (paragraph 0 "H /%c (%i) %a/; /.")
           assigned_formatter 8 200 (paragraph 300 "1.2 (3) CH")
           (Block_of_str 104 (lit "%a") false (Some true))
           (Char_init "H" 309)).
  all: vm_compute; reflexivity.
Defined.

(** ** The records of the anchored split *)

Lemma sublist_concat_elem {A} (x : list A) (l : list (list A)) :
  x ∈ l → x `sublist_of` concat l.
Proof.
  intros (l1 & l2 & ->)%list_elem_of_split. rewrite concat_app. cbn.
  apply sublist_inserts_l, sublist_inserts_r. done.
Qed.

Lemma Block_split_pieces (b d : Block) (parts : list Block) :
  Block_split b d = Ok parts →
  Forall (λ s, chars s `sublist_of` chars b) parts.
Proof.
  unfold Block_split. intros H.
  apply bind_inv_Ok in H as (sl & _ & H).
  apply Block_split_loop_chars in H as [Hsub _]; [|constructor].
  cbn in Hsub. apply Forall_forall. intros s Hs.
  etrans; [|exact Hsub]. apply sublist_concat_elem.
  apply list_elem_of_fmap. by exists s.
Qed.

Lemma complex_inner_pieces (T : list Char) fuel l r d text sigs text' sigs' fin :
  complex_inner fuel l r d text sigs = Ok (text', sigs', fin) →
  chars text `sublist_of` T →
  Forall (λ s, chars s `sublist_of` T) sigs →
  chars text' `sublist_of` T ∧ Forall (λ s, chars s `sublist_of` T) sigs'.
Proof.
  revert text sigs. induction fuel as [|fuel IH]; intros text sigs; [done|].
  cbn [complex_inner]. destruct (_ && _).
  - intros H Ht Hs. apply bind_inv_Ok in H as ([piece t'] & Hstep & H).
    assert (chars piece `sublist_of` T ∧ chars t' `sublist_of` T) as [Hp Ht'].
    { unfold complex_step in Hstep.
      repeat (apply bind_inv_Ok in Hstep as (? & _ & Hstep)).
      injection Hstep as <- <-. split.
      - etrans; [apply slice_sublist | done].
      - etrans; [apply sublist_drop | done]. }
    assert (Forall (λ s, chars s `sublist_of` T) (sigs ++ [piece])) as Hs'.
    { apply Forall_app. split; [done|]. by apply Forall_singleton. }
    destruct (Block_eq t' (Block_copy text)).
    + by injection H as <- <- <-.
    + eapply IH; [exact H | done | done].
  - intros [= <- <- <-]. done.
Qed.

Lemma complex_outer_pieces (T : list Char) fuel f d text sigs out :
  complex_outer fuel f d text sigs = Ok out →
  chars text `sublist_of` T →
  Forall (λ s, chars s `sublist_of` T) sigs →
  Forall (λ s, chars s `sublist_of` T) out.
Proof.
  revert text sigs. induction fuel as [|fuel IH]; intros text sigs; [done|].
  cbn [complex_outer]. destruct (Block_nonempty text).
  - intros H Ht Hs.
    apply bind_inv_Ok in H as (l0 & _ & H).
    apply bind_inv_Ok in H as (r0 & _ & H).
    apply bind_inv_Ok in H as (r & _ & H).
    destruct (_ || _).
    + apply bind_inv_Ok in H as (parts & Hparts & [= <-]).
      apply Forall_app. split; [done|].
      apply Block_split_pieces in Hparts.
      eapply Forall_impl; [exact Hparts|]. intros s Hsub. simpl in Hsub.
      etrans; [exact Hsub | exact Ht].
    + apply bind_inv_Ok in H as ([[t' sigs'] fin] & Hin & H).
      apply (complex_inner_pieces T) in Hin as [Ht' Hs']; [|done..].
      destruct fin; [by injection H as <-|].
      eapply IH; [exact H | done | done].
  - by intros [= <-].
Qed.

(** X27: every record that [Spectrum.complex_parse_into_signals] returns
    is made of characters of the text, in their order. *)
Theorem complex_records_are_pieces (fuel : nat) (f : Formatter)
    (delim text : Block) (_signals : list Block) :
  complex_parse_into_signals fuel f delim text = Ok _signals →
  Forall (λ s, chars s `sublist_of` chars text) _signals.
Proof.
  unfold complex_parse_into_signals. intros H.
  eapply complex_outer_pieces; [exact H | done | constructor].
Qed.

(** Two records whose delimiter also stands inside them. *)
Lemma complex_records_are_pieces_witness :
  Forall (λ s, chars s `sublist_of` chars (paragraph 300 "1, 2, 3, 4"))
    [Block_slice (paragraph 300 "1, 2, 3, 4") 0 4;
     Block_slice (paragraph 300 "1, 2, 3, 4") 6 10].
Proof.
  apply (complex_records_are_pieces 20 pairs_formatter
           (delimiter pairs_formatter) (paragraph 300 "1, 2, 3, 4")).
  vm_compute. reflexivity.
Defined.

(** * The groups of the hypotheses *)

(** ** Elements that stand at one index *)

Section unique.
Context {A K : Type} (eqb : A → A → bool) (key : A → K).
Context (Hkey : ∀ x y, eqb x y = true ↔ key x = key y).

Lemma list_in_occurrences x l :
  list_in eqb x l = bool_decide (0 < occurrences eqb x l).
Proof.
  unfold list_in. induction l as [|y l IH]; [done|].
  cbn [existsb]. rewrite (occurrences_cons eqb). rewrite IH.
  destruct (eqb y x); cbn [orb].
  - symmetry. apply bool_decide_eq_true_2. lia.
  - done.
Qed.

Lemma list_index_only_at z j l :
  only_at eqb z j l → list_index eqb z l = Some j.
Proof.
  revert j. induction l as [|y l IH]; intros j [Hj Hu]; [done|].
  cbn [list_index]. destruct (eqb y z) eqn:E.
  - by rewrite <- (Hu 0 y eq_refl E).
  - destruct j as [|j].
    + injection Hj as ->. rewrite (eqb_refl eqb key Hkey) in E. done.
    + rewrite (IH j); [done|]. split; [done|].
      intros j' z' Hj' Hz. specialize (Hu (S j') z' Hj' Hz). lia.
Qed.

Lemma dropped_absent z leftout i items :
  (∀ y, y ∈ items → eqb y z = false) → dropped eqb z leftout i items = 0.
Proof.
  revert i. induction items as [|y items IH]; intros i Hno; [done|].
  cbn [dropped]. rewrite (Hno y) by left. rewrite andb_false_r.
  rewrite IH; [done|]. intros; apply Hno; by right.
Qed.

Lemma occurrences_absent z items :
  (∀ y, y ∈ items → eqb y z = false) → occurrences eqb z items = 0.
Proof.
  induction items as [|y items IH]; intros Hno; [done|].
  rewrite (occurrences_cons eqb), (Hno y) by left.
  rewrite IH; [done|]. intros; apply Hno; by right.
Qed.

Lemma only_at_tail z j y items :
  only_at eqb z (S j) (y :: items) → eqb y z = false ∧ only_at eqb z j items.
Proof.
  intros [Hj Hu]. split.
  - apply not_true_is_false. intros E. by specialize (Hu 0 y eq_refl E).
  - split; [done|]. intros j' z' Hj' Hz.
    specialize (Hu (S j') z' Hj' Hz). lia.
Qed.

Lemma only_at_head z items :
  only_at eqb z 0 (z :: items) → ∀ y, y ∈ items → eqb y z = false.
Proof.
  intros [_ Hu] y Hy. apply not_true_is_false. intros E.
  apply list_elem_of_lookup in Hy as [j' Hj'].
  by specialize (Hu (S j') y Hj' E).
Qed.

Lemma only_at_inv z j y items :
  only_at eqb z j (y :: items) →
  (j = 0 ∧ y = z ∧ ∀ y', y' ∈ items → eqb y' z = false)
  ∨ (∃ j', j = S j' ∧ eqb y z = false ∧ only_at eqb z j' items).
Proof.
  destruct j as [|j]; intros H.
  - left. destruct H as [Hj Hu]. injection Hj as ->.
    split_and!; [done..|]. by apply only_at_head.
  - right. exists j. split; [done|]. by apply only_at_tail.
Qed.

Lemma dropped_only_at z leftout i j items :
  only_at eqb z j items →
  dropped eqb z leftout i items
  = if bool_decide (Z.of_nat (i + j) ∈ leftout) then 1 else 0.
Proof.
  revert i j. induction items as [|y items IH]; intros i j H.
  - by destruct H as [? _].
  - cbn [dropped].
    apply only_at_inv in H as [(-> & -> & Hno)|(j' & -> & Hy & H)].
    + rewrite (eqb_refl eqb key Hkey), andb_true_r, dropped_absent by done.
      replace (i + 0) with i by lia. case_bool_decide; lia.
    + rewrite Hy, andb_false_r, (IH (S i) j') by done.
      by replace (S i + j') with (i + S j') by lia.
Qed.

Lemma occurrences_only_at z j items :
  only_at eqb z j items → occurrences eqb z items = 1.
Proof.
  revert j. induction items as [|y items IH]; intros j H.
  - by destruct H as [? _].
  - rewrite (occurrences_cons eqb).
    apply only_at_inv in H as [(-> & -> & Hno)|(j' & -> & Hy & H)].
    + by rewrite (eqb_refl eqb key Hkey), occurrences_absent.
    + rewrite Hy. by rewrite (IH j').
Qed.

(** What [knock_out] leaves of every element. *)
Lemma knock_out_occurrences leftout i items temp c :
  (∀ x, occurrences eqb x items ≤ occurrences eqb x temp) →
  knock_out eqb leftout i items temp = Ok c →
  ∀ z, occurrences eqb z c + dropped eqb z leftout i items
       = occurrences eqb z temp.
Proof.
  revert i temp. induction items as [|item items IH]; intros i temp Hocc.
  - intros [= <-] z. simpl. lia.
  - cbn [knock_out dropped]. case_bool_decide.
    + destruct (list_remove_occurrences eqb key Hkey item temp)
        as (temp' & -> & Hlen & Hocc').
      { specialize (Hocc item).
        rewrite (occurrences_cons eqb), (eqb_refl eqb key Hkey) in Hocc.
        lia. }
      res_simpl. intros Hc z. cbn [andb].
      assert (∀ x, occurrences eqb x items ≤ occurrences eqb x temp') as Hle.
      { intros x. rewrite Hocc'. specialize (Hocc x).
        rewrite (occurrences_cons eqb) in Hocc. lia. }
      specialize (IH (S i) temp' Hle Hc z). rewrite Hocc' in IH.
      specialize (Hocc z). rewrite (occurrences_cons eqb) in Hocc.
      destruct (eqb item z); lia.
    + intros Hc z. cbn [andb]. apply (IH (S i) temp); [|done].
      intros x. specialize (Hocc x).
      rewrite (occurrences_cons eqb) in Hocc. lia.
Qed.

(** An element that stands at one index only is in the combination
    exactly when that index is not left out. *)
Lemma knock_out_member leftout a_list c z j :
  knock_out eqb leftout 0 a_list a_list = Ok c →
  only_at eqb z j a_list →
  list_in eqb z c = negb (bool_decide (Z.of_nat j ∈ leftout)).
Proof.
  intros Hc Hz. rewrite list_in_occurrences.
  pose proof (knock_out_occurrences leftout 0 a_list a_list c
                ltac:(done) Hc z) as H.
  rewrite (dropped_only_at z leftout 0 j a_list Hz) in H.
  rewrite (occurrences_only_at z j a_list Hz) in H.
  cbn [Nat.add] in H. case_bool_decide; cbn [negb].
  - apply bool_decide_eq_false_2. lia.
  - apply bool_decide_eq_true_2. lia.
Qed.
End unique.

(** ** The pieces of a compiled template *)

Lemma elem_of_concat_2 {X} (L : list (list X)) y o :
  o ∈ y → y ∈ L → o ∈ concat L.
Proof.
  intros Ho. induction L as [|a L IH]; intros Hy.
  - by apply elem_of_nil in Hy.
  - cbn [concat]. apply elem_of_app.
    apply elem_of_cons in Hy as [<-|Hy]; [by left | right; by apply IH].
Qed.

Lemma concat_NoDup_lookup {X} (L : list (list X)) i j x y o :
  NoDup (concat L) → L !! i = Some x → L !! j = Some y →
  o ∈ x → o ∈ y → i = j.
Proof.
  revert i j. induction L as [|a L IH]; intros i j Hnd Hi Hj Hx Hy; [done|].
  cbn [concat] in Hnd. apply NoDup_app in Hnd as (_ & Hdisj & Hnd).
  destruct i as [|i], j as [|j]; [done| | |f_equal; by eapply IH].
  - injection Hi as ->. exfalso. apply (Hdisj o Hx).
    apply (elem_of_concat_2 L y); [done|]. by eapply list_elem_of_lookup_2.
  - injection Hj as ->. exfalso. apply (Hdisj o Hy).
    apply (elem_of_concat_2 L x); [done|]. by eapply list_elem_of_lookup_2.
Qed.

Lemma oids_of_concat (ps : list piece) :
  oids_of (concat ps) = concat (oids_of <$> ps).
Proof.
  induction ps as [|p ps IH]; [done|].
  cbn [concat fmap list_fmap]. by rewrite oids_of_app, IH.
Qed.

(** A piece that is not empty equals no other piece of the template: its
    characters are objects of their own. *)
Lemma pieces_only_at (ps : list piece) i p :
  NoDup (oids_of (concat ps)) →
  Forall (Forall (λ b, chars b ≠ [])) ps →
  ps !! i = Some p → p ≠ [] → only_at piece_eq p i ps.
Proof.
  intros Hnd Hne Hi Hp. split; [done|]. intros i' p' Hi' Heq.
  apply piece_eq_key in Heq.
  destruct p as [|b p]; [done|]. destruct p' as [|b' p']; [done|].
  rewrite !fmap_cons in Heq. injection Heq as Hoids _ _.
  assert (chars b ≠ []) as Hcb.
  { rewrite Forall_lookup in Hne. specialize (Hne i _ Hi).
    by apply Forall_cons in Hne as [? _]. }
  destruct (chars b) as [|c cs] eqn:Ec; [done|].
  rewrite oids_of_concat in Hnd.
  apply (concat_NoDup_lookup (oids_of <$> ps) i' i
           (oids_of (b' :: p')) (oids_of (b :: p)) (oid c) Hnd).
  - rewrite list_lookup_fmap. unfold piece in *. by rewrite Hi'.
  - rewrite list_lookup_fmap. unfold piece in *. by rewrite Hi.
  - rewrite oids_of_cons, Hoids. apply elem_of_app. left. left.
  - rewrite oids_of_cons, Ec. apply elem_of_app. left. left.
Qed.

Lemma odd_entries_lookup_eq {A} (l : list A) (j : nat) :
  odd_entries l !! j = l !! (2 * j + 1).
Proof.
  revert l. induction j as [|j IH]; intros [|a [|b l]]; try done.
  cbn [odd_entries]. rewrite lookup_cons. rewrite IH.
  by replace (2 * S j + 1) with (S (S (2 * j + 1))) by lia.
Qed.

Lemma odd_pieces_only_at (ps : list piece) j q :
  NoDup (oids_of (concat ps)) →
  Forall (Forall (λ b, chars b ≠ [])) ps →
  ps !! (2 * j + 1) = Some q → q ≠ [] →
  only_at piece_eq q j (odd_entries ps).
Proof.
  intros Hnd Hne Hj Hq.
  destruct (pieces_only_at ps _ q Hnd Hne Hj Hq) as [_ Hu].
  split; [by rewrite odd_entries_lookup_eq|].
  intros j' q' Hj' Heq. rewrite odd_entries_lookup_eq in Hj'.
  specialize (Hu _ _ Hj' Heq). lia.
Qed.

(** With the pieces of a compiled template, [build_hypotheses] takes the
    obligatory pieces and the optional pieces whose numbers are not left
    out. *)
Lemma assemble_kept (_pieces : list piece) leftout c :
  NoDup (oids_of (concat _pieces)) →
  Forall (Forall (λ b, chars b ≠ [])) _pieces →
  knock_out piece_eq leftout 0 (odd_entries _pieces) (odd_entries _pieces)
  = Ok c →
  ∀ ps (is_optional : bool) j acc,
    drop (2 * j + (if is_optional then 1 else 0)) _pieces = ps →
    assemble _pieces ps c acc
    = Ok (acc ++ concat (kept_pieces leftout is_optional j ps)).
Proof.
  intros Hnd Hne Hc ps. induction ps as [|p ps IH]; intros opt j acc Hps.
  - cbn. by rewrite app_nil_r.
  - set (i := 2 * j + (if opt then 1 else 0)) in *.
    assert (_pieces !! i = Some p) as Hi.
    { rewrite <- (Nat.add_0_r i), <- lookup_drop, Hps. done. }
    assert (drop (S i) _pieces = ps) as Hps'.
    { replace (S i) with (i + 1) by lia. by rewrite <- drop_drop, Hps. }
    cbn [assemble kept_pieces].
    destruct (decide (p = [])) as [->|Hp].
    + destruct (list_index_is_Some piece_eq [] _pieces) as [ix ->].
      { exists []. split; [by eapply list_elem_of_lookup_2|done]. }
      res_simpl. rewrite app_nil_r.
      assert (assemble _pieces ps c acc
              = Ok (acc ++ concat (kept_pieces leftout (negb opt)
                                     (if opt then S j else j) ps))) as Hrest.
      { apply IH. rewrite <- Hps'. f_equal. subst i. destruct opt; simpl; lia. }
      destruct opt; cbn [negb] in Hrest.
      * repeat case_bool_decide; cbn; try destruct (list_in _ _ _); done.
      * repeat case_bool_decide; cbn; try destruct (list_in _ _ _); done.
    + rewrite (list_index_only_at piece_eq (fmap Block_key) piece_eq_key
                 p i _pieces) by by apply pieces_only_at.
      res_simpl. destruct opt.
      * assert (i `mod` 2 ≠ 0) as Hodd.
        { subst i. rewrite Nat.add_comm, Nat.mul_comm, Nat.Div0.mod_add.
          done. }
        rewrite bool_decide_eq_false_2 by done.
        rewrite (knock_out_member piece_eq (fmap Block_key) piece_eq_key
                   leftout _ c p j Hc)
          by by apply odd_pieces_only_at.
        case_bool_decide; cbn [negb app].
        -- apply IH. rewrite <- Hps'. f_equal. subst i. lia.
        -- cbn [concat]. rewrite app_assoc. apply IH.
           rewrite <- Hps'. f_equal. subst i. lia.
      * assert (i `mod` 2 = 0) as Heven.
        { subst i. rewrite Nat.add_0_r, Nat.mul_comm. apply Nat.Div0.mod_mul. }
        rewrite bool_decide_eq_true_2 by done.
        cbn [concat]. rewrite app_assoc. apply IH.
        rewrite <- Hps'. f_equal. subst i. lia.
Qed.

(** One piece is missing for every optional piece that is left out. *)
Lemma kept_pieces_length leftout ps :
  ∀ (is_optional : bool) j,
    length (kept_pieces leftout is_optional j ps)
    + hits leftout j
        (length (odd_entries (if is_optional then [] :: ps else ps)))
    = length ps.
Proof.
  induction ps as [|p ps IH]; intros opt j.
  - by destruct opt.
  - destruct opt.
    + cbn [kept_pieces odd_entries length hits].
      specialize (IH false (S j)). cbn iota in IH.
      rewrite length_app. case_bool_decide; cbn [length]; lia.
    + specialize (IH true j). cbn iota in IH. cbn iota.
      cbn [kept_pieces length].
      destruct ps as [|q ps]; cbn [odd_entries] in *; lia.
Qed.

Lemma splice_blocks_chars s h :
  splice_blocks s = Ok h →
  concat (chars <$> section h) = concat (chars <$> section s).
Proof.
  rewrite splice_blocks_section. intros [= <-].
  cbn [section Section_init]. rewrite concat_chars_filter.
  by destruct (splice_loop_spec (length (section s)) 0 (section s)) as [-> _].
Qed.

(** The hypothesis that [build_hypotheses] makes of a combination. *)
Lemma build_hypothesis_holds (_pieces : list piece) leftout m c h :
  NoDup (oids_of (concat _pieces)) →
  Forall (Forall (λ b, chars b ≠ [])) _pieces →
  index_set (length (odd_entries _pieces)) m leftout →
  knock_out piece_eq leftout 0 (odd_entries _pieces) (odd_entries _pieces)
  = Ok c →
  build_hypothesis _pieces c = Ok h →
  holds_pieces _pieces leftout h.
Proof.
  intros Hnd Hne (Hinc & Hlt & Hlen) Hc Hh. unfold build_hypothesis in Hh.
  rewrite (assemble_kept _pieces leftout c Hnd Hne Hc _pieces false 0 [])
    in Hh by done.
  res_simpl_in Hh. cbn [app] in Hh.
  split_and!.
  - exact Hh.
  - by rewrite (splice_blocks_chars _ _ Hh).
  - pose proof (kept_pieces_length leftout _pieces false 0) as Hk.
    cbn iota in Hk. rewrite hits_index_set in Hk by done. exact Hk.
Qed.

(** The pieces of a signal section whose characters are different
    objects. *)
Lemma segment_apart (sig : list Block) :
  NoDup (oids_of sig) →
  NoDup (oids_of (concat (segment sig [] [])))
  ∧ Forall (Forall (λ b, chars b ≠ [])) (segment sig [] []).
Proof.
  intros Hnd. split.
  - rewrite segment_concat. cbn [concat app].
    eapply sublist_NoDup; [done|]. apply oids_of_sublist, sublist_filter.
  - apply segment_blocks; [|done..].
    intros b _ Hb Hc. apply Hb. unfold Block_text. by rewrite Hc.
Qed.

(** The blocks of the signals of a compiled template are made of
    different objects, when the characters of the raw template are. *)
Lemma compiled_signals_distinct fuel next raw f :
  Formatter_init fuel next raw = Ok f →
  fresh_below next (oid <$> chars raw) →
  NoDup (oids_of (section (signals f))).
Proof.
  unfold Formatter_init. intros Hf Hfresh.
  repeat case_bool_decide; try done.
  apply bind_inv_Ok in Hf as (i1 & _ & Hf).
  apply bind_inv_Ok in Hf as (i2 & _ & Hf).
  apply bind_inv_Ok in Hf as (r & _ & Hf).
  apply bind_inv_Ok in Hf as (before & _ & Hf).
  destruct (negb _); [done|].
  apply bind_inv_Ok in Hf as (e & _ & Hf).
  apply bind_inv_Ok in Hf as ([h next1] & Hh & Hf).
  apply bind_inv_Ok in Hf as ([s next2] & Hs & Hf).
  apply bind_inv_Ok in Hf as (hyps & _ & Hf).
  injection Hf as <-. simpl.
  unfold Formatter_parse in Hh, Hs.
  eapply parse_loop_distinct in Hh as [_ Hle]; [|done|].
  2:{ simpl. eapply fresh_sublist; [|done].
      apply fmap_sublist, sublist_take. }
  eapply parse_loop_distinct in Hs as [[Hnd _] _]; [done | done |].
  simpl. destruct Hfresh as [Hnd Hlt]. split.
  - eapply sublist_NoDup; [done|]. apply fmap_sublist, slice_sublist.
  - apply Forall_forall. intros x Hx.
    rewrite Forall_forall in Hlt.
    assert (x < next); [|lia]. apply Hlt.
    eapply elem_of_sublist; [done|]. apply fmap_sublist, slice_sublist.
Qed.

(** ** More fuel changes nothing *)

Lemma find_combinations_loop_fuel {A} (eqb : A → A → bool) fuel fuel'
    a_list leftout acc out :
  fuel ≤ fuel' →
  find_combinations_loop eqb fuel a_list leftout acc = Ok out →
  find_combinations_loop eqb fuel' a_list leftout acc = Ok out.
Proof.
  revert fuel' leftout acc.
  induction fuel as [|fuel IH]; intros fuel' leftout acc Hle; [done|].
  destruct fuel' as [|fuel']; [lia|]. cbn [find_combinations_loop].
  destruct (knock_out eqb leftout 0 a_list a_list); [|done..]. res_simpl.
  destruct (next_leftout leftout) as [[l'|]| |]; [|done..]. res_simpl.
  apply IH. lia.
Qed.

Lemma build_hypotheses_fuel fuel fuel' _pieces n hs :
  fuel ≤ fuel' →
  build_hypotheses fuel _pieces n = Ok hs →
  build_hypotheses fuel' _pieces n = Ok hs.
Proof.
  intros Hle. unfold build_hypotheses, find_combinations.
  destruct (Z.of_nat <$> seq n _); [done|].
  intros H. apply bind_inv_Ok in H as (combos & Hc & H).
  by rewrite (find_combinations_loop_fuel _ _ _ _ _ _ _ Hle Hc).
Qed.

Lemma mapM_ext_Ok {A B} (f g : A → res B) (l : list A) (ys : list B) :
  (∀ x y, f x = Ok y → g x = Ok y) →
  mapM f l = Ok ys → mapM g l = Ok ys.
Proof.
  intros Hfg. revert ys. induction l as [|x l IH]; intros ys; [done|].
  cbn [mapM]. intros H. apply bind_inv_Ok in H as (y & Hy & H).
  apply bind_inv_Ok in H as (ys' & Hys & [= <-]).
  by rewrite (Hfg _ _ Hy), (IH _ Hys).
Qed.

Lemma Hypotheses_init_fuel fuel fuel' signal groups :
  fuel ≤ fuel' →
  Hypotheses_init fuel signal = Ok groups →
  Hypotheses_init fuel' signal = Ok groups.
Proof.
  intros Hle. unfold Hypotheses_init. intros H.
  apply bind_inv_Ok in H as (gs & Hgs & [= <-]).
  rewrite (mapM_ext_Ok _ (build_hypotheses fuel' _) _ _ ltac:(
    intros ??; by apply build_hypotheses_fuel) Hgs).
  done.
Qed.

(** The fuel is spent on the hypotheses only. *)
Lemma Formatter_init_fuel fuel fuel' next raw f :
  Formatter_init fuel next raw = Ok f →
  Hypotheses_init fuel' (signals f) = Ok (hypotheses f) →
  Formatter_init fuel' next raw = Ok f.
Proof.
  unfold Formatter_init.
  destruct (bool_decide (Block_count_str raw (lit "/") ≠ 3)); [done|].
  destruct (bool_decide (Block_count_str raw (lit "*") `mod` 2 ≠ 0)); [done|].
  destruct (Block_index_str raw (lit "/") 0) as [i1| |]; [|done..].
  res_simpl.
  destruct (Block_index_str raw (lit "/") (i1 + 1)) as [i2| |]; [|done..].
  res_simpl.
  destruct (Block_index_str (Block_reversed raw) (lit "/") 0) as [r| |];
    [|done..].
  res_simpl.
  destruct (Block_get raw (Z.of_nat i1 - 1)) as [before| |]; [|done..].
  res_simpl.
  destruct (negb (Char_eq_str before " ")); [done|].
  match goal with
  | |- mbind _ ?m = _ → _ => destruct m as [e| |]; [|done..]
  end.
  res_simpl.
  destruct (Formatter_parse raw (Block_upto raw i1) next) as [[h n1]| |];
    [|done..].
  res_simpl.
  destruct (Formatter_parse raw _ n1) as [[s n2]| |]; [|done..].
  res_simpl.
  destruct (Hypotheses_init fuel _) as [hyps| |]; [|done..].
  res_simpl. intros [= <-]. cbn [signals hypotheses].
  by intros ->.
Qed.

(** C1: for a template compiled from a paragraph of distinct characters,
    with [k] optional pieces in its signal region, enough fuel for the loop
    of [find_combinations] gives the compiled template, and its hypotheses
    number the sum of [binom k n] over [n = 0 .. k].  They come in [k + 1]
    groups; the group at position [k - n] holds the [binom k n] hypotheses
    with [n] optional pieces, so the fullest group is first.  Every
    hypothesis of that group is the splice of the obligatory pieces and of
    the optional pieces that its set of [k - n] indices does not leave out,
    in the order of the template.  Within the group these sets start with
    the last [k - n] pieces and go down the colexicographic order one
    position at a time: where two neighbouring sets differ last, the
    earlier one leaves out the later piece. *)
Theorem hypothesis_groups (fuel0 next : nat) (raw : Block) (f : Formatter) :
  Formatter_init fuel0 next raw = Ok f →
  fresh_below next (oid <$> chars raw) →
  let _pieces := segment (section (signals f)) [] [] in
  let k := length (odd_entries _pieces) in
  let total := sum_list (binom k <$> seq 0 (S k)) in
  (∀ fuel, total ≤ fuel → Formatter_init fuel next raw = Ok f)
  ∧ length (concat (hypotheses f)) = total
  ∧ length (hypotheses f) = S k
  ∧ ∀ n, n ≤ k →
      ∃ hs, hypotheses f !! (k - n) = Some hs ∧ group_holds _pieces n hs.
Proof.
  intros Hf Hfresh _pieces k total.
  pose proof (compiled_signals_distinct _ _ _ _ Hf Hfresh) as Hnd.
  destruct (segment_apart _ Hnd) as [Hnd' Hne]. fold _pieces in Hnd', Hne.
  destruct (Formatter_init_parts _ _ _ _ Hf)
    as (unparsed & n1 & sb & n2 & _ & Hsig & Hhyps).
  rewrite <- Hsig in Hhyps.
  assert (∀ fuel, total ≤ fuel →
            Hypotheses_init fuel (signals f) = Ok (hypotheses f)) as Hany.
  { intros fuel Hfuel.
    destruct (Hypotheses_init_groups fuel (signals f) Hfuel)
      as (groups & Hg & _).
    rewrite Hg. f_equal.
    apply (Hypotheses_init_fuel _ (fuel `max` fuel0)) in Hg; [|lia].
    apply (Hypotheses_init_fuel _ (fuel `max` fuel0)) in Hhyps; [|lia].
    congruence. }
  destruct (Hypotheses_init_groups total (signals f) ltac:(done))
    as (groups & Hg & Hcount & Hlen & Hgroups).
  rewrite (Hany total) in Hg by done. injection Hg as <-.
  split_and!; [|done..|].
  - intros fuel Hfuel. eapply Formatter_init_fuel; [done|]. by apply Hany.
  - intros n Hn. destruct (Hgroups n Hn) as (hs & Hhs & Hgr).
    exists hs. split; [done|].
    destruct Hgr as (ls & combos & Hl & Hbuild & Hknock & Hrank & Hsteps & H0).
    exists ls. split_and!; [done| |done..].
    apply Forall2_same_length_lookup. split.
    { rewrite (Forall2_length _ _ _ Hknock). by eapply Forall2_length. }
    intros i l h Hli Hhi.
    destruct (Forall2_lookup_l _ _ _ _ _ Hknock Hli) as (c & Hc & Hset & Hko).
    destruct (Forall2_lookup_lr _ _ _ _ _ _ Hbuild Hc Hhi) as [_ Hb].
    split; [done|]. by eapply build_hypothesis_holds.
Qed.

(** The signal template "x%c*a%i**b%m**c%j*" has three optional pieces:
    eight turns of fuel give its four groups and eight hypotheses, the
    full hypothesis first, and the second group holds the three hypotheses
    with two optional pieces. *)
Lemma hypothesis_groups_witness :
  let raw := paragraph 0 "H /x%c*a%i**b%m**c%j*/; /." in
  let f := formatter_of "H /x%c*a%i**b%m**c%j*/; /." in
  (∀ fuel, 8 ≤ fuel → Formatter_init fuel 100 raw = Ok f)
  ∧ length (concat (hypotheses f)) = 8
  ∧ length (hypotheses f) = 4
  ∧ (λ g : list Section, texts_of <$> g) <$> hypotheses f
    = [[["x"; "%c"; "a"; "%i"; "b"; "%m"; "c"; "%j"]];
       [["x"; "%c"; "a"; "%i"; "b"; "%m"];
        ["x"; "%c"; "a"; "%i"; "c"; "%j"];
        ["x"; "%c"; "b"; "%m"; "c"; "%j"]];
       [["x"; "%c"; "a"; "%i"]; ["x"; "%c"; "b"; "%m"];
        ["x"; "%c"; "c"; "%j"]];
       [["x"; "%c"]]]%string
  ∧ ∃ hs, hypotheses f !! 1 = Some hs
          ∧ group_holds (segment (section (signals f)) [] []) 2 hs.
Proof.
  intros raw f.
  destruct (hypothesis_groups 8 100 raw f) as (Hfuel & Hcount & Hlen & Hgroups).
  - vm_compute. reflexivity.
  - split; apply (bool_decide_unpack _); vm_compute; exact I.
  - split_and!.
    + exact Hfuel.
    + exact Hcount.
    + exact Hlen.
    + vm_compute. reflexivity.
    + exact (Hgroups 2 ltac:(vm_compute; lia)).
Defined.
